(** * disk-viz: the scanner and the scan coordinator

    A shallow embedding of [src/scanner.ts] (tree nodes, the slot limiter,
    the one-shot walk [scanDirectory], the streaming walk [fillNode] with
    its snapshots) and of the scan coordinator of [src/server.ts].

    Conventions.
    - A JavaScript number that holds a byte count is a [Z]; sums are exact
      (the source adds doubles, which is exact below 2^53).
    - The file system is an oracle [FileSystem]: what [readdir], [stat] and
      [du -sk] answer for a path.  The functions of [node:path] are taken
      as fields of the same record.
    - Asynchronous code is a step relation: one step is one continuation
      that runs between two suspension points of the source. *)

From Stdlib Require Import ZArith Lia Ascii String.
From stdpp Require Import base list strings pretty sorting gmap.

#[local] Set Warnings "-register-all".
#[local] Open Scope Z_scope.

(** ** Tree nodes (scanner.ts, lines 5-17) *)

Inductive NodeType := file | directory.

Inductive TreeNode := mkNode {
  name : string;
  path : string;
  size : Z;
  type : NodeType;
  extension : option string;
  children : option (list TreeNode);   (* [None]: the field is absent *)
  truncated : bool                     (* [false]: the field is absent *)
}.

Definition DEFAULT_MAX_DEPTH : nat := 8.
Definition CHILD_LIMIT_DEPTH : nat := 2.
Definition MAX_CHILDREN : nat := 30.

#[global] Instance NodeType_eq_dec : EqDecision NodeType.
Proof. solve_decision. Defined.

(** Induction over a node and, through [Forall], over its children. *)
Section TreeNode_induction.
Variable P : TreeNode → Prop.
Hypothesis P_leaf : ∀ n p s t e tr, P (mkNode n p s t e None tr).
Hypothesis P_inner : ∀ n p s t e cs tr,
    Forall P cs → P (mkNode n p s t e (Some cs) tr).

Fixpoint TreeNode_forall_ind (t : TreeNode) : P t :=
    match t with
    | mkNode n p s ty e None tr => P_leaf n p s ty e tr
    | mkNode n p s ty e (Some cs) tr =>
        P_inner n p s ty e cs tr
          ((fix go (l : list TreeNode) : Forall P l :=
              match l with
              | [] => @List.Forall_nil _ P
              | c :: l' =>
                  @List.Forall_cons _ P c l' (TreeNode_forall_ind c) (go l')
              end) cs)
    end.
End TreeNode_induction.

(** ** Array helpers *)

(** [Array.prototype.sort(cmp)]: a stable sort; [x] goes before the first
    [y] it does not have to follow ([cmp x y <= 0]). *)
Fixpoint sort_insert {A} (cmp : A → A → Z) (x : A) (l : list A) : list A :=
  match l with
  | [] => [x]
  | y :: l' => if cmp x y <=? 0 then x :: l else y :: sort_insert cmp x l'
  end.

Definition js_sort {A} (cmp : A → A → Z) (l : list A) : list A :=
  foldr (sort_insert cmp) [] l.

(** The comparator [(a, b) => b.size - a.size]. *)
Definition by_size_desc (a b : TreeNode) : Z := size b - size a.

(** [cs.reduce((s, c) => s + c.size, 0)] *)
Definition sum_sizes (cs : list TreeNode) : Z :=
  foldl (λ s c, s + size c) 0 cs.

(** ** Snapshots (scanner.ts, lines 183-190 and 268-299) *)

(** [recalcSizes]: sizes bottom-up, children by size descending. *)
Fixpoint recalcSizes (node : TreeNode) : TreeNode :=
  match node with
  | mkNode n p s ty e ch tr =>
      match ch with
      | None => node
      | Some [] => node
      | Some cs =>
          let cs' := js_sort by_size_desc (recalcSizes <$> cs) in
          mkNode n p (sum_sizes cs') ty e (Some cs') tr
      end
  end.

(** The synthetic node that stands for the dropped children. *)
Definition other_node (dirPath : string) (count : nat) (droppedSize : Z)
  : TreeNode :=
  mkNode ("(" +:+ pretty count +:+ " smaller items)")
         (dirPath +:+ "/__other__") droppedSize file None None false.

(** Lines 284-298 and 117-131: keep the first [MAX_CHILDREN] children and
    fold the rest, when they weigh something, into one node. *)
Definition limit_children (dirPath : string) (depth : nat)
    (cs : list TreeNode) : list TreeNode :=
  if bool_decide (CHILD_LIMIT_DEPTH ≤ depth)%nat
     && bool_decide (MAX_CHILDREN < length cs)%nat
  then
    let kept := take MAX_CHILDREN cs in
    let droppedSize := sum_sizes (drop MAX_CHILDREN cs) in
    if 0 <? droppedSize
    then kept ++ [other_node dirPath (length cs - MAX_CHILDREN) droppedSize]
    else kept
  else cs.

(** [applyChildLimits] *)
Fixpoint applyChildLimits (node : TreeNode) (depth : nat) : TreeNode :=
  match node with
  | mkNode n p s ty e ch tr =>
      match ch with
      | None => node
      | Some [] => node
      | Some cs =>
          let cs' := (λ c, applyChildLimits c (S depth)) <$> cs in
          mkNode n p s ty e (Some (limit_children p depth cs')) tr
      end
  end.

(** [snapshot]: the JSON round trip copies the value, which is the
    identity on an immutable term. *)
Definition snapshot (root : TreeNode) : TreeNode :=
  let clone := root in
  recalcSizes (applyChildLimits (recalcSizes clone) 0).

(** ** The file system and [node:path], as the walks see them *)

Inductive DirentKind := DFile | DDirectory | DSymbolicLink | DOther.

(** A [Dirent] of [readdir(dir, { withFileTypes: true })]. *)
Record Dirent := mkDirent { ent_name : string; ent_kind : DirentKind }.

Definition isSymbolicLink (e : Dirent) : bool :=
  match ent_kind e with DSymbolicLink => true | _ => false end.
Definition isDirectory (e : Dirent) : bool :=
  match ent_kind e with DDirectory => true | _ => false end.
Definition isFile (e : Dirent) : bool :=
  match ent_kind e with DFile => true | _ => false end.

Record FileSystem := mkFileSystem {
  readdir : string → option (list Dirent);  (* [None]: the promise rejects *)
  stat : string → option Z;                 (* [stats.size]; [None]: rejects *)
  du : string → option string;              (* stdout of [du -sk]; [None]:
                                               process error or timeout *)
  join : string → string → string;
  basename : string → string;
  extname : string → string;
  toLowerCase : string → string
}.

(** *** [parseInt(s, 10)] on the ASCII part of its definition *)

Definition is_space (c : ascii) : bool :=
  let n := nat_of_ascii c in
  bool_decide (n = 32 ∨ (9 ≤ n ∧ n ≤ 13))%nat.

Definition digit_of (c : ascii) : option Z :=
  let n := Z.of_nat (nat_of_ascii c) in
  if (48 <=? n) && (n <=? 57) then Some (n - 48) else None.

Fixpoint skip_spaces (s : string) : string :=
  match s with
  | String c s' => if is_space c then skip_spaces s' else s
  | EmptyString => s
  end.

(** The value of the longest prefix of digits, [acc] being the value of the
    digits already read. *)
Fixpoint read_digits (acc : Z) (s : string) : Z :=
  match s with
  | String c s' =>
      match digit_of c with
      | Some d => read_digits (10 * acc + d) s'
      | None => acc
      end
  | EmptyString => acc
  end.

Definition starts_with_digit (s : string) : bool :=
  match s with
  | String c _ => bool_decide (is_Some (digit_of c))
  | EmptyString => false
  end.

(** [None] is [NaN]. *)
Definition parseInt (s : string) : option Z :=
  let s1 := skip_spaces s in
  let '(sign, s2) :=
    match s1 with
    | String "-"%char r => (-1, r)
    | String "+"%char r => (1, r)
    | _ => (1, s1)
    end in
  if starts_with_digit s2 then Some (sign * read_digits 0 s2) else None.

(** [text.split("\t")[0]] *)
Fixpoint before_tab (text : string) : string :=
  match text with
  | String c s' =>
      if bool_decide (nat_of_ascii c = 9%nat) then EmptyString
      else String c (before_tab s')
  | EmptyString => EmptyString
  end.

Section Walks.
Variable fs : FileSystem.

(** ** [fastDirSize] (lines 305-322)

    [aborted] is the state of the signal when the promise of [du]
    settles: an abort kills the child and rejects, and both checks of the
    signal return 0. *)
Definition fastDirSize (dirPath : string) (aborted : bool) : Z :=
  if aborted then 0
  else match du fs dirPath with
       | None => 0
       | Some text =>
           match parseInt (before_tab text) with
           | None => 0
           | Some kb => kb * 1024
           end
       end.

(** [basename(dirPath) || dirPath] *)
Definition dir_name (dirPath : string) : string :=
  if bool_decide (basename fs dirPath = "") then dirPath
  else basename fs dirPath.

(** [extname(name).toLowerCase() || undefined] *)
Definition file_extension (entryName : string) : option string :=
  let e := toLowerCase fs (extname fs entryName) in
  if bool_decide (e = "") then None else Some e.

Definition file_node (entryName fullPath : string) (sz : Z) : TreeNode :=
  mkNode entryName fullPath sz file (file_extension entryName) None false.

(** ** The one-shot walk [scanDirectory] (lines 51-137)

    One element of [childPromises]; [rec] is the recursive call.  The
    outer [option] is the fuel of the model, the inner one is [null]. *)
Definition scan_entry (rec : string → option TreeNode) (dirPath : string)
    (entry : Dirent) : option (option TreeNode) :=
  if isSymbolicLink entry then Some None
  else
    let fullPath := join fs dirPath (ent_name entry) in
    if isDirectory entry then c ← rec fullPath; Some (Some c)
    else if isFile entry then
      Some (match stat fs fullPath with
            | Some sz => Some (file_node (ent_name entry) fullPath sz)
            | None => None
            end)
    else Some None.

Fixpoint scanDirectory_fuel (fuel : nat) (dirPath : string)
    (maxDepth depth : nat) : option TreeNode :=
  match fuel with
  | O => None
  | S fuel' =>
      let nm := dir_name dirPath in
      if bool_decide (maxDepth ≤ depth)%nat then
        Some (mkNode nm dirPath (fastDirSize dirPath false) directory
                     None None true)
      else
        match readdir fs dirPath with
        | None => Some (mkNode nm dirPath 0 directory None None false)
        | Some entries =>
            results ← mapM (scan_entry
                              (λ p, scanDirectory_fuel fuel' p maxDepth
                                      (S depth))
                              dirPath) entries;
            let sorted := js_sort by_size_desc (omap id results) in
            let cs := limit_children dirPath depth sorted in
            Some (mkNode nm dirPath (sum_sizes cs) directory None
                         (Some cs) false)
        end
  end.

(** [scanDirectory(dirPath, maxDepth)] with [depth = 0]: one unit of fuel
    per level, and one for the truncated level. *)
Definition scanDirectory (dirPath : string) (maxDepth : nat)
    : option TreeNode :=
    scanDirectory_fuel (S maxDepth) dirPath maxDepth 0.
End Walks.

(** ** Fixtures: concrete file systems for the examples

    [node:path] on normalised POSIX paths; enough of it for the
    examples. *)
Module Fixtures.

Definition posix_join (dir entryName : string) : string :=
  dir +:+ "/" +:+ entryName.

(** The part after the last occurrence of [sep]; [None] without one. *)
Fixpoint after_last (sep : ascii) (s : string) : option string :=
  match s with
  | EmptyString => None
  | String c s' =>
      match after_last sep s' with
      | Some r => Some r
      | None => if bool_decide (c = sep) then Some s' else None
      end
  end.

Definition posix_basename (p : string) : string :=
  default p (after_last "/" p).

Definition posix_extname (entryName : string) : string :=
  match entryName with
  | String "." _ => ""
  | _ => match after_last "." entryName with
         | Some e => "." +:+ e
         | None => ""
         end
  end.

Definition lower_ascii (c : ascii) : ascii :=
  let n := nat_of_ascii c in
  if bool_decide (65 ≤ n ∧ n ≤ 90)%nat then ascii_of_nat (n + 32) else c.

Fixpoint lower (s : string) : string :=
  match s with
  | EmptyString => EmptyString
  | String c s' => String (lower_ascii c) (lower s')
  end.

Definition lookup_table {V} (p : string) (tbl : list (string * V))
  : option V :=
  (λ hit, snd (snd hit)) <$> list_find (λ row, fst row = p) tbl.

(** A file system given by three tables: the listings, the sizes of the
    files and the outputs of [du]; a path without a row fails. *)
Definition table_fs (dirs : list (string * list Dirent))
    (files : list (string * Z)) (dus : list (string * string))
  : FileSystem :=
  {| readdir p := lookup_table p dirs;
     stat p := lookup_table p files;
     du p := lookup_table p dus;
     join := posix_join;
     basename := posix_basename;
     extname := posix_extname;
     toLowerCase := lower |}.

(** The fixture of the specification: [/tmp/x] holds [a.txt] (10 bytes)
    and [b/], which holds [c.txt] (20 bytes) and [d.txt] (5 bytes). *)
Definition fs_x : FileSystem :=
  table_fs
    [("/tmp/x", [mkDirent "a.txt" DFile; mkDirent "b" DDirectory]);
     ("/tmp/x/b", [mkDirent "c.txt" DFile; mkDirent "d.txt" DFile])]
    [("/tmp/x/a.txt", 10); ("/tmp/x/b/c.txt", 20); ("/tmp/x/b/d.txt", 5)]
    [].

(** The same with [du] answering for [b]: 28 kilobytes. *)
Definition fs_x_du : FileSystem :=
  table_fs
    [("/tmp/x", [mkDirent "a.txt" DFile; mkDirent "b" DDirectory]);
     ("/tmp/x/b", [mkDirent "c.txt" DFile; mkDirent "d.txt" DFile])]
    [("/tmp/x/a.txt", 10); ("/tmp/x/b/c.txt", 20); ("/tmp/x/b/d.txt", 5)]
    [("/tmp/x/b", "28" +:+ String (ascii_of_nat 9) "/tmp/x/b")].

(** [count] files [f1], [f2], ... *)
Definition numbered_files (count : nat) : list string :=
  (λ i, "f" +:+ pretty i) <$> seq 1 count.

(** [/r/a/b] holds 32 files of one byte each. *)
Definition fs_wide : FileSystem :=
  table_fs
    [("/r", [mkDirent "a" DDirectory]);
     ("/r/a", [mkDirent "b" DDirectory]);
     ("/r/a/b", (λ f, mkDirent f DFile) <$> numbered_files 32)]
    ((λ f, ("/r/a/b/" +:+ f, 1)) <$> numbered_files 32)
    [].


(** A directory with a file and a symbolic link to the directory
    itself: every path under [/loop] lists the same two entries. *)
Definition fs_loop : FileSystem :=
  {| readdir _ := Some [mkDirent "self" DSymbolicLink;
                        mkDirent "data" DFile];
     stat _ := Some 7;
     du _ := None;
     join := posix_join;
     basename := posix_basename;
     extname := posix_extname;
     toLowerCase := lower |}.

End Fixtures.

(** ** Vocabulary of the statements about trees *)

Definition sorted_desc (cs : list TreeNode) : Prop :=
  StronglySorted (λ a b, size b ≤ size a) cs.

(** The left fold of [reduce] is the sum of the sizes. *)
Definition total (cs : list TreeNode) : Z := foldr (λ c s, size c + s) 0 cs.

(** ** The nodes of a tree, with their depths *)

Fixpoint subnodes (depth : nat) (t : TreeNode) : list (nat * TreeNode) :=
  (depth, t) ::
  match t with
  | mkNode _ _ _ _ _ ch _ =>
      match ch with
      | None => []
      | Some cs => cs ≫= subnodes (S depth)
      end
  end.

(** The node reached from [t] through the children of the given
    indices. *)
Fixpoint descend (ix : list nat) (t : TreeNode) : option TreeNode :=
  match ix with
  | [] => Some t
  | i :: ix' =>
      match children t with
      | Some cs => match cs !! i with Some c => descend ix' c | None => None end
      | None => None
      end
  end.

(** [P] holds of every node of [t], [t] being at depth [d]. *)
Definition tree_all (P : nat → TreeNode → Prop) (d : nat) (t : TreeNode)
  : Prop :=
  ∀ dm m, (dm, m) ∈ subnodes d t → P dm m.

(** A node whose list of children is empty weighs nothing: true of every
    tree that [fillNode] builds, and kept by both passes. *)
Definition empty_zero (_ : nat) (m : TreeNode) : Prop :=
  children m = Some [] → size m = 0.

(** The size of a node with children is the sum of their sizes. *)
Definition sum_ok (_ : nat) (m : TreeNode) : Prop :=
  ∀ cs, children m = Some cs → size m = total cs.

(** The children of a node are in descending order of size. *)
Definition children_sorted (_ : nat) (m : TreeNode) : Prop :=
  ∀ cs, children m = Some cs → sorted_desc cs.

(** The snapshot of a subtree whose root is at depth [d]. *)
Definition snapshot_at (d : nat) (t : TreeNode) : TreeNode :=
  recalcSizes (applyChildLimits (recalcSizes t) d).


(** * The streaming walk (scanner.ts, lines 139-266)

    [scanDirectoryStreaming] shares three variables with the calls of
    [fillNode] and with its timer: the counters, the flag [dirty] and the
    abort signal. *)

Record ScanProgress := mkProgress { dirsFound : nat; dirsCompleted : nat }.

Record Shared := mkShared {
  progress : ScanProgress;
  dirty : bool;
  aborted : bool          (* [signal.aborted] *)
}.

(** Where the call of [fillNode] on a directory node is suspended. *)
Inductive FillState :=
| AwaitSize                       (* line 205: [await fastDirSize] *)
| AwaitEntries                    (* line 213: [await withSlot(readdir)] *)
| AwaitAll (stats : list Dirent)  (* line 263: [await Promise.all]; the file
                                     entries whose [stat] is outstanding *)
| Returned.                       (* the call has returned, or the node is a
                                     file *)

(** A node of the working tree: the object that [fillNode] mutates, and the
    state of the call of [fillNode] on it. *)
Inductive WorkNode := mkWork {
  w_name : string;
  w_path : string;
  w_size : Z;
  w_type : NodeType;
  w_extension : option string;
  w_children : option (list WorkNode);
  w_truncated : bool;
  w_fill : FillState
}.

(** Induction over a working node and its children. *)
Section WorkNode_induction.
Variable P : WorkNode → Prop.
Hypothesis P_leaf : ∀ nm p s ty e tr st, P (mkWork nm p s ty e None tr st).
Hypothesis P_inner : ∀ nm p s ty e cs tr st,
  Forall P cs → P (mkWork nm p s ty e (Some cs) tr st).

Fixpoint WorkNode_forall_ind (n : WorkNode) : P n :=
  match n with
  | mkWork nm p s ty e None tr st => P_leaf nm p s ty e tr st
  | mkWork nm p s ty e (Some cs) tr st =>
      P_inner nm p s ty e cs tr st
        ((fix go (l : list WorkNode) : Forall P l :=
            match l with
            | [] => @List.Forall_nil _ P
            | c :: l' =>
                @List.Forall_cons _ P c l' (WorkNode_forall_ind c) (go l')
            end) cs)
  end.
End WorkNode_induction.

(** The object alone: what [JSON.stringify] sees. *)
Fixpoint erase (n : WorkNode) : TreeNode :=
  match n with
  | mkWork nm p s ty e ch tr _ =>
      mkNode nm p s ty e
             (match ch with
              | None => None
              | Some cs => Some (erase <$> cs)
              end) tr
  end.

Definition set_fill (st : FillState) (n : WorkNode) : WorkNode :=
  mkWork (w_name n) (w_path n) (w_size n) (w_type n) (w_extension n)
         (w_children n) (w_truncated n) st.

Definition set_children (cs : list WorkNode) (n : WorkNode) : WorkNode :=
  mkWork (w_name n) (w_path n) (w_size n) (w_type n) (w_extension n)
         (Some cs) (w_truncated n) (w_fill n).

Definition complete_dir (sh : Shared) : Shared :=
  mkShared (mkProgress (dirsFound (progress sh))
                       (S (dirsCompleted (progress sh))))
           (dirty sh) (aborted sh).

Definition find_dirs (k : nat) (sh : Shared) : Shared :=
  mkShared (mkProgress (k + dirsFound (progress sh))
                       (dirsCompleted (progress sh)))
           (dirty sh) (aborted sh).

Definition markDirty (sh : Shared) : Shared :=
  mkShared (progress sh) true (aborted sh).

Section Streaming.
Variable fs : FileSystem.
Variable maxDepth : nat.

(** Lines 201-213, up to the first [await]. *)
Definition start_fill (depth : nat) (sh : Shared) (n : WorkNode) : WorkNode :=
  if aborted sh then set_fill Returned n
  else if bool_decide (maxDepth ≤ depth)%nat then
    mkWork (w_name n) (w_path n) (w_size n) (w_type n) (w_extension n)
           (w_children n) true AwaitSize
  else set_fill AwaitEntries n.

(** Lines 205-208, after [fastDirSize] has settled. *)
Definition after_size (sh : Shared) (n : WorkNode) : Shared * WorkNode :=
  (markDirty (complete_dir sh),
   mkWork (w_name n) (w_path n) (fastDirSize fs (w_path n) (aborted sh))
          (w_type n) (w_extension n) (w_children n) (w_truncated n)
          Returned).

(** Line 225: the entries that the loop counts. *)
Definition counted (entry : Dirent) : bool :=
  negb (isSymbolicLink entry) && isDirectory entry.

(** Lines 231-246, up to the [await]: the placeholder of a subdirectory,
    on which [fillNode] has started. *)
Definition spawn_dir (depth : nat) (sh : Shared) (dirPath : string)
    (entry : Dirent) : option WorkNode :=
  if aborted sh then None
  else if isSymbolicLink entry then None
  else if isDirectory entry then
    Some (start_fill (S depth) sh
            (mkWork (ent_name entry) (join fs dirPath (ent_name entry)) 0
                    directory None None false Returned))
  else None.

(** Lines 231-250, up to the [await]: the entries for which [stat] is
    called. *)
Definition spawn_stat (sh : Shared) (entry : Dirent) : bool :=
  negb (aborted sh) && negb (isSymbolicLink entry)
  && negb (isDirectory entry) && isFile entry.

(** Lines 211-262, after [readdir] has settled and up to
    [await Promise.all]. *)
Definition after_readdir (depth : nat) (sh : Shared) (n : WorkNode)
  : Shared * WorkNode :=
  match readdir fs (w_path n) with
  | None => (complete_dir sh, set_fill Returned n)
  | Some entries =>
      if aborted sh then (sh, set_fill Returned n)
      else
        let sh1 := find_dirs (length (filter (λ e, counted e = true) entries)) sh in
        let dirs := omap (spawn_dir depth sh1 (w_path n)) entries in
        let stats := filter (λ e, spawn_stat sh1 e = true) entries in
        (match dirs with [] => sh1 | _ => markDirty sh1 end,
         set_fill (AwaitAll stats) (set_children dirs n))
  end.

(** Lines 250-259, after [stat] has settled for [entry]. *)
Definition after_stat (sh : Shared) (n : WorkNode) (entry : Dirent)
    (rest : list Dirent) : Shared * WorkNode :=
  let fullPath := join fs (w_path n) (ent_name entry) in
  match stat fs fullPath with
  | Some sz =>
      let child :=
        mkWork (ent_name entry) fullPath sz file
               (file_extension fs (ent_name entry)) None false Returned in
      (markDirty sh,
       set_fill (AwaitAll rest)
         (set_children (default [] (w_children n) ++ [child]) n))
  | None => (sh, set_fill (AwaitAll rest) n)
  end.

(** Lines 263-265, after every promise has settled. *)
Definition after_all (sh : Shared) (n : WorkNode) : Shared * WorkNode :=
  (markDirty (complete_dir sh), set_fill Returned n).

Definition is_returned (n : WorkNode) : bool :=
  match w_fill n with Returned => true | _ => false end.

(** One continuation of one call of [fillNode] runs, in the subtree of a
    node at depth [depth].  Which of the outstanding operations settles
    next is free: the limiter and the operating system decide. *)
Inductive fill_step : nat → Shared → WorkNode → Shared → WorkNode → Prop :=
| step_size depth sh n :
    w_fill n = AwaitSize →
    fill_step depth sh n (after_size sh n).1 (after_size sh n).2
| step_readdir depth sh n :
    w_fill n = AwaitEntries →
    fill_step depth sh n (after_readdir depth sh n).1
              (after_readdir depth sh n).2
| step_stat depth sh n before entry after :
    w_fill n = AwaitAll (before ++ entry :: after) →
    fill_step depth sh n (after_stat sh n entry (before ++ after)).1
              (after_stat sh n entry (before ++ after)).2
| step_all depth sh n cs :
    w_fill n = AwaitAll [] →
    w_children n = Some cs →
    forallb is_returned cs = true →
    fill_step depth sh n (after_all sh n).1 (after_all sh n).2
| step_child depth sh n stats before c after sh' c' :
    w_fill n = AwaitAll stats →
    w_children n = Some (before ++ c :: after) →
    fill_step (S depth) sh c sh' c' →
    fill_step depth sh n sh' (set_children (before ++ c' :: after) n).

(** How [scanDirectoryStreaming] settles. *)
Inductive Settled :=
| Resolved (final : TreeNode)
| AbortError                  (* line 175 *)
| Failed (message : string).  (* rejected with another error; the walk
                                 raises none itself, see [Coordinator] *)

Record Scan := mkScan {
  root : WorkNode;
  shared : Shared;
  published : list (TreeNode * ScanProgress);  (* the calls of [onProgress],
                                                  the last one first *)
  settled : option Settled                     (* [None]: still pending *)
}.

(** Lines 154-174, up to the first [await]. *)
Definition start_scan (dirPath : string) (signal : bool) : Scan :=
  let sh := mkShared (mkProgress 1 0) false signal in
  mkScan (start_fill 0 sh
            (mkWork (dir_name fs dirPath) dirPath 0 directory None None false
                    Returned))
         sh [] None.

Inductive scan_step : Scan → Scan → Prop :=
| scan_fill s sh' root' :
    fill_step 0 (shared s) (root s) sh' root' →
    scan_step s (mkScan root' sh' (published s) (settled s))
| scan_tick s :                      (* lines 165-171: the timer fires *)
    settled s = None →
    aborted (shared s) = false →
    dirty (shared s) = true →
    scan_step s
      (mkScan (root s)
              (mkShared (progress (shared s)) false (aborted (shared s)))
              ((snapshot (erase (root s)), progress (shared s))
                 :: published s)
              (settled s))
| scan_abort s :                     (* the holder of the signal aborts *)
    aborted (shared s) = false →
    scan_step s
      (mkScan (root s)
              (mkShared (progress (shared s)) (dirty (shared s)) true)
              (published s) (settled s))
| scan_return s :                    (* lines 175-179 *)
    settled s = None →
    is_returned (root s) = true →
    scan_step s
      (mkScan (root s) (shared s) (published s)
              (Some (if aborted (shared s) then AbortError
                     else Resolved (snapshot (erase (root s)))))).

(** The states that a scan of [dirPath] goes through. *)
Definition reachable (dirPath : string) (signal : bool) (s : Scan) : Prop :=
  rtc scan_step (start_scan dirPath signal) s.

End Streaming.

(** ** A scheduler, to run the streaming walk on examples

    It always takes the first outstanding operation in the order of the
    tree. *)
Section Scheduler.
Variable fs : FileSystem.
Variable maxDepth : nat.

(** The first child on which [step] can run, and the children after that
    step. *)
Definition first_child (step : WorkNode → option (Shared * WorkNode))
  : list WorkNode → list WorkNode → option (Shared * list WorkNode) :=
  fix go (before cs : list WorkNode) :=
    match cs with
    | [] => None
    | c :: after =>
        match step c with
        | Some (sh', c') => Some (sh', before ++ c' :: after)
        | None => go (before ++ [c]) after
        end
    end.

Fixpoint fill_first (depth : nat) (sh : Shared) (n : WorkNode)
  : option (Shared * WorkNode) :=
  match n with
  | mkWork nm p s ty e ch tr st =>
      match st with
      | AwaitSize => Some (after_size fs sh n)
      | AwaitEntries => Some (after_readdir fs maxDepth depth sh n)
      | AwaitAll (entry :: rest) => Some (after_stat fs sh n entry rest)
      | AwaitAll [] =>
          match ch with
          | None => None
          | Some cs =>
              if forallb is_returned cs then Some (after_all sh n)
              else
                '(sh', cs') ← first_child (fill_first (S depth) sh) [] cs;
                Some (sh', set_children cs' n)
          end
      | Returned => None
      end
  end.

(** One step of the scan without timer and without abort. *)
Definition scan_first (s : Scan) : option Scan :=
  match fill_first 0 (shared s) (root s) with
  | Some (sh', root') => Some (mkScan root' sh' (published s) (settled s))
  | None =>
      match settled s with
      | Some _ => None
      | None =>
          if is_returned (root s) then
            Some (mkScan (root s) (shared s) (published s)
                    (Some (if aborted (shared s) then AbortError
                           else Resolved (snapshot (erase (root s))))))
          else None
      end
  end.

Fixpoint run (steps : nat) (s : Scan) : Scan :=
  match steps with
  | O => s
  | S k => match scan_first s with Some s' => run k s' | None => s end
  end.

End Scheduler.

(** ** The shape of the working tree *)
Section Invariant.
Variable fs : FileSystem.
Variable maxDepth : nat.

(** The node at [p] was made for an entry of the listing of [dirPath], and
    that entry is not a symbolic link. *)
Definition listed (dirPath p : string) : Prop :=
  ∃ entries entry,
    readdir fs dirPath = Some entries ∧ entry ∈ entries ∧
    isSymbolicLink entry = false ∧ p = join fs dirPath (ent_name entry).

Fixpoint all_returned (n : WorkNode) : bool :=
  match n with
  | mkWork _ _ _ _ _ ch _ st =>
      match st with Returned => true | _ => false end
      && match ch with
         | None => true
         | Some cs => forallb all_returned cs
         end
  end.

(** The working trees that the walk builds, for a node at depth [d];
    [ab] is the state of the abort signal. *)
Inductive ok (ab : bool) : nat → WorkNode → Prop :=
| ok_file d nm p s e :
    ok ab d (mkWork nm p s file e None false Returned)
| ok_await_size d nm p :
    (maxDepth ≤ d)%nat →
    ok ab d (mkWork nm p 0 directory None None true AwaitSize)
| ok_await_entries d nm p :
    (d < maxDepth)%nat →
    ok ab d (mkWork nm p 0 directory None None false AwaitEntries)
| ok_await_all d nm p cs stats :
    (d < maxDepth)%nat →
    Forall (ok ab (S d)) cs →
    Forall (λ c, listed p (w_path c)) cs →
    Forall (λ e, listed p (join fs p (ent_name e))) stats →
    ok ab d (mkWork nm p 0 directory None (Some cs) false (AwaitAll stats))
| ok_truncated d nm p s :
    (maxDepth ≤ d)%nat →
    (ab = false → s = fastDirSize fs p false) →
    ok ab d (mkWork nm p s directory None None true Returned)
| ok_unexpanded d nm p :
    (ab = false → (d < maxDepth)%nat) →
    ok ab d (mkWork nm p 0 directory None None false Returned)
| ok_expanded d nm p cs :
    (d < maxDepth)%nat →
    Forall (ok ab (S d)) cs →
    Forall (λ c, listed p (w_path c)) cs →
    forallb all_returned cs = true →
    ok ab d (mkWork nm p 0 directory None (Some cs) false Returned).

(** ** Counting directories *)

Fixpoint count_dirs (n : WorkNode) : nat :=
  match n with
  | mkWork _ _ _ ty _ ch _ _ =>
      (match ty with directory => 1 | file => 0 end
       + match ch with
         | None => 0
         | Some cs => sum_list_with count_dirs cs
         end)%nat
  end.

(** The directories on which [fillNode] has returned. *)
Fixpoint count_returned (n : WorkNode) : nat :=
  match n with
  | mkWork _ _ _ ty _ ch _ st =>
      (match ty, st with directory, Returned => 1 | _, _ => 0 end
       + match ch with
         | None => 0
         | Some cs => sum_list_with count_returned cs
         end)%nat
  end.

(** ** A bound on the continuations that are still to run *)

(** For a call of [fillNode] that has [fuel] levels above [maxDepth]. *)
Fixpoint walk_cost (fuel : nat) (dirPath : string) : nat :=
  match fuel with
  | O => 1
  | S fuel' =>
      match readdir fs dirPath with
      | None => 1
      | Some entries =>
          2 + sum_list_with
                (λ entry,
                   if isSymbolicLink entry then 0
                   else if isDirectory entry then
                     walk_cost fuel' (join fs dirPath (ent_name entry))
                   else if isFile entry then 1 else 0) entries
      end
  end%nat.

Fixpoint cost (depth : nat) (n : WorkNode) : nat :=
  match n with
  | mkWork _ p _ _ _ ch _ st =>
      (match st with
       | AwaitSize => 1
       | AwaitEntries => walk_cost (maxDepth - depth) p
       | AwaitAll stats => 1 + length stats
       | Returned => 0
       end
       + match ch with
         | None => 0
         | Some cs => sum_list_with (cost (S depth)) cs
         end)%nat
  end.

Definition scan_cost (s : Scan) : nat :=
  (3 * cost 0 (root s)
   + (if dirty (shared s) then 1 else 0)
   + (if aborted (shared s) then 0 else 1)
   + (match settled s with None => 1 | Some _ => 0 end))%nat.

(** What one continuation does to the counters and to the bound. *)
Record step_effect (d : nat) (sh : Shared) (n : WorkNode)
    (sh' : Shared) (n' : WorkNode) : Prop := mkEffect {
  eff_ok : ok (aborted sh') d n';
  eff_aborted : aborted sh' = aborted sh;
  eff_found :
    (dirsFound (progress sh') + count_dirs n
     = dirsFound (progress sh) + count_dirs n')%nat;
  eff_completed :
    (dirsCompleted (progress sh') + count_returned n
     ≤ dirsCompleted (progress sh) + count_returned n')%nat;
  eff_completed_eq :
    aborted sh = false →
    (dirsCompleted (progress sh') + count_returned n
     = dirsCompleted (progress sh) + count_returned n')%nat;
  eff_cost : (cost d n' < cost d n)%nat;
  eff_path : w_path n' = w_path n
}.

End Invariant.

(** ** Invariant of a streaming scan *)
Section ScanInvariant.
Variable fs : FileSystem.
Variable maxDepth : nat.

(** The nodes of a working tree, with their depths. *)
Fixpoint work_nodes (depth : nat) (n : WorkNode) : list (nat * WorkNode) :=
  (depth, n) ::
  match n with
  | mkWork _ _ _ _ _ ch _ _ =>
      match ch with
      | None => []
      | Some cs => cs ≫= work_nodes (S depth)
      end
  end.

Fixpoint work_descend (ix : list nat) (n : WorkNode) : option WorkNode :=
  match ix with
  | [] => Some n
  | i :: ix' =>
      match w_children n with
      | Some cs =>
          match cs !! i with Some c => work_descend ix' c | None => None end
      | None => None
      end
  end.

(** [t] is the snapshot of a working tree of the walk. *)
Definition snapshot_of_walk (t : TreeNode) : Prop :=
  ∃ ab w, ok fs maxDepth ab 0 w ∧ t = snapshot (erase w).

Record scan_inv (s : Scan) : Prop := mkScanInv {
  inv_ok : ok fs maxDepth (aborted (shared s)) 0 (root s);
  inv_found : dirsFound (progress (shared s)) = count_dirs (root s);
  inv_completed :
    (dirsCompleted (progress (shared s)) ≤ count_returned (root s))%nat;
  inv_completed_eq :
    aborted (shared s) = false →
    dirsCompleted (progress (shared s)) = count_returned (root s);
  inv_published :
    Forall (λ call, snapshot_of_walk call.1 ∧
                    (dirsCompleted call.2 ≤ dirsFound call.2)%nat)
           (published s);
  inv_resolved :
    ∀ final, settled s = Some (Resolved final) →
      snapshot_of_walk final ∧ is_returned (root s) = true ∧
      dirsCompleted (progress (shared s)) = dirsFound (progress (shared s));
  inv_rejected :
    settled s = Some AbortError → aborted (shared s) = true
}.

End ScanInvariant.

(** ** Where the nodes of a tree come from *)

(** The same file system, with the symbolic links taken out of every
    listing. *)
Definition without_symlinks (fs : FileSystem) : FileSystem :=
  {| readdir p := filter (λ e, isSymbolicLink e = false) <$> readdir fs p;
     stat := stat fs;
     du := du fs;
     join := join fs;
     basename := basename fs;
     extname := extname fs;
     toLowerCase := toLowerCase fs |}.

(** Every child of [m] is the synthetic node of [m], or was made for an
    entry of the listing of [m] that is not a symbolic link. *)
Definition from_listing (fs : FileSystem) (_ : nat) (m : TreeNode) : Prop :=
  ∀ cs c, children m = Some cs → c ∈ cs →
    (∃ k s, c = other_node (path m) k s) ∨ listed fs (path m) (path c).

(** * The slot limiter (scanner.ts, lines 19-48)

    [active] and [queue] are module variables: one limiter for the whole
    process.  A resolver in [queue] is named by the call that waits on
    it. *)
Module Limiter.

Definition MAX_CONCURRENT : Z := 64.

Record Limiter := mkLimiter { active : Z; queue : list nat }.

(** [acquireSlot], called by [t]; [true] when the promise it returns is
    already resolved. *)
Definition acquireSlot (t : nat) (l : Limiter) : Limiter * bool :=
  if active l <? MAX_CONCURRENT then (mkLimiter (active l + 1) (queue l), true)
  else (mkLimiter (active l) (queue l ++ [t]), false).

(** [releaseSlot]; the call, if any, whose promise [next()] resolves. *)
Definition releaseSlot (l : Limiter) : Limiter * option nat :=
  match queue l with
  | next :: rest => (mkLimiter (active l) rest, Some next)
  | [] => (mkLimiter (active l - 1) [], None)
  end.

(** The system calls of the walks, and how each one is issued. *)
Inductive Syscall := Readdir | Stat | Du.

Inductive Wrapper := WithSlot | Bare.

Definition wrapper_of (c : Syscall) : Wrapper :=
  match c with
  | Readdir => WithSlot   (* lines 72 and 213: [withSlot(() => readdir(..))] *)
  | Stat => WithSlot      (* lines 94 and 250: [withSlot(() => stat(..))] *)
  | Du => Bare            (* line 309: [execFile("du", ..)] in [fastDirSize],
                             called at lines 66 and 205 *)
  end.

Inductive Outcome := Fulfilled | Rejected.

(** Where one call stands; the first three are the suspension points of
    [withSlot]. *)
Inductive Phase :=
| Waiting            (* line 42: the promise of [acquireSlot] is pending *)
| Granted            (* line 42: that promise is resolved, the continuation
                        has not run yet *)
| Running            (* line 44: the system call is in flight *)
| Finished (r : Outcome).   (* after [finally]: returned or threw *)

Record Call := mkCall { syscall : Syscall; phase : Phase }.

Record Io := mkIo {
  limiter : Limiter;
  calls : list Call;       (* call [t] is [calls !! t] *)
  arrivals : list nat;     (* history: the calls that had to wait, in the
                              order of their arrival *)
  grants : list nat        (* history: the calls that [releaseSlot] woke up,
                              in the order of the wake-ups *)
}.

Definition init : Io := mkIo (mkLimiter 0 []) [] [] [].

(** A walk issues the system call [c]; the new call is number
    [length (calls io)]. *)
Definition issue (c : Syscall) (io : Io) : Io :=
  let t := length (calls io) in
  match wrapper_of c with
  | WithSlot =>
      let '(l, now) := acquireSlot t (limiter io) in
      mkIo l (calls io ++ [mkCall c (if now then Granted else Waiting)])
           (if now then arrivals io else arrivals io ++ [t]) (grants io)
  | Bare => mkIo (limiter io) (calls io ++ [mkCall c Running])
                 (arrivals io) (grants io)
  end.

(** Line 44: the continuation of [await acquireSlot()] calls [fn]. *)
Definition start (t : nat) (c : Syscall) (io : Io) : Io :=
  mkIo (limiter io) (<[t := mkCall c Running]> (calls io))
       (arrivals io) (grants io).

Definition wake (next : option nat) (cs : list Call) : list Call :=
  match next with
  | Some t' =>
      match cs !! t' with
      | Some c' => <[t' := mkCall (syscall c') Granted]> cs
      | None => cs
      end
  | None => cs
  end.

(** Lines 44-47: the system call of [t] settles with [r]; under
    [withSlot] the [finally] block releases the slot, whatever [r] is. *)
Definition settle (t : nat) (c : Syscall) (r : Outcome) (io : Io) : Io :=
  let done := <[t := mkCall c (Finished r)]> (calls io) in
  match wrapper_of c with
  | WithSlot =>
      let '(l, next) := releaseSlot (limiter io) in
      mkIo l (wake next done) (arrivals io)
           (match next with Some t' => grants io ++ [t'] | None => grants io end)
  | Bare => mkIo (limiter io) done (arrivals io) (grants io)
  end.

Inductive step : Io → Io → Prop :=
| step_issue c io : step io (issue c io)
| step_start t c io :
    calls io !! t = Some (mkCall c Granted) → step io (start t c io)
| step_settle t c r io :
    calls io !! t = Some (mkCall c Running) → step io (settle t c r io).

Definition reachable (io : Io) : Prop := rtc step init io.

(** A call that has been given a slot and has not released it. *)
Definition holds_slot (c : Call) : bool :=
  match wrapper_of (syscall c), phase c with
  | WithSlot, (Granted | Running) => true
  | _, _ => false
  end.


Definition count (f : Call → bool) (cs : list Call) : Z :=
  Z.of_nat (length (filter (λ c, f c = true) cs)).

Definition b2z (b : bool) : Z := if b then 1 else 0.

End Limiter.

Module LimiterInv.
Import Limiter.

Record inv (io : Io) : Prop := mkInv {
  inv_active : active (limiter io) = count holds_slot (calls io);
  inv_bound : active (limiter io) ≤ MAX_CONCURRENT;
  inv_queue :
    Forall (λ t, ∃ c, calls io !! t = Some (mkCall c Waiting) ∧
                      wrapper_of c = WithSlot)
           (queue (limiter io));
  inv_nodup : NoDup (queue (limiter io));
  inv_fifo : arrivals io = grants io ++ queue (limiter io)
}.

End LimiterInv.

(** The counters of a walk, under a name that [Coordinator] does not
    hide. *)
Definition counters (sh : Shared) : ScanProgress := progress sh.

(** * The scan coordinator (server.ts, lines 6-77 and 128-199) *)
Module Coordinator.

Definition MAX_DEPTH : nat := 8.

(** [ActiveScan]; its [AbortController] is the signal of its walker. *)
Record ActiveScan := mkActiveScan {
  path : string;
  tree : option TreeNode;
  progress : option ScanProgress;
  done : bool;
  error : option string
}.

Inductive ScanEvent :=
| EvProgress (t : TreeNode) (p : option ScanProgress)
| EvDone (t : TreeNode)
| EvError (message : string).

(** One call of [startBackgroundScan]: the object [scan] of its closure
    and the walk that it started. *)
Record Entry := mkEntry { scan : ActiveScan; walker : Scan }.

(** What an observer of the server sees, the latest first. *)
Inductive TraceItem :=
| Subscribed (listener scanId : nat)   (* [sseListeners.add], while
                                          [scanId] is the active scan *)
| Delivered (listener origin : nat) (ev : ScanEvent)
                                       (* [send(ev)]; [origin] is the scan
                                          that the event is about *)
| Cancelled (scanId : nat).            (* [abort.abort()] *)

Record State := mkState {
  entries : list Entry;          (* every [scan] object ever made *)
  activeScan : option nat;       (* the module variable, as an index *)
  sseListeners : list nat;
  nextListener : nat;            (* the next request makes this listener *)
  walkerStarts : nat;            (* calls of [scanDirectoryStreaming] *)
  trace : list TraceItem
}.

Definition init : State := mkState [] None [] 0 0 [].

Definition set_walker (w : Scan) (e : Entry) : Entry := mkEntry (scan e) w.

(** [abort.abort()] on the signal of a walk. *)
Definition abort_walker (w : Scan) : Scan :=
  mkScan (root w)
         (mkShared (counters (shared w)) (dirty (shared w)) true)
         (published w) (settled w).

Section Server.
Variable fs : FileSystem.

(** Lines 36-51 and 54-63, up to the first [await] of the walk. *)
Definition startBackgroundScan (dirPath : string) (s : State) : State :=
  let '(es, tr) :=
    match activeScan s with
    | Some i =>
        match entries s !! i with
        | Some e =>
            if done (scan e) then (entries s, trace s)
            else (<[i := set_walker (abort_walker (walker e)) e]> (entries s),
                  Cancelled i :: trace s)
        | None => (entries s, trace s)
        end
    | None => (entries s, trace s)
    end in
  mkState (es ++ [mkEntry (mkActiveScan dirPath None None false None)
                          (start_scan fs MAX_DEPTH dirPath false)])
          (Some (length es)) (sseListeners s) (nextListener s)
          (S (walkerStarts s)) tr.

(** Lines 134-137. *)
Definition needsNew (resolved : string) (s : State) : bool :=
  match activeScan s with
  | None => true
  | Some i =>
      match entries s !! i with
      | None => true
      | Some e =>
          negb (bool_decide (path (scan e) = resolved))
          || (done (scan e) && bool_decide (is_Some (error (scan e))))
      end
  end.

(** Lines 145-199: the stream of the response starts. *)
Definition subscribe (s : State) : State :=
  let l := nextListener s in
  let add tr :=
    mkState (entries s) (activeScan s) (sseListeners s ++ [l]) (S l)
            (walkerStarts s)
            (match activeScan s with
             | Some i => Subscribed l i :: tr
             | None => tr
             end) in
  match activeScan s with
  | Some i =>
      match entries s !! i with
      | Some e =>
          match tree (scan e) with
          | Some t =>
              if done (scan e) then
                mkState (entries s) (activeScan s) (sseListeners s) (S l)
                        (walkerStarts s)
                        (Delivered l i (EvDone t) :: trace s)
              else
                add (Delivered l i (EvProgress t (progress (scan e)))
                       :: trace s)
          | None => add (trace s)
          end
      | None => add (trace s)
      end
  | None => add (trace s)
  end.

(** Lines 128-199: a request for the directory [resolved]. *)
Definition requestScan (resolved : string) (s : State) : State :=
  subscribe (if needsNew resolved s then startBackgroundScan resolved s
             else s).

(** Lines 32-34 and 170-177: every listener gets the event; a listener
    that gets [done] or [error] removes itself. *)
Definition broadcast (origin : nat) (ev : ScanEvent) (s : State) : State :=
  mkState (entries s) (activeScan s)
          (match ev with EvProgress _ _ => sseListeners s | _ => [] end)
          (nextListener s) (walkerStarts s)
          (reverse ((λ l, Delivered l origin ev) <$> sseListeners s)
             ++ trace s).

Definition update_entry (i : nat) (e : Entry) (s : State) : State :=
  mkState (<[i := e]> (entries s)) (activeScan s) (sseListeners s)
          (nextListener s) (walkerStarts s) (trace s).

(** Lines 57-61: the callback [onProgress]. *)
Definition onProgress (i : nat) (e : Entry) (w' : Scan)
    (snap : TreeNode) (pr : ScanProgress) (s : State) : State :=
  broadcast i (EvProgress snap (Some pr))
    (update_entry i
       (mkEntry (mkActiveScan (path (scan e)) (Some snap) (Some pr)
                              (done (scan e)) (error (scan e))) w') s).

(** Lines 64-69: [.then]. *)
Definition onFulfilled (i : nat) (e : Entry) (w' : Scan) (final : TreeNode)
    (s : State) : State :=
  broadcast i (EvDone final)
    (update_entry i
       (mkEntry (mkActiveScan (path (scan e)) (Some final) None true
                              (error (scan e))) w') s).

(** Lines 70-76: [.catch]. *)
Definition onRejected (i : nat) (e : Entry) (w' : Scan)
    (errName message : string) (s : State) : State :=
  if bool_decide (errName = "AbortError") then update_entry i (mkEntry (scan e) w') s
  else
    broadcast i (EvError message)
      (update_entry i
         (mkEntry (mkActiveScan (path (scan e)) (tree (scan e))
                                (progress (scan e)) true (Some message)) w')
         s).

Definition settle_walker (x : Settled) (w : Scan) : Scan :=
  mkScan (root w) (shared w) (published w) (Some x).

Inductive step : State → State → Prop :=
| co_request resolved s :
    step s (requestScan resolved s)
| co_disconnect l s :            (* lines 190-198: the client goes away *)
    step s (mkState (entries s) (activeScan s)
                    (filter (λ l', l' ≠ l) (sseListeners s))
                    (nextListener s) (walkerStarts s) (trace s))
| co_fill i e sh' root' s :      (* a continuation of [fillNode] runs *)
    entries s !! i = Some e →
    fill_step fs MAX_DEPTH 0 (shared (walker e)) (root (walker e)) sh' root' →
    step s (update_entry i
              (set_walker (mkScan root' sh' (published (walker e))
                                  (settled (walker e))) e) s)
| co_tick i e s :                (* the timer of the walk fires *)
    entries s !! i = Some e →
    settled (walker e) = None →
    aborted (shared (walker e)) = false →
    dirty (shared (walker e)) = true →
    let snap := snapshot (erase (root (walker e))) in
    let pr := counters (shared (walker e)) in
    step s (onProgress i e
              (mkScan (root (walker e))
                      (mkShared pr false (aborted (shared (walker e))))
                      ((snap, pr) :: published (walker e))
                      (settled (walker e)))
              snap pr s)
| co_resolve i e s :             (* scanner.ts, lines 176-177 *)
    entries s !! i = Some e →
    settled (walker e) = None →
    is_returned (root (walker e)) = true →
    aborted (shared (walker e)) = false →
    let final := snapshot (erase (root (walker e))) in
    step s (onFulfilled i e (settle_walker (Resolved final) (walker e))
              final s)
| co_abort_error i e s :         (* scanner.ts, line 175 *)
    entries s !! i = Some e →
    settled (walker e) = None →
    is_returned (root (walker e)) = true →
    aborted (shared (walker e)) = true →
    step s (onRejected i e (settle_walker AbortError (walker e))
              "AbortError" "Scan aborted" s)
| co_fail i e errName message s :
    (* the promise rejects with another error: the walk raises none
       itself, this is an exception out of line 176 *)
    entries s !! i = Some e →
    settled (walker e) = None →
    is_returned (root (walker e)) = true →
    aborted (shared (walker e)) = false →
    errName ≠ "AbortError" →
    step s (onRejected i e (settle_walker (Failed message) (walker e))
              errName message s).

Definition reachable (s : State) : Prop := rtc step init s.

(** Steps that can be run, for the examples. *)
Inductive Action :=
| Request (resolved : string)
| Fill (i : nat)      (* the first outstanding operation of walk [i] *)
| Tick (i : nat)
| Resolve (i : nat).

Definition perform (a : Action) (s : State) : option State :=
  match a with
  | Request resolved => Some (requestScan resolved s)
  | Fill i =>
      e ← entries s !! i;
      x ← fill_first fs MAX_DEPTH 0 (shared (walker e)) (root (walker e));
      Some (update_entry i
              (set_walker (mkScan x.2 x.1 (published (walker e))
                                  (settled (walker e))) e) s)
  | Tick i =>
      e ← entries s !! i;
      match settled (walker e) with
      | Some _ => None
      | None =>
          if negb (aborted (shared (walker e))) && dirty (shared (walker e))
          then
            let snap := snapshot (erase (root (walker e))) in
            let pr := counters (shared (walker e)) in
            Some (onProgress i e
                    (mkScan (root (walker e))
                            (mkShared pr false (aborted (shared (walker e))))
                            ((snap, pr) :: published (walker e))
                            (settled (walker e)))
                    snap pr s)
          else None
      end
  | Resolve i =>
      e ← entries s !! i;
      match settled (walker e) with
      | Some _ => None
      | None =>
          if is_returned (root (walker e))
             && negb (aborted (shared (walker e)))
          then
            let final := snapshot (erase (root (walker e))) in
            Some (onFulfilled i e
                    (settle_walker (Resolved final) (walker e)) final s)
          else None
      end
  end.

Fixpoint perform_all (acts : list Action) (s : State) : option State :=
  match acts with
  | [] => Some s
  | a :: acts' => s' ← perform a s; perform_all acts' s'
  end.

End Server.

(** Two clients: the first asks for [/tmp/x] and gets one progress event,
    the second asks for [/tmp/x/b], whose scan then makes progress. *)
Definition two_clients : list Action :=
  [Request "/tmp/x"; Fill 0; Tick 0;
   Request "/tmp/x/b"; Fill 1; Fill 1; Tick 1]%nat.

(** [x] occurs in the trace [tr], after [older] and before [newer]. *)
Definition split_at (tr newer : list TraceItem) (x : TraceItem)
    (older : list TraceItem) : Prop :=
  tr = newer ++ x :: older.

(** After a scan is cancelled, its subscribers get nothing more. *)
Definition subscribers_silent (s : State) : Prop :=
  ∀ newer older i l origin ev,
    split_at (trace s) newer (Cancelled i) older →
    Subscribed l i ∈ older →
    Delivered l origin ev ∉ newer.

(** After a scan is cancelled, nothing more about it is delivered. *)
Definition cancelled_silent (s : State) : Prop :=
  ∀ newer older i l ev,
    split_at (trace s) newer (Cancelled i) older →
    Delivered l i ev ∉ newer.

End Coordinator.

Module CoordinatorInv.
Import Coordinator.

Record inv (s : State) : Prop := mkInv {
  inv_active : ∀ i, activeScan s = Some i → is_Some (entries s !! i);
  (* a scan that is not the active one has finished or is cancelled *)
  inv_single :
    ∀ j e, entries s !! j = Some e → activeScan s ≠ Some j →
      done (scan e) = true ∨ aborted (shared (walker e)) = true;
  inv_cancelled :
    ∀ i, Cancelled i ∈ trace s →
      activeScan s ≠ Some i ∧
      ∃ e, entries s !! i = Some e ∧ aborted (shared (walker e)) = true
}.

(** What the server does to a walk: nothing, one step of the walk, or the
    mark of a failure. *)
Definition walker_move (fs : FileSystem) (w w' : Scan) : Prop :=
  w' = w ∨ scan_step fs MAX_DEPTH w w' ∨
  ∃ message, w' = settle_walker (Failed message) w.

(** Nothing about scan [i] is delivered in [items]. *)
Definition no_news (i : nat) (items : list TraceItem) : Prop :=
  ∀ l ev, Delivered l i ev ∉ items.

End CoordinatorInv.

(** * What the walks add up *)

(** [l.reduce((s, x) => s + f(x), 0)], from the right. *)
Definition sumZ {A} (f : A → Z) (l : list A) : Z := foldr (λ x s, f x + s) 0 l.

Section Totals.
Variable fs : FileSystem.

(** The bytes that one entry of a listing stands for, [rec] giving those
    of a subdirectory. *)
Definition entry_bytes (rec : string → Z) (dirPath : string)
    (entry : Dirent) : Z :=
  if isSymbolicLink entry then 0
  else if isDirectory entry then rec (join fs dirPath (ent_name entry))
  else if isFile entry then
    default 0 (stat fs (join fs dirPath (ent_name entry)))
  else 0.

(** The bytes under [dirPath], [levels] levels down: the regular files
    that can be listed and sized, and the estimate of [du] for the
    directories at the last level. *)
Fixpoint walk_total (levels : nat) (dirPath : string) : Z :=
  match levels with
  | O => fastDirSize fs dirPath false
  | S levels' =>
      match readdir fs dirPath with
      | None => 0
      | Some entries => sumZ (entry_bytes (walk_total levels') dirPath) entries
      end
  end.

(** No file and no estimate has a negative size. *)
Definition sizes_nonneg : Prop :=
  (∀ p sz, stat fs p = Some sz → 0 ≤ sz) ∧
  (∀ p, 0 ≤ fastDirSize fs p false).

End Totals.


(** ** The bytes of a streaming walk: gathered, and still to come *)
Section Accounting.
Variable fs : FileSystem.
Variable maxDepth : nat.

Definition stat_bytes (dirPath : string) (entry : Dirent) : Z :=
  default 0 (stat fs (join fs dirPath (ent_name entry))).

(** What the outstanding operations under [n] will add to the tree, when
    the signal stays quiet. *)
Fixpoint remaining (depth : nat) (n : WorkNode) : Z :=
  match n with
  | mkWork _ p _ _ _ ch _ st =>
      match st with
      | AwaitSize => fastDirSize fs p false
      | AwaitEntries => walk_total fs (maxDepth - depth) p
      | AwaitAll stats => sumZ (stat_bytes p) stats
      | Returned => 0
      end
      + match ch with
        | None => 0
        | Some cs => sumZ (remaining (S depth)) cs
        end
  end.

(** What is in the working tree already: the size that a snapshot
    computes for it before the cap. *)
Definition gathered (n : WorkNode) : Z := size (recalcSizes (erase n)).

Fixpoint nonneg_sizes (n : WorkNode) : bool :=
  match n with
  | mkWork _ _ s _ _ ch _ _ =>
      (0 <=? s)
      && match ch with
         | None => true
         | Some cs => forallb nonneg_sizes cs
         end
  end.

Record totals_inv (dirPath : string) (s : Scan) : Prop := mkTotalsInv {
  tot_balance :
    aborted (shared s) = false →
    gathered (root s) + remaining 0 (root s) = walk_total fs maxDepth dirPath;
  tot_nonneg : nonneg_sizes (root s) = true;
  tot_published :
    Forall (λ call, 0 ≤ size call.1 ≤ walk_total fs maxDepth dirPath)
           (published s);
  tot_resolved :
    ∀ final, settled s = Some (Resolved final) →
      size final = walk_total fs maxDepth dirPath
}.

End Accounting.


(** ** What the one-shot walk keeps of a listing *)

(** The entries for which [childPromises] holds a node: directories, and
    regular files that [stat] can size. *)
Definition kept_entry (fs : FileSystem) (dirPath : string) (entry : Dirent)
  : bool :=
  negb (isSymbolicLink entry)
  && (isDirectory entry
      || (isFile entry
          && bool_decide (is_Some (stat fs (join fs dirPath
                                              (ent_name entry)))))).

(** The paths of the nodes made for the listing [entries] of [dirPath]. *)
Definition kept_paths (fs : FileSystem) (dirPath : string)
    (entries : list Dirent) : list string :=
  (λ e, join fs dirPath (ent_name e))
    <$> filter (λ e, kept_entry fs dirPath e = true) entries.

(** A node of a one-shot tree, at depth [d] under [maxDepth]. *)
Definition oneshot_depth (maxDepth : nat) (d : nat) (m : TreeNode) : Prop :=
  (d ≤ maxDepth)%nat ∧
  (type m = directory → (truncated m = true ↔ d = maxDepth)) ∧
  (type m = file → truncated m = false ∧ children m = None).

Definition oneshot_truncated (fs : FileSystem) (_ : nat) (m : TreeNode)
  : Prop :=
  truncated m = true →
  children m = None ∧ size m = fastDirSize fs (path m) false.

(** Above [CHILD_LIMIT_DEPTH] the children of [m] are the kept entries of
    its listing. *)
Definition oneshot_complete (fs : FileSystem) (d : nat) (m : TreeNode)
  : Prop :=
  ∀ cs, children m = Some cs → (d < CHILD_LIMIT_DEPTH)%nat →
    ∃ entries, readdir fs (path m) = Some entries ∧
               path <$> cs ≡ₚ kept_paths fs (path m) entries.

(** From [CHILD_LIMIT_DEPTH] on, at most [MAX_CHILDREN] children and one
    synthetic node after them. *)
Definition oneshot_capped (d : nat) (m : TreeNode) : Prop :=
  ∀ cs, children m = Some cs → (CHILD_LIMIT_DEPTH ≤ d)%nat →
    (length cs ≤ S MAX_CHILDREN)%nat ∧
    (length cs = S MAX_CHILDREN →
     ∃ k s, last cs = Some (other_node (path m) k s) ∧ 0 < s).



(** * What the clients of the server see *)
Module CoordinatorView.
Import Coordinator.

(** Line 172: the events after which a listener removes itself. *)
Definition terminal (ev : ScanEvent) : bool :=
  match ev with EvProgress _ _ => false | EvDone _ | EvError _ => true end.

(** The last call of [onProgress], as [scan.tree] and [scan.progress]
    keep it. *)
Definition latest (pub : list (TreeNode * ScanProgress))
  : option TreeNode * option ScanProgress :=
  match pub with
  | [] => (None, None)
  | (t, pr) :: _ => (Some t, Some pr)
  end.

(** The object [scan] of a call of [startBackgroundScan] against the walk
    that the call started. *)
Definition mirrors (e : Entry) : Prop :=
  match settled (walker e) with
  | Some (Resolved final) =>
      tree (scan e) = Some final ∧ progress (scan e) = None ∧
      done (scan e) = true ∧ error (scan e) = None
  | Some (Failed message) =>
      (tree (scan e), progress (scan e)) = latest (published (walker e)) ∧
      done (scan e) = true ∧ error (scan e) = Some message
  | Some AbortError | None =>
      (tree (scan e), progress (scan e)) = latest (published (walker e)) ∧
      done (scan e) = false ∧ error (scan e) = None
  end.

(** The walk of [e] is behind the event [ev]. *)
Definition sent_by (e : Entry) (ev : ScanEvent) : Prop :=
  match ev with
  | EvProgress t p => ∃ pr, p = Some pr ∧ (t, pr) ∈ published (walker e)
  | EvDone t => settled (walker e) = Some (Resolved t)
  | EvError message => settled (walker e) = Some (Failed message)
  end.

(** A walk goes on: its calls of [onProgress] are kept, and so is the way
    it has settled. *)
Definition extends (w w' : Scan) : Prop :=
  (∃ more, published w' = more ++ published w) ∧
  (∀ x, settled w = Some x → settled w' = Some x).

Definition entries_ok (fs : FileSystem) (s : State) : Prop :=
  ∀ j e, entries s !! j = Some e →
    mirrors e ∧ scan_inv fs MAX_DEPTH (walker e).

Definition provenance (s : State) : Prop :=
  ∀ l o ev, Delivered l o ev ∈ trace s →
    ∃ e, entries s !! o = Some e ∧ sent_by e ev.

(** After its [done] or [error] a listener gets nothing. *)
Definition streams_end (tr : list TraceItem) : Prop :=
  ∀ newer l o ev older,
    tr = newer ++ Delivered l o ev :: older → terminal ev = true →
    ∀ o' ev', Delivered l o' ev' ∉ newer.

Record listeners_ok (s : State) : Prop := mkListenersOk {
  lis_fresh : ∀ l, l ∈ sseListeners s → (l < nextListener s)%nat;
  lis_nodup : NoDup (sseListeners s);
  lis_known :
    ∀ l o ev, Delivered l o ev ∈ trace s → (l < nextListener s)%nat;
  lis_closed :
    ∀ l o ev, Delivered l o ev ∈ trace s → terminal ev = true →
      l ∉ sseListeners s;
  lis_end : streams_end (trace s)
}.

(** What a tree that reaches a client looks like. *)
Definition well_formed (t : TreeNode) : Prop :=
  tree_all sum_ok 0 t ∧ tree_all children_sorted 0 t.

End CoordinatorView.

(** ** No waiter is forgotten *)
Module LimiterLive.
Import Limiter.

Record live (io : Io) : Prop := mkLive {
  (* a call that waits has its resolver in [queue] *)
  live_waiting :
    ∀ t c, calls io !! t = Some (mkCall c Waiting) → t ∈ queue (limiter io);
  (* nobody waits while a slot is free *)
  live_full : queue (limiter io) ≠ [] → active (limiter io) = MAX_CONCURRENT
}.

End LimiterLive.

(** ** The system calls that a walk has outstanding *)
Fixpoint in_flight (n : WorkNode) : nat :=
  match n with
  | mkWork _ _ _ _ _ ch _ st =>
      (match st with
       | AwaitSize => 1        (* [du] *)
       | AwaitEntries => 1     (* [readdir] *)
       | AwaitAll stats => length stats    (* [stat] *)
       | Returned => 0
       end
       + match ch with
         | None => 0
         | Some cs => sum_list_with in_flight cs
         end)%nat
  end.

(** The nodes of a working tree. *)
Fixpoint count_nodes (n : WorkNode) : nat :=
  match n with
  | mkWork _ _ _ _ _ ch _ _ =>
      S match ch with
        | None => 0
        | Some cs => sum_list_with count_nodes cs
        end
  end.

(** * The client: what it does to a tree

    [src/lib/treeUtils.ts] and [src/hooks/useTreemapLayout.ts]. *)

(** ** [removeNode] (treeUtils.ts, lines 8-27) *)

(** [pruneRecursive]; the inner loop is the [for] of lines 20-23, whose
    [continue] skips the children at [targetPath]. *)
Fixpoint pruneRecursive (node : TreeNode) (targetPath : string) : TreeNode :=
  match node with
  | mkNode n p s ty e ch tr =>
      match ch with
      | None => node
      | Some cs =>
          let newChildren :=
            (fix loop (l : list TreeNode) : list TreeNode :=
               match l with
               | [] => []
               | child :: l' =>
                   if bool_decide (path child = targetPath) then loop l'
                   else pruneRecursive child targetPath :: loop l'
               end) cs in
          let newSize := sum_sizes newChildren in
          mkNode n p newSize ty e (Some newChildren) tr
      end
  end.

Definition removeNode (root : TreeNode) (targetPath : string)
  : option TreeNode :=
  if bool_decide (path root = targetPath) then None
  else Some (pruneRecursive root targetPath).

(** The sizes of the topmost nodes at [targetPath] below [node]: what
    [pruneRecursive] takes out. *)
Fixpoint removed_bytes (targetPath : string) (node : TreeNode) : Z :=
  match node with
  | mkNode _ _ _ _ _ ch _ =>
      match ch with
      | None => 0
      | Some cs =>
          sumZ (λ c, if bool_decide (path c = targetPath) then size c
                     else removed_bytes targetPath c) cs
      end
  end.

(** No node at [targetPath]. *)
Definition not_at (targetPath : string) (_ : nat) (m : TreeNode) : Prop :=
  path m ≠ targetPath.

(** ** [pruneTree] and [countLeaves] (useTreemapLayout.ts, lines 8-65) *)

Definition MAX_RECTS : Z := 500.

Fixpoint countLeaves (node : TreeNode) : Z :=
  match node with
  | mkNode _ _ _ _ _ ch _ =>
      match ch with
      | None => 1
      | Some [] => 1
      | Some cs => foldl (λ sum c, sum + countLeaves c) 0 cs
      end
  end.

(** The loop of lines 46-57, [leafCount] being its counter; [prune] is the
    recursive call. *)
Fixpoint prune_loop (prune : TreeNode → Z → TreeNode) (maxNodes : Z)
    (l : list TreeNode) (leafCount : Z) : list TreeNode :=
  match l with
  | [] => []
  | child :: l' =>
      if maxNodes <=? leafCount then []     (* [break] *)
      else
        match type child with
        | file => child :: prune_loop prune maxNodes l' (leafCount + 1)
        | directory =>
            let pruned := prune child (maxNodes - leafCount) in
            let leaves := countLeaves pruned in
            pruned :: prune_loop prune maxNodes l' (leafCount + leaves)
        end
  end.

Fixpoint pruneTree (node : TreeNode) (maxNodes : Z) : TreeNode :=
  match node with
  | mkNode n p s ty e ch tr =>
      match ch with
      | None => node
      | Some [] => node
      | Some cs =>
          let children :=
            (fix loop (l : list TreeNode) (leafCount : Z) : list TreeNode :=
               match l with
               | [] => []
               | child :: l' =>
                   if maxNodes <=? leafCount then []
                   else
                     match type child with
                     | file => child :: loop l' (leafCount + 1)
                     | directory =>
                         let pruned := pruneTree child (maxNodes - leafCount) in
                         let leaves := countLeaves pruned in
                         pruned :: loop l' (leafCount + leaves)
                     end
               end) cs 0 in
          mkNode n p s ty e (Some children) tr
      end
  end.

(** A file node has no children: true of the trees of the scanner. *)
Definition file_is_leaf (_ : nat) (m : TreeNode) : Prop :=
  type m = file → children m = None.

(** The tree of the fixture [fs_x], as a client gets it. *)
Definition tree_x : TreeNode :=
  let txt nm p sz := mkNode nm p sz file (Some ".txt") None false in
  mkNode "x" "/tmp/x" 35 directory None
    (Some [mkNode "b" "/tmp/x/b" 25 directory None
             (Some [txt "c.txt" "/tmp/x/b/c.txt" 20;
                    txt "d.txt" "/tmp/x/b/d.txt" 5]) false;
           txt "a.txt" "/tmp/x/a.txt" 10]) false.

(** * The event stream, from the server to the client

    [server.ts], lines 147-153 and 183, writes the frames;
    [src/hooks/useScan.ts], lines 32-49, reads them.  A chunk is the text
    that [decoder.decode(value, { stream: true })] gives for one read. *)
Module EventStream.

(** The character of ["\n"]. *)
Definition nl : ascii := ascii_of_nat 10.

(** The two characters of ["\n\n"]. *)
Definition blank : string := String nl (String nl EmptyString).

(** server.ts, line 150; [json] is [JSON.stringify(data)]. *)
Definition sse_frame (json : string) : string :=
  "data: " +:+ json +:+ blank.

(** server.ts, line 183. *)
Definition keepalive_frame : string := ": keepalive" +:+ blank.

(** [c] in front of the first part. *)
Definition cons_head (c : ascii) (parts : list string) : list string :=
  match parts with
  | p :: ps => String c p :: ps
  | [] => [String c EmptyString]
  end.

(** [s.split("\n\n")]: the parts between the occurrences of the separator,
    found from the left and without overlap. *)
Fixpoint split_blank (s : string) : list string :=
  match s with
  | EmptyString => [EmptyString]
  | String c s' =>
      match s' with
      | EmptyString => [String c EmptyString]
      | String c' s'' =>
          if bool_decide (c = nl) && bool_decide (c' = nl)
          then EmptyString :: split_blank s''
          else cons_head c (split_blank s')
      end
  end.

(** [s.split("\n")] *)
Fixpoint split_lines (s : string) : list string :=
  match s with
  | EmptyString => [EmptyString]
  | String c s' =>
      if bool_decide (c = nl) then EmptyString :: split_lines s'
      else cons_head c (split_lines s')
  end.

(** [s.slice(n)] *)
Fixpoint slice (n : nat) (s : string) : string :=
  match n, s with
  | S n', String _ s' => slice n' s'
  | _, _ => s
  end.

(** useScan.ts, lines 45-49: the text that goes to [JSON.parse], when the
    part has a data line. *)
Definition data_of (part : string) : option string :=
  slice 6 <$> List.find (String.prefix "data: ") (split_lines part).

(** Lines 40-49 for one chunk: the new buffer, and the texts that go to
    [JSON.parse], in their order. *)
Definition feed (buffer chunk : string) : string * list string :=
  let parts := split_blank (buffer +:+ chunk) in
  (default EmptyString (last parts),             (* [parts.pop()] *)
   omap data_of (removelast parts)).

(** The loop of lines 36-70, without what it does with the messages. *)
Definition read_stream (chunks : list string) : string * list string :=
  foldl (λ st chunk, let r := feed st.1 chunk in (r.1, st.2 ++ r.2))
        (EmptyString, []) chunks.

(** What the server writes: [Some json] is an event, [None] a
    keepalive. *)
Definition encode (frame : option string) : string :=
  match frame with
  | Some json => sse_frame json
  | None => keepalive_frame
  end.

(** A frame without the blank line that ends it. *)
Definition body (frame : option string) : string :=
  match frame with
  | Some json => "data: " +:+ json
  | None => ": keepalive"
  end.

Definition concat_all (l : list string) : string :=
  foldr String.append EmptyString l.

(** [JSON.stringify] writes no raw line feed. *)
Fixpoint no_newline (s : string) : bool :=
  match s with
  | EmptyString => true
  | String c s' => negb (bool_decide (c = nl)) && no_newline s'
  end.

End EventStream.

(** * The state of the client ([src/hooks/useScan.ts], lines 4-82) *)
Module UseScan.

Record ScanState := mkScanState {
  data : option TreeNode;
  loading : bool;
  scanning : bool;
  error : option string;
  scanProgress : option ScanProgress    (* [None]: [null] or [undefined] *)
}.

(** What [JSON.parse(dataLine.slice(6))] gives, by its [type]. *)
Inductive Msg :=
| MsgProgress (tree : TreeNode) (progress : option ScanProgress)
| MsgDone (tree : TreeNode)
| MsgError (message : string)
| MsgOther.                              (* any other [type]: ignored *)

(** One data line: parsed, or on which [JSON.parse] throws. *)
Inductive Item :=
| Parsed (msg : Msg)
| Malformed (message : string).

(** How [fetch] answers. *)
Inductive Response :=
| FetchFailed (message : string)         (* [fetch] rejects *)
| NotOk (message : string)               (* line 28: [body.error] or the
                                            status *)
| Stream (items : list Item).            (* the data lines of the stream *)

(** Line 22. *)
Definition initial : ScanState := mkScanState None true true None None.

(** Lines 52-57. *)
Definition on_progress (tree : TreeNode) (progress : option ScanProgress)
    (prev : ScanState) : ScanState :=
  mkScanState (Some tree) false (scanning prev) (error prev)
              (match progress with
               | Some p => Some p
               | None => scanProgress prev
               end).

(** Lines 59-65. *)
Definition on_done (tree : TreeNode) : ScanState :=
  mkScanState (Some tree) false false None None.

(** Lines 74-81: the [catch]. *)
Definition on_throw (message : string) (prev : ScanState) : ScanState :=
  mkScanState (data prev) false false (Some message) None.

(** Line 73: the stream has ended. *)
Definition on_close (prev : ScanState) : ScanState :=
  mkScanState (data prev) false false (error prev) (scanProgress prev).

(** Lines 36-81: the messages in their order, up to the first one that
    throws. *)
Fixpoint handle (items : list Item) (st : ScanState) : ScanState :=
  match items with
  | [] => on_close st
  | Parsed (MsgProgress tree progress) :: rest =>
      handle rest (on_progress tree progress st)
  | Parsed (MsgDone tree) :: rest => handle rest (on_done tree)
  | Parsed (MsgError message) :: _ => on_throw message st
  | Parsed MsgOther :: rest => handle rest st
  | Malformed message :: _ => on_throw message st
  end.

(** [scan(path)], by the answer of the server. *)
Definition scan (r : Response) : ScanState :=
  match r with
  | FetchFailed message | NotOk message => on_throw message initial
  | Stream items => handle items initial
  end.

(** The events of one stream of the server, as the client parses them. *)
Definition of_event (ev : Coordinator.ScanEvent) : Item :=
  Parsed match ev with
         | Coordinator.EvProgress t p => MsgProgress t p
         | Coordinator.EvDone t => MsgDone t
         | Coordinator.EvError message => MsgError message
         end.

(** The events that [send] of the listener [l] has written, the first one
    first. *)
Definition stream_of (l : nat) (tr : list Coordinator.TraceItem)
  : list Coordinator.ScanEvent :=
  reverse (omap (λ item, match item with
                         | Coordinator.Delivered l' _ ev =>
                             if decide (l' = l) then Some ev else None
                         | _ => None
                         end) tr).

(** The state of the client behind the listener [l], once its stream has
    ended. *)
Definition client_state (l : nat) (s : Coordinator.State) : ScanState :=
  scan (Stream (of_event <$> stream_of l (Coordinator.trace s))).

(** The tree of the last progress event. *)
Definition last_tree (evs : list Coordinator.ScanEvent) : option TreeNode :=
  foldl (λ acc ev, match ev with
                   | Coordinator.EvProgress t _ => Some t
                   | _ => acc
                   end) None evs.

(** The progress events of a stream, one after the other. *)
Definition after_progress (st : ScanState)
    (evs : list Coordinator.ScanEvent) : ScanState :=
  foldl (λ st ev, match ev with
                  | Coordinator.EvProgress t p => on_progress t p st
                  | _ => st
                  end) st evs.

End UseScan.

(** * The zoom path of the treemap ([components/Treemap.tsx]) *)
Module Zoom.

(** Line 150: the test of [find]. *)
Definition leads_to (targetPath : string) (c : TreeNode) : bool :=
  bool_decide (path c = targetPath)
  || String.prefix (path c +:+ "/") targetPath.

(** Lines 147-156: what the loop pushes, [current] being the node it is
    at. *)
Fixpoint zoom_from (current : TreeNode) (targetPath : string)
  : list TreeNode :=
  match current with
  | mkNode _ p _ _ _ ch _ =>
      if bool_decide (p = targetPath) then []
      else
        match ch with
        | None => []
        | Some cs =>
            (fix find (l : list TreeNode) : list TreeNode :=
               match l with
               | [] => []
               | c :: l' =>
                   if leads_to targetPath c
                   then c :: (if bool_decide (path c = targetPath) then []
                              else zoom_from c targetPath)
                   else find l'
               end) cs
        end
  end.

(** Lines 144-158. *)
Definition buildZoomPath (root : TreeNode) (targetPath : string)
  : list TreeNode :=
  root :: zoom_from root targetPath.

(** The search of [zoom_from], with what follows the match as [k]. *)
Fixpoint zoom_find (k : TreeNode → list TreeNode) (targetPath : string)
    (l : list TreeNode) : list TreeNode :=
  match l with
  | [] => []
  | c :: l' =>
      if leads_to targetPath c
      then c :: (if bool_decide (path c = targetPath) then [] else k c)
      else zoom_find k targetPath l'
  end.

(** Lines 183-190: the loop over [prev], from [prev[i]] on. *)
Fixpoint rebuild_from (current : TreeNode) (prev : list TreeNode)
  : list TreeNode :=
  match prev with
  | [] => []
  | p :: prev' =>
      match children current with
      | None => []
      | Some cs =>
          match List.find (λ c, bool_decide (path c = path p)) cs with
          | None => []
          | Some found => found :: rebuild_from found prev'
          end
      end
  end.

(** Lines 177-192: the new zoom path when [data] or [scanning] changes. *)
Definition rebuildZoomPath (data : TreeNode) (scanning : bool)
    (prev : list TreeNode) : list TreeNode :=
  if (length prev <=? 1)%nat then [data]
  else if scanning then prev
  else data :: rebuild_from data (tail prev).

(** The nodes from [t] down through the children of the given indices. *)
Fixpoint along (ix : list nat) (t : TreeNode) : list TreeNode :=
  t :: match ix with
       | [] => []
       | i :: ix' =>
           match children t with
           | Some cs =>
               match cs !! i with Some c => along ix' c | None => [] end
           | None => []
           end
       end.

Fixpoint slash_free (s : string) : bool :=
  match s with
  | EmptyString => true
  | String c s' => negb (bool_decide (c = "/"%char)) && slash_free s'
  end.

(** [join(dirPath, entry.name)] of the scanner, for a resolved [dirPath]
    and the name of an entry. *)
Definition child_path (dir entryName : string) : string :=
  if bool_decide (dir = "/") then "/" +:+ entryName
  else dir +:+ "/" +:+ entryName.

(** The children of a node have different paths. *)
Definition distinct_children (_ : nat) (n : TreeNode) : Prop :=
  ∀ cs, children n = Some cs → NoDup (path <$> cs).

(** The path of a child is the path of its parent joined with a name. *)
Definition joined_paths (_ : nat) (n : TreeNode) : Prop :=
  ∀ cs c, children n = Some cs → c ∈ cs →
    ∃ entryName, entryName ≠ EmptyString ∧ slash_free entryName = true ∧
                 path c = child_path (path n) entryName.

(** The paths of the nodes of [l] that come before the first one at
    [targetPath]. *)
Fixpoint paths_before (targetPath : string) (l : list TreeNode)
  : list string :=
  match l with
  | [] => []
  | n :: l' =>
      if bool_decide (path n = targetPath) then []
      else path n :: paths_before targetPath l'
  end.

End Zoom.

(** * The state [zoomPath] of the treemap ([components/Treemap.tsx]) *)
Module ZoomView.
Import Zoom.

(** The props [data] and [scanning] and the state [zoomPath]. *)
Record View := mkView {
  data : TreeNode;
  scanning : bool;
  zoomPath : list TreeNode
}.

(** Line 172, and the first run of the effect of lines 176-193. *)
Definition mount (data : TreeNode) (scanning : bool) : View :=
  mkView data scanning (rebuildZoomPath data scanning [data]).

Inductive Event :=
| Drill (targetPath : string)       (* line 242 *)
| Crumb (index : nat)               (* lines 248-250 *)
| Escape                            (* lines 297-304 *)
| Props (data : TreeNode) (scanning : bool).
                                    (* new props: the effect runs *)

Definition handle (v : View) (ev : Event) : View :=
  match ev with
  | Drill targetPath =>
      mkView (data v) (scanning v) (buildZoomPath (data v) targetPath)
  | Crumb index =>
      mkView (data v) (scanning v) (take (S index) (zoomPath v))
  | Escape =>
      if (1 <? length (zoomPath v))%nat
      then mkView (data v) (scanning v) (removelast (zoomPath v))
      else v
  | Props data' scanning' =>
      mkView data' scanning' (rebuildZoomPath data' scanning' (zoomPath v))
  end.

(** The component after its mount and the given events. *)
Definition run (data : TreeNode) (scanning : bool) (evs : list Event)
  : View :=
  foldl handle (mount data scanning) evs.

(** Line 208: [zoomPath[zoomPath.length - 1]]. *)
Definition currentNode (v : View) : option TreeNode := last (zoomPath v).

(** [l] is a path of the tree [r], from its root down. *)
Definition path_of (r : TreeNode) (l : list TreeNode) : Prop :=
  ∃ ix, l = along ix r ∧ is_Some (descend ix r).

(** What every state of the component keeps. *)
Definition zoom_inv (v : View) : Prop :=
  (∃ r, path_of r (zoomPath v)) ∧
  (scanning v = false → path_of (data v) (zoomPath v)).

End ZoomView.

(** * Properties of the pure part *)

(** ** Sorting and summing *)

Lemma sort_insert_perm {A} (cmp : A → A → Z) x l :
  sort_insert cmp x l ≡ₚ x :: l.
Proof.
  induction l as [|y l IH]; simpl; [done|].
  destruct (cmp x y <=? 0); [done|].
  rewrite IH. apply perm_swap.
Qed.

Lemma js_sort_perm {A} (cmp : A → A → Z) l : js_sort cmp l ≡ₚ l.
Proof.
  induction l as [|x l IH]; simpl; [done|].
  rewrite sort_insert_perm. by f_equiv.
Qed.

Lemma js_sort_length {A} (cmp : A → A → Z) l :
  length (js_sort cmp l) = length l.
Proof. by rewrite js_sort_perm. Qed.

Lemma js_sort_nil_inv {A} (cmp : A → A → Z) l : js_sort cmp l = [] → l = [].
Proof.
  intros H. apply Permutation_nil_r. rewrite <- H. symmetry. apply js_sort_perm.
Qed.

Lemma sort_insert_sorted x l :
  sorted_desc l → sorted_desc (sort_insert by_size_desc x l).
Proof.
  unfold sorted_desc. induction 1 as [|y l Hl IH Hy]; simpl.
  - repeat constructor.
  - unfold by_size_desc at 1. destruct (Z.leb_spec (size y - size x) 0).
    + constructor; [by constructor|].
      constructor; [lia|].
      eapply Forall_impl; [exact Hy|]. simpl. intros; lia.
    + constructor; [exact IH|].
      rewrite sort_insert_perm. constructor; [lia | exact Hy].
Qed.

Lemma js_sort_sorted l : sorted_desc (js_sort by_size_desc l).
Proof.
  induction l as [|x l IH]; simpl; [constructor|].
  by apply sort_insert_sorted.
Qed.

Lemma foldl_sizes acc cs :
  foldl (λ s c, s + size c) acc cs = acc + total cs.
Proof.
  revert acc. induction cs as [|c cs IH]; intros acc; simpl; [lia|].
  rewrite IH. lia.
Qed.

Lemma sum_sizes_total cs : sum_sizes cs = total cs.
Proof. unfold sum_sizes. rewrite foldl_sizes. lia. Qed.

Lemma total_app l1 l2 : total (l1 ++ l2) = total l1 + total l2.
Proof. induction l1 as [|c l1 IH]; simpl; lia. Qed.

Lemma total_perm l1 l2 : l1 ≡ₚ l2 → total l1 = total l2.
Proof. induction 1; simpl; lia. Qed.

Lemma total_map_same (f : TreeNode → TreeNode) l :
  Forall (λ c, size (f c) = size c) l → total (f <$> l) = total l.
Proof.
  induction 1 as [|c l Hc _ IH]; csimpl; [done|]. by rewrite Hc, IH.
Qed.

Lemma sum_sizes_perm l1 l2 : l1 ≡ₚ l2 → sum_sizes l1 = sum_sizes l2.
Proof. rewrite !sum_sizes_total. apply total_perm. Qed.

#[global] Arguments js_sort : simpl never.
#[global] Arguments sum_sizes : simpl never.
#[global] Arguments limit_children : simpl never.

(** ** The nodes of a tree *)

Lemma subnodes_here d t : (d, t) ∈ subnodes d t.
Proof. destruct t; simpl. apply list_elem_of_here. Qed.

Lemma subnodes_child d t cs c dm m :
  children t = Some cs → c ∈ cs → (dm, m) ∈ subnodes (S d) c →
  (dm, m) ∈ subnodes d t.
Proof.
  destruct t as [n p s ty e ch tr]; simpl. intros -> Hc Hm.
  apply list_elem_of_further, list_elem_of_bind. eauto.
Qed.

Lemma subnodes_inv d t dm m :
  (dm, m) ∈ subnodes d t →
  (dm = d ∧ m = t) ∨
  ∃ cs c, children t = Some cs ∧ c ∈ cs ∧ (dm, m) ∈ subnodes (S d) c.
Proof.
  destruct t as [n p s ty e ch tr]; simpl. intros H.
  apply elem_of_cons in H as [H|H]; [left; by inversion H|right].
  destruct ch as [cs|]; [|by apply elem_of_nil in H].
  apply list_elem_of_bind in H as (c & Hm & Hc). eauto.
Qed.

Lemma descend_subnodes ix t d m :
  descend ix t = Some m → ((d + length ix)%nat, m) ∈ subnodes d t.
Proof.
  revert t d. induction ix as [|i ix IH]; intros t d; simpl.
  - intros [= ->]. rewrite Nat.add_0_r. apply subnodes_here.
  - destruct (children t) as [cs|] eqn:Hcs; [|done].
    destruct (cs !! i) as [c|] eqn:Hc; [|done]. intros Hm.
    eapply subnodes_child; [done|by eapply list_elem_of_lookup_2|].
    replace (d + S (length ix))%nat with (S d + length ix)%nat by lia.
    by apply IH.
Qed.

Lemma tree_all_intro (P : nat → TreeNode → Prop) d t :
  P d t →
  (∀ cs, children t = Some cs → Forall (tree_all P (S d)) cs) →
  tree_all P d t.
Proof.
  intros Ht Hcs dm m [[-> ->]|(cs & c & Hch & Hc & Hm)]%subnodes_inv; [done|].
  specialize (Hcs cs Hch). rewrite Forall_forall in Hcs. by eapply Hcs.
Qed.

Lemma tree_all_here (P : nat → TreeNode → Prop) d t : tree_all P d t → P d t.
Proof. intros H. apply H, subnodes_here. Qed.

Lemma tree_all_children (P : nat → TreeNode → Prop) d t cs :
  tree_all P d t → children t = Some cs → Forall (tree_all P (S d)) cs.
Proof.
  intros H Hch. apply Forall_forall. intros c Hc dm m Hm.
  eapply H, subnodes_child; eauto.
Qed.

(** ** What [recalcSizes] and [applyChildLimits] do to one node *)

Lemma recalcSizes_children t :
  children (recalcSizes t) =
  (λ cs, js_sort by_size_desc (recalcSizes <$> cs)) <$> children t.
Proof. by destruct t as [n p s ty e [[|c cs]|] tr]. Qed.

Lemma recalcSizes_size t :
  size (recalcSizes t) =
  match children t with
  | Some (c :: cs) =>
      sum_sizes (js_sort by_size_desc (recalcSizes <$> c :: cs))
  | _ => size t
  end.
Proof. by destruct t as [n p s ty e [[|c cs]|] tr]. Qed.

Lemma recalcSizes_path t : path (recalcSizes t) = path t.
Proof. by destruct t as [n p s ty e [[|c cs]|] tr]. Qed.

Lemma limit_children_nil p d : limit_children p d [] = [].
Proof.
  unfold limit_children. rewrite andb_comm. simpl. done.
Qed.

Lemma applyChildLimits_children t d :
  children (applyChildLimits t d) =
  (λ cs, limit_children (path t) d ((λ c, applyChildLimits c (S d)) <$> cs))
    <$> children t.
Proof.
  destruct t as [n p s ty e [[|c cs]|] tr]; simpl; try done.
  by rewrite limit_children_nil.
Qed.

Lemma applyChildLimits_size t d : size (applyChildLimits t d) = size t.
Proof. by destruct t as [n p s ty e [[|c cs]|] tr]. Qed.

Lemma applyChildLimits_path t d : path (applyChildLimits t d) = path t.
Proof. by destruct t as [n p s ty e [[|c cs]|] tr]. Qed.

(** The capped list is the list itself, or its first [MAX_CHILDREN]
    elements followed by at most one synthetic node. *)
Lemma limit_children_cases p d cs :
  (limit_children p d cs = cs ∧
   ((d < CHILD_LIMIT_DEPTH)%nat ∨ (length cs ≤ MAX_CHILDREN)%nat)) ∨
  ((CHILD_LIMIT_DEPTH ≤ d)%nat ∧ (MAX_CHILDREN < length cs)%nat ∧
   limit_children p d cs =
     take MAX_CHILDREN cs ++
     (if 0 <? sum_sizes (drop MAX_CHILDREN cs)
      then [other_node p (length cs - MAX_CHILDREN)
                       (sum_sizes (drop MAX_CHILDREN cs))]
      else [])).
Proof.
  unfold limit_children.
  destruct (decide (CHILD_LIMIT_DEPTH ≤ d)%nat) as [Hd|Hd];
    [|left; rewrite (bool_decide_eq_false_2 _ Hd); simpl; split; [done|lia]].
  destruct (decide (MAX_CHILDREN < length cs)%nat) as [Hl|Hl];
    [|left; rewrite (bool_decide_eq_false_2 _ Hl), andb_false_r;
      split; [done|lia]].
  right. rewrite (bool_decide_eq_true_2 _ Hd), (bool_decide_eq_true_2 _ Hl).
  simpl. split_and!; [done..|].
  destruct (0 <? _); [done|by rewrite app_nil_r].
Qed.

Lemma limit_children_elem p d cs c :
  c ∈ limit_children p d cs →
  c ∈ cs ∨ ∃ k s, c = other_node p k s.
Proof.
  destruct (limit_children_cases p d cs) as [[-> _]|(_ & _ & ->)]; [by left|].
  intros [H|H]%elem_of_app.
  - left. by eapply subseteq_take.
  - right. destruct (0 <? _); [|by apply elem_of_nil in H].
    apply list_elem_of_singleton in H. eauto.
Qed.

Lemma limit_children_nonempty p d cs : cs ≠ [] → limit_children p d cs ≠ [].
Proof.
  intros Hne. destruct (limit_children_cases p d cs) as [[-> _]|(_ & Hl & ->)];
    [done|].
  destruct cs as [|c cs]; [done|]. unfold MAX_CHILDREN. simpl. done.
Qed.

(** ** From one node to the whole tree *)

(** A property [Q] of every node that [recalcSizes] returns follows from
    what the pass does at one node, given [P] on the tree it starts from. *)
Lemma tree_all_recalcSizes (P Q : nat → TreeNode → Prop) :
  (∀ d t, tree_all P d t → Q d (recalcSizes t)) →
  ∀ t d, tree_all P d t → tree_all Q d (recalcSizes t).
Proof.
  intros Hnode t.
  induction t as [n p s ty e tr|n p s ty e cs tr IH] using TreeNode_forall_ind;
    intros d Ht; apply tree_all_intro; try by apply Hnode.
  - by rewrite recalcSizes_children.
  - intros cs'. rewrite recalcSizes_children. simpl. intros [= <-].
    rewrite js_sort_perm, Forall_fmap.
    pose proof (tree_all_children P d _ cs Ht eq_refl) as Hcs.
    rewrite Forall_forall in IH, Hcs |- *. intros c Hc. simpl.
    by apply IH, Hcs.
Qed.

Lemma Forall_limit_children (Q : TreeNode → Prop) p d cs :
  Forall Q cs → (∀ k s, Q (other_node p k s)) →
  Forall Q (limit_children p d cs).
Proof.
  intros Hcs Hother. apply Forall_forall. intros c Hc.
  apply limit_children_elem in Hc as [Hc|(k & s & ->)]; [|done].
  rewrite Forall_forall in Hcs. by apply Hcs.
Qed.

Lemma tree_all_leaf (Q : nat → TreeNode → Prop) d t :
  children t = None → Q d t → tree_all Q d t.
Proof.
  intros Hch HQ. apply tree_all_intro; [done|]. intros cs. by rewrite Hch.
Qed.

Lemma tree_all_applyChildLimits (P Q : nat → TreeNode → Prop) :
  (∀ d t, tree_all P d t → Q d (applyChildLimits t d)) →
  (∀ d p k s, Q d (other_node p k s)) →
  ∀ t d, tree_all P d t → tree_all Q d (applyChildLimits t d).
Proof.
  intros Hnode Hother t.
  induction t as [n p s ty e tr|n p s ty e cs tr IH] using TreeNode_forall_ind;
    intros d Ht; apply tree_all_intro; try by apply Hnode.
  - by rewrite applyChildLimits_children.
  - intros cs'. rewrite applyChildLimits_children. simpl. intros [= <-].
    apply Forall_limit_children; [|intros; by apply tree_all_leaf].
    rewrite Forall_fmap.
    pose proof (tree_all_children P d _ cs Ht eq_refl) as Hcs.
    rewrite Forall_forall in IH, Hcs |- *. intros c Hc. simpl.
    by apply IH, Hcs.
Qed.

(** ** Sizes and order in a snapshot *)

Lemma recalcSizes_empty_zero t d :
  tree_all empty_zero d t → tree_all empty_zero d (recalcSizes t).
Proof.
  apply tree_all_recalcSizes. clear. intros d t Ht.
  unfold empty_zero. rewrite recalcSizes_children, recalcSizes_size.
  destruct (children t) as [[|c cs]|] eqn:Hch; simpl; try done.
  - intros _. by apply (tree_all_here _ _ _ Ht).
  - intros [= H%js_sort_nil_inv]. done.
Qed.

Lemma applyChildLimits_empty_zero t d :
  tree_all empty_zero d t → tree_all empty_zero d (applyChildLimits t d).
Proof.
  apply tree_all_applyChildLimits; [|done]. clear. intros d t Ht.
  unfold empty_zero.
  rewrite applyChildLimits_children, applyChildLimits_size.
  destruct (children t) as [[|c cs]|] eqn:Hch; simpl; try done.
  - intros _. by apply (tree_all_here _ _ _ Ht).
  - intros [= H]. by apply limit_children_nonempty in H.
Qed.

Lemma recalcSizes_sum_ok t d :
  tree_all empty_zero d t → tree_all sum_ok d (recalcSizes t).
Proof.
  apply tree_all_recalcSizes. clear. intros d t Ht cs'.
  rewrite recalcSizes_children, recalcSizes_size.
  destruct (children t) as [[|c cs]|] eqn:Hch; simpl; try done.
  - intros [= <-]. by apply (tree_all_here _ _ _ Ht).
  - intros [= <-]. by rewrite sum_sizes_total.
Qed.

Lemma recalcSizes_sorted t d : tree_all children_sorted d (recalcSizes t).
Proof.
  apply (tree_all_recalcSizes (λ _ _, True)); [|done]. clear.
  intros d t _ cs'. rewrite recalcSizes_children.
  destruct (children t) as [cs|]; simpl; [|done].
  intros [= <-]. apply js_sort_sorted.
Qed.

Lemma snapshot_sum_ok root :
  tree_all empty_zero 0 root → tree_all sum_ok 0 (snapshot root).
Proof.
  intros H. unfold snapshot.
  by apply recalcSizes_sum_ok, applyChildLimits_empty_zero,
    recalcSizes_empty_zero.
Qed.

Lemma snapshot_sorted root : tree_all children_sorted 0 (snapshot root).
Proof. apply recalcSizes_sorted. Qed.

(** ** The cap on the number of children *)


Lemma recalcSizes_other_node p k s :
  recalcSizes (other_node p k s) = other_node p k s.
Proof. done. Qed.





(** * The streaming walk *)

Section StreamingFacts.
Variable fs : FileSystem.
Variable maxDepth : nat.

#[local] Abbreviation ok := (ok fs maxDepth).
#[local] Abbreviation cost := (cost fs maxDepth).
#[local] Abbreviation listed := (listed fs).

Lemma sum_list_with_middle {A} (f : A → nat) before c after :
  sum_list_with f (before ++ c :: after)
  = (sum_list_with f before + f c + sum_list_with f after)%nat.
Proof. rewrite sum_list_with_app. simpl. lia. Qed.

Lemma forallb_Forall {A} (f : A → bool) l :
  forallb f l = true ↔ Forall (λ x, f x = true) l.
Proof.
  induction l as [|x l IH]; simpl; [by split|].
  rewrite andb_true_iff, Forall_cons, IH. done.
Qed.

Lemma walk_cost_pos fuel p : (0 < walk_cost fs fuel p)%nat.
Proof. destruct fuel; simpl; [lia|]. destruct (readdir fs p); lia. Qed.

(** A placeholder on which [fillNode] has just started. *)
Lemma spawn_dir_Some d sh p entry c :
  aborted sh = false →
  spawn_dir fs maxDepth d sh p entry = Some c →
  isSymbolicLink entry = false ∧ isDirectory entry = true ∧
  c = mkWork (ent_name entry) (join fs p (ent_name entry)) 0 directory None
             None (bool_decide (maxDepth ≤ S d)%nat)
             (if bool_decide (maxDepth ≤ S d)%nat then AwaitSize
              else AwaitEntries).
Proof.
  unfold spawn_dir, start_fill. intros ->.
  destruct (isSymbolicLink entry), (isDirectory entry); try done.
  intros [= <-]. split_and!; [done..|]. by case_bool_decide.
Qed.

Lemma spawned_ok d sh p entries :
  aborted sh = false → (d < maxDepth)%nat →
  readdir fs p = Some entries →
  let dirs := omap (spawn_dir fs maxDepth d sh p) entries in
  Forall (ok false (S d)) dirs ∧
  Forall (λ c, listed p (w_path c)) dirs.
Proof.
  intros Hab Hd Hls dirs. split; apply Forall_forall; intros c Hc;
    apply list_elem_of_omap in Hc as (entry & Hentry & Hc);
    apply spawn_dir_Some in Hc as (Hsym & Hdir & ->); try done.
  - case_bool_decide; constructor; lia.
  - exists entries, entry. done.
Qed.

Lemma spawned_stats_listed sh p entries :
  readdir fs p = Some entries →
  Forall (λ e, listed p (join fs p (ent_name e)))
         (filter (λ e, spawn_stat sh e = true) entries).
Proof.
  intros Hls. apply Forall_forall. intros e [He Hin]%list_elem_of_filter.
  exists entries, e. split_and!; try done.
  unfold spawn_stat in He. by destruct (isSymbolicLink e), (aborted sh).
Qed.

(** The counters and the bound over the placeholders. *)
Lemma spawned_counts d sh p entries :
  aborted sh = false →
  let dirs := omap (spawn_dir fs maxDepth d sh p) entries in
  let stats := filter (λ e, spawn_stat sh e = true) entries in
  sum_list_with count_dirs dirs
    = length (filter (λ e, counted e = true) entries) ∧
  sum_list_with count_returned dirs = 0%nat ∧
  (length stats + sum_list_with (cost (S d)) dirs
   = sum_list_with
       (λ entry,
          if isSymbolicLink entry then 0
          else if isDirectory entry then
            walk_cost fs (maxDepth - S d) (join fs p (ent_name entry))
          else if isFile entry then 1 else 0) entries)%nat.
Proof.
  intros Hab. induction entries as [|e entries (IH1 & IH2 & IH3)];
    [done|].
  rewrite !filter_cons. cbn [omap list_omap].
  destruct (spawn_dir fs maxDepth d sh p e) as [c|] eqn:Hc.
  - apply spawn_dir_Some in Hc as (Hsym & Hdir & ->); [|done].
    assert (counted e = true) as Hcnt by (unfold counted; by rewrite Hsym, Hdir).
    assert (spawn_stat sh e ≠ true) as Hst
      by (unfold spawn_stat; by rewrite Hsym, Hdir, andb_false_r).
    rewrite (decide_True _ _ Hcnt), (decide_False _ _ Hst).
    cbn [sum_list_with length]. rewrite IH1, IH2, <- IH3, Hsym, Hdir.
    case_bool_decide as Hmax; simpl; [|split_and!; lia].
    replace (maxDepth - S d)%nat with 0%nat by lia. simpl.
    split_and!; lia.
  - unfold spawn_dir in Hc. rewrite Hab in Hc.
    cbn [sum_list_with]. rewrite <- IH3.
    destruct (counted e) eqn:Hcnt, (spawn_stat sh e) eqn:Hst;
      unfold counted, spawn_stat in Hcnt, Hst; rewrite Hab in Hst;
      destruct (isSymbolicLink e), (isDirectory e), (isFile e); try done;
      simpl; split_and!; lia.
Qed.

Lemma ok_returned ab d c :
  ok ab d c → is_returned c = true → all_returned c = true.
Proof. destruct 1; simpl; done. Qed.

Lemma ok_weaken ab d n : ok ab d n → ok true d n.
Proof.
  revert d.
  induction n as [nm p s ty e tr st|nm p s ty e cs tr st IH]
    using WorkNode_forall_ind; intros d Hok; inversion Hok; subst;
    try (constructor; done).
  all: constructor; try done.
  all: match goal with H : Forall (ok _ (S _)) _ |- _ =>
         rewrite Forall_forall in IH, H |- *; intros c Hc;
         by apply IH, H
       end.
Qed.

(** One continuation keeps the shape of the working tree, moves the
    counters with the tree and lowers the bound. *)
Lemma fill_step_effect d sh n sh' n' :
  fill_step fs maxDepth d sh n sh' n' →
  ok (aborted sh) d n →
  step_effect fs maxDepth d sh n sh' n'.
Proof.
  induction 1 as [d sh n Hfill|d sh n Hfill|d sh n before entry after Hfill
                 |d sh n cs Hfill Hcs Hall
                 |d sh n stats before c after sh' c' Hfill Hcs Hstep IH];
    intros Hok; destruct Hok; simpl in Hfill; try discriminate.
  - (* the size has arrived *)
    split; simpl; try done; try lia.
    constructor; [done|]. by intros ->.
  - (* the listing has arrived *)
    unfold after_readdir. simpl.
    destruct (readdir fs p) as [entries|] eqn:Hls.
    2:{ split; simpl; try done; try lia.
        - constructor. intros _. done.
        - pose proof (walk_cost_pos (maxDepth - d) p). lia. }
    destruct (aborted sh) eqn:Hab.
    { split; simpl; rewrite ?Hab; try done; try lia.
      - by constructor.
      - pose proof (walk_cost_pos (maxDepth - d) p). lia. }
    set (sh1 := find_dirs _ sh).
    assert (aborted sh1 = false) as Hab1 by done.
    destruct (spawned_ok d sh1 p entries Hab1 H Hls) as [Hoks Hlisted].
    destruct (spawned_counts d sh1 p entries Hab1) as (Hc1 & Hc2 & Hc3).
    assert (aborted (match omap (spawn_dir fs maxDepth d sh1 p) entries with
                     | [] => sh1 | _ :: _ => markDirty sh1 end) = false)
      as Hab2 by (by destruct (omap _ _)).
    assert (progress (match omap (spawn_dir fs maxDepth d sh1 p) entries with
                      | [] => sh1 | _ :: _ => markDirty sh1 end)
            = progress sh1) as Hpr by (by destruct (omap _ _)).
    split; simpl; rewrite ?Hab2, ?Hpr; try done.
    + constructor; try done. by apply spawned_stats_listed.
    + simpl. rewrite Hc1. lia.
    + simpl. rewrite Hc2. lia.
    + intros _. simpl. rewrite Hc2. lia.
    + replace (maxDepth - d)%nat with (S (maxDepth - S d)) by lia.
      simpl. rewrite Hls, <- Hc3. lia.
  - (* one [stat] has settled *)
    injection Hfill as ->.
    apply Forall_app in H2 as [Hbefore Hafter].
    apply Forall_cons in Hafter as [Hentry Hafter].
    unfold after_stat. simpl.
    destruct (stat fs _) as [sz|]; split; simpl; try done;
      rewrite ?sum_list_with_app, ?length_app; simpl; try lia.
    + constructor; try done.
      * apply Forall_app. split; [done|]. repeat constructor.
      * apply Forall_app. split; [done|]. by repeat constructor.
      * apply Forall_app. done.
    + constructor; try done. apply Forall_app. done.
  - (* every promise has settled *)
    injection Hcs as <-.
    split; simpl; try done; try lia.
    constructor; try done.
    apply forallb_Forall, Forall_forall. intros c Hc.
    apply (ok_returned (aborted sh) (S d)).
    + rewrite Forall_forall in H0. by apply H0.
    + apply forallb_Forall in Hall. rewrite Forall_forall in Hall.
      by apply Hall.
  - (* a continuation below *)
    injection Hcs as ->.
    apply Forall_app in H0 as [Hbefore Hafter].
    apply Forall_cons in Hafter as [Hc Hafter].
    apply Forall_app in H1 as [Lbefore Lafter].
    apply Forall_cons in Lafter as [Lc Lafter].
    destruct (IH Hc) as [Eok Eab Efound Ecomp Ecompeq Ecost Epath].
    split; simpl; rewrite ?sum_list_with_middle; try done; try lia.
    + rewrite Eab in *. constructor; try done.
      * apply Forall_app. split; [done|]. by constructor.
      * apply Forall_app. split; [done|]. constructor; [|done].
        by rewrite Epath.
    + intros Hab. specialize (Ecompeq Hab). lia.
Qed.

(** ** Counting over a working tree *)

Lemma count_returned_le n : (count_returned n ≤ count_dirs n)%nat.
Proof.
  induction n as [nm p s ty e tr st|nm p s ty e cs tr st IH]
    using WorkNode_forall_ind; simpl.
  - destruct ty, st; lia.
  - assert (sum_list_with count_returned cs ≤ sum_list_with count_dirs cs)%nat.
    { induction IH as [|c cs Hc _ IHcs]; simpl; lia. }
    destruct ty, st; lia.
Qed.

Lemma all_returned_count n :
  all_returned n = true → count_returned n = count_dirs n.
Proof.
  induction n as [nm p s ty e tr st|nm p s ty e cs tr st IH]
    using WorkNode_forall_ind; simpl.
  - by destruct ty, st.
  - intros [Hst Hcs]%andb_true_iff.
    assert (sum_list_with count_returned cs = sum_list_with count_dirs cs)
      as ->.
    { apply forallb_Forall in Hcs.
      induction IH as [|c cs Hc _ IHcs]; simpl; [done|].
      apply Forall_cons in Hcs as [H1 H2]. rewrite Hc, IHcs; done. }
    by destruct ty, st.
Qed.

Lemma fill_step_not_returned d sh n sh' n' :
  fill_step fs maxDepth d sh n sh' n' → is_returned n = false.
Proof. unfold is_returned. destruct 1 as [? ? ? ->|? ? ? ->|? ? ? ? ? ? ->|? ? ? ? -> |? ? ? ? ? ? ? ? ? ->]; done. Qed.

(** ** The invariant of a scan *)

Lemma start_scan_inv dirPath signal :
  scan_inv fs maxDepth (start_scan fs maxDepth dirPath signal).
Proof.
  unfold start_scan, start_fill. simpl.
  destruct signal; [|case_bool_decide]; split; simpl; try done;
    try lia; constructor; try done; lia.
Qed.

Lemma scan_step_inv s s' :
  scan_step fs maxDepth s s' → scan_inv fs maxDepth s → scan_inv fs maxDepth s'.
Proof.
  intros Hstep [Hok Hfound Hcomp Hcompeq Hpub Hres Hrej].
  destruct Hstep as [s sh' root' Hfill|s Hset Hab Hdirty|s Hab|s Hset Hret].
  - pose proof (fill_step_not_returned _ _ _ _ _ Hfill) as Hnot.
    destruct (fill_step_effect _ _ _ _ _ Hfill Hok)
      as [Eok Eab Efound Ecomp Ecompeq Ecost Epath].
    split; simpl; try done; try lia.
    + intros Hab'. rewrite Eab in Hab'. specialize (Ecompeq Hab').
      specialize (Hcompeq Hab'). lia.
    + intros final Hfinal. destruct (Hres final Hfinal) as (_ & Hr & _).
      congruence.
    + intros Hfinal. rewrite Eab. auto.
  - split; simpl; try done.
    constructor; [|done]. simpl. split.
    + by exists (aborted (shared s)), (root s).
    + pose proof (count_returned_le (root s)). lia.
  - split; simpl; try done.
    by eapply ok_weaken.
  - split; simpl; try done.
    + intros final. destruct (aborted (shared s)) eqn:Hab; [done|].
      intros [= <-]. split_and!; [|done|].
      * by exists false, (root s).
      * rewrite Hfound, (Hcompeq eq_refl). apply all_returned_count.
        by eapply ok_returned.
    + by destruct (aborted (shared s)).
Qed.

Lemma rtc_scan_inv s s' :
  rtc (scan_step fs maxDepth) s s' →
  scan_inv fs maxDepth s → scan_inv fs maxDepth s'.
Proof. induction 1; eauto using scan_step_inv. Qed.

Lemma reachable_inv dirPath signal s :
  reachable fs maxDepth dirPath signal s → scan_inv fs maxDepth s.
Proof. intros H. eapply rtc_scan_inv; [exact H|apply start_scan_inv].
Qed.

(** ** From the invariant to the trees *)

Lemma ok_children ab d w cs :
  ok ab d w → w_children w = Some cs →
  Forall (ok ab (S d)) cs ∧
  Forall (λ c, listed (w_path w) (w_path c)) cs ∧
  w_size w = 0 ∧ (d < maxDepth)%nat.
Proof. destruct 1; simpl; intros [= <-]; done. Qed.

Lemma erase_children w :
  children (erase w) = (λ cs : list WorkNode, erase <$> cs) <$> w_children w.
Proof. by destruct w as [nm p s ty e [cs|] tr st]. Qed.

Lemma erase_size w : size (erase w) = w_size w.
Proof. by destruct w. Qed.

Lemma erase_path w : path (erase w) = w_path w.
Proof. by destruct w. Qed.

(** A property of every node of the object tree follows from what the
    invariant says about one working node. *)
Lemma ok_tree_all (Q : nat → TreeNode → Prop) ab :
  (∀ d w, ok ab d w → Q d (erase w)) →
  ∀ w d, ok ab d w → tree_all Q d (erase w).
Proof.
  intros Hnode w.
  induction w as [nm p s ty e tr st|nm p s ty e cs tr st IH]
    using WorkNode_forall_ind; intros d Hok;
    (apply tree_all_intro; [by apply Hnode|]);
    intros cs'; rewrite erase_children; simpl; [done|].
  intros [= <-]. apply Forall_fmap.
  destruct (ok_children _ _ _ cs Hok eq_refl) as (Hcs & _).
  rewrite Forall_forall in IH, Hcs |- *. intros c Hc. simpl.
  by apply IH, Hcs.
Qed.

Lemma ok_work_nodes ab w d dm m :
  ok ab d w → (dm, m) ∈ work_nodes d w → ok ab dm m.
Proof.
  revert d.
  induction w as [nm p s ty e tr st|nm p s ty e cs tr st IH]
    using WorkNode_forall_ind; intros d Hok; simpl;
    intros [[= -> ->]|Hin]%elem_of_cons; try done.
  - by apply elem_of_nil in Hin.
  - apply list_elem_of_bind in Hin as (c & Hm & Hc).
    destruct (ok_children _ _ _ cs Hok eq_refl) as (Hcs & _).
    rewrite Forall_forall in IH, Hcs. by eapply IH, Hm; [|apply Hcs].
Qed.

Lemma work_descend_nodes ix n d m :
  work_descend ix n = Some m → ((d + length ix)%nat, m) ∈ work_nodes d n.
Proof.
  revert n d. induction ix as [|i ix IH]; intros n d; simpl.
  - intros [= ->]. rewrite Nat.add_0_r. destruct m. apply list_elem_of_here.
  - destruct n as [nm p s ty e [cs|] tr st]; simpl; [|done].
    destruct (cs !! i) as [c|] eqn:Hc; [|done]. intros Hm.
    apply list_elem_of_further, list_elem_of_bind. exists c.
    split; [|by eapply list_elem_of_lookup_2].
    replace (d + S (length ix))%nat with (S d + length ix)%nat by lia.
    by apply IH.
Qed.

Lemma ok_empty_zero ab d w : ok ab d w → tree_all empty_zero d (erase w).
Proof.
  apply ok_tree_all. clear. intros d w Hok.
  unfold empty_zero. rewrite erase_children, erase_size.
  destruct (w_children w) as [cs|] eqn:Hcs; [|done].
  intros _. by destruct (ok_children _ _ _ cs Hok Hcs) as (_ & _ & ? & _).
Qed.

Lemma snapshot_of_walk_sum_ok t :
  snapshot_of_walk fs maxDepth t → tree_all sum_ok 0 t.
Proof.
  intros (ab & w & Hok & ->). by eapply snapshot_sum_ok, ok_empty_zero.
Qed.

(** The shape of a directory at the depth limit. *)
Lemma ok_at_limit d n :
  ok false d n → (maxDepth ≤ d)%nat → w_type n = directory →
  w_truncated n = true ∧ w_children n = None ∧
  (w_fill n = Returned → w_size n = fastDirSize fs (w_path n) false).
Proof. destruct 1; simpl; intros; try done; try lia; auto. Qed.

(** ** Termination of the streaming walk *)

Lemma scan_step_cost s s' :
  scan_inv fs maxDepth s → scan_step fs maxDepth s s' →
  (scan_cost fs maxDepth s' < scan_cost fs maxDepth s)%nat.
Proof.
  intros Hinv Hstep. unfold scan_cost.
  destruct Hstep as [s sh' root' Hfill|s Hset Hab Hdirty|s Hab|s Hset Hret];
    simpl.
  - destruct (fill_step_effect _ _ _ _ _ Hfill (inv_ok _ _ _ Hinv))
      as [_ Eab _ _ _ Ecost _].
    rewrite Eab. destruct (dirty sh'), (dirty (shared s)); lia.
  - rewrite Hdirty. lia.
  - rewrite Hab. lia.
  - rewrite Hset. lia.
Qed.

Lemma nsteps_scan_cost k s s' :
  scan_inv fs maxDepth s → nsteps (scan_step fs maxDepth) k s s' →
  (k + scan_cost fs maxDepth s' ≤ scan_cost fs maxDepth s)%nat.
Proof.
  intros Hinv Hsteps. induction Hsteps as [|k x y z Hxy _ IH]; [lia|].
  pose proof (scan_step_cost _ _ Hinv Hxy).
  specialize (IH (scan_step_inv _ _ Hxy Hinv)). lia.
Qed.

Lemma first_child_sound step acc cs sh' cs' :
  first_child step acc cs = Some (sh', cs') →
  ∃ before c after c',
    acc ++ cs = before ++ c :: after ∧ step c = Some (sh', c') ∧
    cs' = before ++ c' :: after.
Proof.
  revert acc. induction cs as [|c cs IH]; intros acc; simpl; [done|].
  destruct (step c) as [[sh1 c1]|] eqn:Hc.
  - intros [= <- <-]. by exists acc, c, cs, c1.
  - intros H. destruct (IH _ H) as (before & c2 & after & c' & Heq & ? & ?).
    exists before, c2, after, c'. by rewrite <- Heq, <- app_assoc.
Qed.

Lemma first_child_progress step acc cs c :
  c ∈ cs → is_Some (step c) → is_Some (first_child step acc cs).
Proof.
  intros Hc Hstep. revert acc.
  induction Hc as [c cs|c c0 cs _ IH]; intros acc; simpl.
  - destruct Hstep as [[sh' c'] ->]. done.
  - destruct (step c0) as [[sh' c']|]; [done|by apply IH].
Qed.

(** The scheduler only takes steps of the walk. *)
Lemma fill_first_sound n d sh x :
  fill_first fs maxDepth d sh n = Some x →
  fill_step fs maxDepth d sh n x.1 x.2.
Proof.
  revert d x.
  induction n as [nm p s ty e tr st|nm p s ty e cs tr st IH]
    using WorkNode_forall_ind; intros d x;
    destruct st as [| |[|entry rest]|]; try done;
    try (intros [= <-]; first
           [by apply step_size
           |by apply step_readdir
           |by apply (step_stat fs maxDepth d sh _ [] entry rest)]).
  cbn [fill_first]. destruct (forallb is_returned cs) eqn:Hall.
  - intros [= <-]. by eapply step_all.
  - destruct (first_child _ [] cs) as [[sh1 cs1]|] eqn:Hfirst; [|done].
    simpl. intros [= <-].
    apply first_child_sound in Hfirst
      as (before & c & after & c' & Heq & Hc & ->).
    simpl in Heq. subst cs.
    apply Forall_app in IH as [_ [IHc _]%Forall_cons].
    eapply step_child; [done..|]. by apply (IHc _ (sh1, c')).
Qed.

(** A call that has not returned has a continuation that can run. *)
Lemma fill_first_progress ab n d sh :
  ok ab d n → is_returned n = false →
  is_Some (fill_first fs maxDepth d sh n).
Proof.
  revert d.
  induction n as [nm p s ty e tr st|nm p s ty e cs tr st IH]
    using WorkNode_forall_ind; intros d Hok Hnot;
    inversion Hok; subst; simpl; try done.
  destruct stats as [|entry rest]; [|done].
  destruct (forallb is_returned cs) eqn:Hall; [done|].
    assert (∃ c, c ∈ cs ∧ is_returned c = false) as (c & Hc & Hcnot).
    { clear -Hall. induction cs as [|c cs IHcs]; [done|]. simpl in Hall.
      destruct (is_returned c) eqn:Hc.
      - destruct (IHcs Hall) as (c' & ? & ?). exists c'.
        split; [by apply list_elem_of_further|done].
      - exists c. split; [apply list_elem_of_here|done]. }
    rewrite Forall_forall in IH.
    match goal with H : Forall (ok _ (S _)) _ |- _ =>
      rewrite Forall_forall in H; pose proof (IH c Hc (S d) (H c Hc) Hcnot) as Hstep
    end.
    destruct (first_child_progress (fill_first fs maxDepth (S d) sh) [] cs c
                Hc Hstep) as [[sh1 cs1] ->]. done.
Qed.

Lemma scan_first_sound s s' :
  scan_first fs maxDepth s = Some s' → scan_step fs maxDepth s s'.
Proof.
  unfold scan_first.
  destruct (fill_first _ _ _ _ _) as [[sh' root']|] eqn:Hfill.
  - intros [= <-]. by apply scan_fill, (fill_first_sound _ _ _ (sh', root')).
  - destruct (settled s) eqn:Hset; [done|].
    destruct (is_returned (root s)) eqn:Hret; [|done].
    intros [= <-]. by apply scan_return.
Qed.

Lemma scan_first_progress s :
  scan_inv fs maxDepth s → settled s = None →
  is_Some (scan_first fs maxDepth s).
Proof.
  intros Hinv Hset. unfold scan_first.
  destruct (fill_first _ _ _ _ _) as [[sh' root']|] eqn:Hfill; [done|].
  rewrite Hset. destruct (is_returned (root s)) eqn:Hret; [done|].
  destruct (fill_first_progress _ _ 0 (shared s) (inv_ok _ _ _ Hinv) Hret)
    as [x Hx]. congruence.
Qed.

Lemma run_reachable k s : rtc (scan_step fs maxDepth) s (run fs maxDepth k s).
Proof.
  revert s. induction k as [|k IH]; intros s; simpl; [done|].
  destruct (scan_first fs maxDepth s) as [s'|] eqn:Hs; [|done].
  eapply rtc_l; [by apply scan_first_sound|apply IH].
Qed.

Lemma run_settled k s x :
  settled s = Some x → settled (run fs maxDepth k s) = Some x.
Proof.
  revert s. induction k as [|k IH]; intros s Hset; simpl; [done|].
  destruct (scan_first fs maxDepth s) as [s'|] eqn:Hs; [|done].
  apply IH. unfold scan_first in Hs.
  destruct (fill_first _ _ _ _ _) as [[sh' root']|]; [by injection Hs as <-|].
  by rewrite Hset in Hs.
Qed.

(** With as many steps as the bound, the scheduler settles the scan. *)
Lemma run_settles k s :
  scan_inv fs maxDepth s → (scan_cost fs maxDepth s ≤ k)%nat →
  is_Some (settled (run fs maxDepth k s)).
Proof.
  revert s. induction k as [|k IH]; intros s Hinv Hk.
  - simpl. unfold scan_cost in Hk. destruct (settled s); [done|lia].
  - destruct (settled s) as [x|] eqn:Hset;
      [by rewrite (run_settled _ _ x Hset)|].
    destruct (scan_first_progress s Hinv Hset) as [s' Hs'].
    simpl. rewrite Hs'.
    pose proof (scan_first_sound _ _ Hs') as Hstep.
    apply IH; [by eapply scan_step_inv|].
    pose proof (scan_step_cost _ _ Hinv Hstep). lia.
Qed.

(** ** No node for a symbolic link *)

Lemma applyChildLimits_leaf t d :
  children t = None → applyChildLimits t d = t.
Proof. destruct t as [n p s ty e [[|c cs]|] tr]; simpl; congruence. Qed.

Lemma recalcSizes_from_listing t d :
  tree_all (from_listing fs) d t →
  tree_all (from_listing fs) d (recalcSizes t).
Proof.
  apply tree_all_recalcSizes. clear. intros d t Ht cs' c'.
  rewrite recalcSizes_children, recalcSizes_path.
  destruct (children t) as [cs|] eqn:Hcs; simpl; [|done].
  intros [= <-]. rewrite js_sort_perm.
  intros (c & -> & Hc)%list_elem_of_fmap.
  destruct (tree_all_here _ _ _ Ht cs c Hcs Hc) as [(k & s & ->)|Hl].
  - left. eauto.
  - right. by rewrite recalcSizes_path.
Qed.

Lemma applyChildLimits_from_listing t d :
  tree_all (from_listing fs) d t →
  tree_all (from_listing fs) d (applyChildLimits t d).
Proof.
  apply tree_all_applyChildLimits; [|done]. clear. intros d t Ht cs' c'.
  rewrite applyChildLimits_children, applyChildLimits_path.
  destruct (children t) as [cs|] eqn:Hcs; simpl; [|done].
  intros [= <-] [Hc'|(k & s & ->)]%limit_children_elem; [|left; eauto].
  apply list_elem_of_fmap in Hc' as (c & -> & Hc).
  destruct (tree_all_here _ _ _ Ht cs c Hcs Hc) as [(k & s & ->)|Hl].
  - left. eauto.
  - right. by rewrite applyChildLimits_path.
Qed.

Lemma ok_from_listing ab d w :
  ok ab d w → tree_all (from_listing fs) d (erase w).
Proof.
  apply ok_tree_all. clear. intros d w Hok cs' c'.
  rewrite erase_children, erase_path.
  destruct (w_children w) as [cs|] eqn:Hcs; simpl; [|done].
  intros [= <-] (c & -> & Hc)%list_elem_of_fmap. right.
  destruct (ok_children _ _ _ cs Hok Hcs) as (_ & Hl & _).
  rewrite Forall_forall in Hl. rewrite erase_path. by apply Hl.
Qed.

Lemma snapshot_of_walk_from_listing t :
  snapshot_of_walk fs maxDepth t → tree_all (from_listing fs) 0 t.
Proof.
  intros (ab & w & Hok & ->). unfold snapshot.
  by eapply recalcSizes_from_listing, applyChildLimits_from_listing,
    recalcSizes_from_listing, ok_from_listing.
Qed.

(** ** The symbolic links change nothing in the streaming walk *)

Lemma filter_filter_weaker {A} (P Q : A → Prop)
    `{∀ x, Decision (P x)} `{∀ x, Decision (Q x)} (l : list A) :
  (∀ x, P x → Q x) → filter P (filter Q l) = filter P l.
Proof.
  intros HPQ. induction l as [|x l IH]; [done|].
  rewrite (filter_cons Q). destruct (decide (Q x)) as [HQ|HQ].
  - rewrite !filter_cons. destruct (decide (P x)); by rewrite IH.
  - rewrite (filter_cons P x l), decide_False by (intros HP; by apply HQ, HPQ).
    exact IH.
Qed.

Lemma omap_filter_skip {A B} (f g : A → option B) (Q : A → Prop)
    `{∀ x, Decision (Q x)} (l : list A) :
  (∀ x, f x = g x) → (∀ x, ¬ Q x → g x = None) →
  omap f (filter Q l) = omap g l.
Proof.
  intros Hfg Hskip. induction l as [|x l IH]; [done|].
  rewrite filter_cons. destruct (decide (Q x)) as [HQ|HQ]; csimpl.
  - by rewrite Hfg, IH.
  - by rewrite (Hskip x HQ), IH.
Qed.

Lemma after_readdir_without_symlinks d sh n :
  after_readdir (without_symlinks fs) maxDepth d sh n
  = after_readdir fs maxDepth d sh n.
Proof.
  unfold after_readdir.
  change (readdir (without_symlinks fs) (w_path n))
    with (filter (λ e, isSymbolicLink e = false) <$> readdir fs (w_path n)).
  destruct (readdir fs (w_path n)) as [entries|]; [|done].
  cbn [fmap option_fmap option_map]. destruct (aborted sh) eqn:Hab; [done|].
  rewrite (filter_filter_weaker (λ e, counted e = true)).
  2:{ intros e. unfold counted. by destruct (isSymbolicLink e). }
  set (sh1 := find_dirs _ sh).
  rewrite (filter_filter_weaker (λ e, spawn_stat sh1 e = true)).
  2:{ intros e. unfold spawn_stat.
      destruct (isSymbolicLink e); [by rewrite andb_false_r|done]. }
  rewrite (omap_filter_skip _ (spawn_dir fs maxDepth d sh1 (w_path n)));
    [done|done|].
  intros e Hsym. unfold spawn_dir.
  destruct (aborted sh1); [done|]. by destruct (isSymbolicLink e).
Qed.

Lemma fill_step_without_symlinks d sh n sh' n' :
  fill_step (without_symlinks fs) maxDepth d sh n sh' n' ↔
  fill_step fs maxDepth d sh n sh' n'.
Proof.
  split.
  - induction 1 as [d sh n Hfill|d sh n Hfill|d sh n before entry after Hfill
                   |d sh n cs Hfill Hcs Hall
                   |d sh n stats before c after sh' c' Hfill Hcs Hstep IH].
    + exact (step_size fs maxDepth d sh n Hfill).
    + rewrite after_readdir_without_symlinks. by apply step_readdir.
    + exact (step_stat fs maxDepth d sh n before entry after Hfill).
    + exact (step_all fs maxDepth d sh n cs Hfill Hcs Hall).
    + by eapply step_child.
  - induction 1 as [d sh n Hfill|d sh n Hfill|d sh n before entry after Hfill
                   |d sh n cs Hfill Hcs Hall
                   |d sh n stats before c after sh' c' Hfill Hcs Hstep IH].
    + exact (step_size (without_symlinks fs) maxDepth d sh n Hfill).
    + rewrite <- after_readdir_without_symlinks. by apply step_readdir.
    + exact (step_stat (without_symlinks fs) maxDepth d sh n before entry
               after Hfill).
    + exact (step_all (without_symlinks fs) maxDepth d sh n cs Hfill Hcs
               Hall).
    + by eapply step_child.
Qed.

Lemma scan_step_without_symlinks s s' :
  scan_step (without_symlinks fs) maxDepth s s' ↔ scan_step fs maxDepth s s'.
Proof.
  split; intros Hstep;
    destruct Hstep as [s sh' root' Hfill|s Hset Hab Hdirty|s Hab|s Hset Hret];
    try (by constructor).
  - apply scan_fill. by apply fill_step_without_symlinks.
  - apply scan_fill. by apply fill_step_without_symlinks.
Qed.

Lemma reachable_without_symlinks dirPath signal s :
  reachable (without_symlinks fs) maxDepth dirPath signal s ↔
  reachable fs maxDepth dirPath signal s.
Proof.
  unfold reachable.
  change (start_scan (without_symlinks fs) maxDepth dirPath signal)
    with (start_scan fs maxDepth dirPath signal).
  split; induction 1 as [|x y z Hxy _ IH]; try done;
    (eapply rtc_l; [by apply scan_step_without_symlinks|done]).
Qed.

End StreamingFacts.

(** * The one-shot walk *)

Section OneShotFacts.
Variable fs : FileSystem.

(** One element of [childPromises] that is not [null] is made for an
    entry that is not a symbolic link. *)
Lemma scan_entry_Some rec dirPath entry c :
  scan_entry fs rec dirPath entry = Some (Some c) →
  isSymbolicLink entry = false ∧
  (rec (join fs dirPath (ent_name entry)) = Some c ∨
   ∃ sz, c = file_node fs (ent_name entry)
                       (join fs dirPath (ent_name entry)) sz).
Proof.
  unfold scan_entry. destruct (isSymbolicLink entry); [done|].
  destruct (isDirectory entry).
  - destruct (rec _) as [c'|]; simpl; [|done]. intros [= <-]. auto.
  - destruct (isFile entry); [|done].
    destruct (stat fs _) as [sz|]; [|done]. intros [= <-]. eauto.
Qed.

(** The walk returns when its fuel exceeds the levels that remain above
    [maxDepth]. *)
Lemma scanDirectory_fuel_total fuel dirPath maxDepth depth :
  (maxDepth - depth < fuel)%nat →
  is_Some (scanDirectory_fuel fs fuel dirPath maxDepth depth).
Proof.
  revert dirPath depth.
  induction fuel as [|fuel IH]; intros dirPath depth Hfuel; [lia|].
  simpl. case_bool_decide as Hmax; [done|].
  destruct (readdir fs dirPath) as [entries|]; [|done].
  assert (is_Some (mapM (scan_entry fs
            (λ p, scanDirectory_fuel fs fuel p maxDepth (S depth)) dirPath)
            entries)) as [results ->]; [|done].
  apply mapM_is_Some, Forall_forall. intros entry _.
  unfold compose, scan_entry.
  destruct (isSymbolicLink entry); [done|].
  destruct (isDirectory entry); [|by destruct (isFile entry)].
  destruct (IH (join fs dirPath (ent_name entry)) (S depth)) as [c ->];
    [lia|done].
Qed.

Lemma scanDirectory_fuel_path fuel dirPath maxDepth depth t :
  scanDirectory_fuel fs fuel dirPath maxDepth depth = Some t →
  path t = dirPath.
Proof.
  destruct fuel as [|fuel]; simpl; [done|].
  case_bool_decide; [by intros [= <-]|].
  destruct (readdir fs dirPath) as [entries|]; [|by intros [= <-]].
  destruct (mapM _ entries); simpl; [|done]. by intros [= <-].
Qed.

Lemma scanDirectory_fuel_from_listing fuel dirPath maxDepth depth t :
  scanDirectory_fuel fs fuel dirPath maxDepth depth = Some t →
  tree_all (from_listing fs) depth t.
Proof.
  revert dirPath depth t.
  induction fuel as [|fuel IH]; intros dirPath depth t; simpl; [done|].
  case_bool_decide as Hmax; [intros [= <-]; by apply tree_all_leaf|].
  destruct (readdir fs dirPath) as [entries|] eqn:Hls;
    [|intros [= <-]; by apply tree_all_leaf].
  destruct (mapM _ entries) as [results|] eqn:Hres; simpl; [|done].
  intros [= <-].
  assert (∀ c, c ∈ js_sort by_size_desc (omap id results) →
               listed fs dirPath (path c) ∧
               tree_all (from_listing fs) (S depth) c) as Hchild.
  { intros c. rewrite js_sort_perm.
    intros (oc & Hoc & Hid)%list_elem_of_omap. simpl in Hid. subst oc.
    apply mapM_Some in Hres.
    apply list_elem_of_lookup in Hoc as [i Hi].
    destruct (Forall2_lookup_r _ _ _ _ _ Hres Hi) as (entry & Hentry & Hc).
    apply scan_entry_Some in Hc as (Hsym & [Hrec|(sz & ->)]).
    - split; [|by eapply IH].
      exists entries, entry. split_and!; try done.
      + by eapply list_elem_of_lookup_2.
      + by eapply scanDirectory_fuel_path.
    - split; [|by apply tree_all_leaf].
      exists entries, entry. split_and!; try done.
      by eapply list_elem_of_lookup_2. }
  apply tree_all_intro.
  - intros cs c [= <-] [Hc|(k & s & ->)]%limit_children_elem.
    + right. by apply Hchild.
    + left. eauto.
  - intros cs [= <-]. apply Forall_limit_children.
    + apply Forall_forall. intros c Hc. by apply Hchild.
    + intros. by apply tree_all_leaf.
Qed.

(** ** The symbolic links change nothing *)

Lemma mapM_skip_nulls {A} (f : A → option (option TreeNode))
    (P : A → Prop) `{∀ x, Decision (P x)} (l : list A) :
  (∀ x, ¬ P x → f x = Some None) →
  omap id <$> mapM f (filter P l) = omap id <$> mapM f l.
Proof.
  intros Hskip. induction l as [|x l IH]; [done|].
  rewrite filter_cons. destruct (decide (P x)) as [HP|HP]; csimpl.
  - destruct (f x) as [y|]; [|done]. csimpl.
    destruct (mapM f (filter P l)) as [r1|], (mapM f l) as [r2|];
      simpl in *; try done.
    injection IH as IH. destruct y; simpl; f_equal; [f_equal|]; exact IH.
  - rewrite (Hskip x HP). csimpl.
    destruct (mapM f (filter P l)) as [r1|], (mapM f l) as [r2|];
      simpl in *; done.
Qed.

Lemma scanDirectory_fuel_without_symlinks fuel dirPath maxDepth depth :
  scanDirectory_fuel (without_symlinks fs) fuel dirPath maxDepth depth
  = scanDirectory_fuel fs fuel dirPath maxDepth depth.
Proof.
  revert dirPath depth.
  induction fuel as [|fuel IH]; intros dirPath depth; [done|].
  cbn [scanDirectory_fuel]. case_bool_decide; [done|].
  change (readdir (without_symlinks fs) dirPath)
    with (filter (λ e, isSymbolicLink e = false) <$> readdir fs dirPath).
  destruct (readdir fs dirPath) as [entries|]; [|done]. cbn [fmap option_fmap option_map].
  set (f := scan_entry fs
              (λ p, scanDirectory_fuel fs fuel p maxDepth (S depth)) dirPath).
  rewrite (mapM_ext _ f).
  2:{ intros entry. unfold f, scan_entry. simpl.
      destruct (isSymbolicLink entry), (isDirectory entry); try done.
      by rewrite IH. }
  pose proof (mapM_skip_nulls f (λ e, isSymbolicLink e = false) entries)
    as Heq.
  destruct (mapM f (filter _ entries)) as [r1|], (mapM f entries) as [r2|];
    simpl in *.
  - injection Heq as ->; [done|].
    intros entry Hsym. unfold f, scan_entry.
    by destruct (isSymbolicLink entry).
  - discriminate Heq. intros entry Hsym. unfold f, scan_entry.
    by destruct (isSymbolicLink entry).
  - discriminate Heq. intros entry Hsym. unfold f, scan_entry.
    by destruct (isSymbolicLink entry).
  - done.
Qed.

End OneShotFacts.

(** * The slot limiter *)

Module LimiterFacts.
Import Limiter LimiterInv.

Lemma count_app f cs c : count f (cs ++ [c]) = count f cs + b2z (f c).
Proof.
  unfold count. rewrite filter_app, length_app, filter_cons, filter_nil.
  destruct (f c); simpl; lia.
Qed.

Lemma count_insert f cs t old new :
  cs !! t = Some old →
  count f (<[t := new]> cs) = count f cs - b2z (f old) + b2z (f new).
Proof.
  intros Ht. pose proof (lookup_lt_Some _ _ _ Ht) as Hlt.
  rewrite insert_take_drop by done.
  rewrite <- (take_drop_middle cs t old Ht) at 3.
  unfold count. rewrite !filter_app, !filter_cons, !length_app.
  destruct (f old), (f new); simpl; lia.
Qed.

Lemma limiter_init_inv : inv init.
Proof. split; simpl; try done; constructor. Qed.

Lemma holds_granted c :
  wrapper_of c = WithSlot → holds_slot (mkCall c Granted) = true.
Proof. unfold holds_slot. simpl. by intros ->. Qed.

Lemma holds_running c :
  holds_slot (mkCall c Running) = holds_slot (mkCall c Granted).
Proof. unfold holds_slot. simpl. by destruct (wrapper_of c). Qed.

Lemma holds_waiting c : holds_slot (mkCall c Waiting) = false.
Proof. unfold holds_slot. simpl. by destruct (wrapper_of c). Qed.

Lemma holds_finished c r : holds_slot (mkCall c (Finished r)) = false.
Proof. unfold holds_slot. simpl. by destruct (wrapper_of c). Qed.

Lemma holds_bare c p : wrapper_of c = Bare → holds_slot (mkCall c p) = false.
Proof. unfold holds_slot. simpl. by intros ->. Qed.

(** The waiters stay waiters when the calls change elsewhere. *)
Lemma queue_kept (q : list nat) (cs cs' : list Call) :
  (∀ t' c', t' ∈ q → cs !! t' = Some (mkCall c' Waiting) →
            cs' !! t' = Some (mkCall c' Waiting)) →
  Forall (λ t, ∃ c, cs !! t = Some (mkCall c Waiting) ∧
                    wrapper_of c = WithSlot) q →
  Forall (λ t, ∃ c, cs' !! t = Some (mkCall c Waiting) ∧
                    wrapper_of c = WithSlot) q.
Proof.
  intros Hkept Hq. rewrite Forall_forall in Hq |- *. intros t Hin.
  destruct (Hq _ Hin) as (c & Hc & Hw). exists c. split; [|done].
  by apply Hkept.
Qed.

Lemma limiter_step_inv io io' : step io io' → inv io → inv io'.
Proof.
  intros Hstep [Hact Hbound Hq Hnd Hfifo].
  destruct Hstep as [c io|t c io Ht|t c r io Ht].
  - (* a system call is issued *)
    assert (∀ p, Forall (λ t, ∃ c0, (calls io ++ [mkCall c p]) !! t
                                    = Some (mkCall c0 Waiting) ∧
                                    wrapper_of c0 = WithSlot)
              (queue (limiter io))) as Hq'
      by (intros p; eapply queue_kept; [|done]; intros;
          by apply lookup_app_l_Some).
    unfold issue. destruct (wrapper_of c) eqn:Hw.
    + unfold acquireSlot.
      destruct (Z.ltb_spec (active (limiter io)) MAX_CONCURRENT) as [Hlt|Hge];
        split; simpl; rewrite ?count_app, ?holds_granted, ?holds_waiting;
        simpl; try done; try lia.
      * apply Forall_app. split; [done|].
        constructor; [|done]. exists c.
        by rewrite lookup_app_r, Nat.sub_diag.
      * apply NoDup_app. split_and!; [done| |apply NoDup_singleton].
        intros t Hin ->%list_elem_of_singleton.
        rewrite Forall_forall in Hq. destruct (Hq _ Hin) as (c' & Hc' & _).
        apply lookup_lt_Some in Hc'. lia.
      * by rewrite Hfifo, app_assoc.
    + split; simpl; rewrite ?count_app, ?holds_bare; simpl; try done; lia.
  - (* the continuation of a granted call runs *)
    split; simpl; try done.
    + rewrite (count_insert _ _ _ _ _ Ht), Hact, holds_running. lia.
    + eapply queue_kept; [|done]. intros t' c' Hin Hc'.
      rewrite list_lookup_insert_ne; [done|].
      intros <-. congruence.
  - (* a system call settles *)
    assert (Forall (λ t', ∃ c', <[t := mkCall c (Finished r)]> (calls io) !! t'
                                = Some (mkCall c' Waiting) ∧
                                wrapper_of c' = WithSlot)
                   (queue (limiter io))) as Hq'.
    { eapply queue_kept; [|done]. intros t' c' Hin Hc'.
      rewrite list_lookup_insert_ne; [done|]. intros <-. congruence. }
    pose proof (count_insert holds_slot _ _ _ (mkCall c (Finished r)) Ht)
      as Hcount.
    rewrite holds_finished, holds_running in Hcount.
    unfold settle. destruct (wrapper_of c) eqn:Hw.
    2:{ split; simpl; try done.
        rewrite holds_bare in Hcount by done. simpl in Hcount. lia. }
    rewrite holds_granted in Hcount by done. simpl in Hcount.
    unfold releaseSlot.
    destruct (queue (limiter io)) as [|next rest] eqn:Hqueue.
    + split; simpl; try done; try lia.
    + apply Forall_cons in Hq' as [(c' & Hnext & Hw') Hrest].
      apply NoDup_cons in Hnd as [Hnotin Hnd].
      unfold wake. rewrite Hnext. simpl.
      split; simpl; try done.
      * rewrite (count_insert _ _ _ _ _ Hnext), Hcount, Hact.
        rewrite holds_waiting, holds_granted by done. simpl. lia.
      * eapply queue_kept; [|done]. intros t' c2 Hin Hc2.
        rewrite list_lookup_insert_ne; [done|]. by intros <-.
      * by rewrite Hfifo, <- app_assoc.
Qed.

Lemma limiter_reachable_inv io : reachable io → inv io.
Proof.
  intros H. assert (∀ a b, rtc step a b → inv a → inv b) as Hrtc
    by (induction 1; eauto using limiter_step_inv).
  eapply Hrtc; [exact H|apply limiter_init_inv].
Qed.

(** C7. The calls that hold a slot are as many as [active] says and never
    more than [MAX_CONCURRENT], which is 64.  The waiters are woken up in
    the order of their arrival: [arrivals] is [grants] followed by the
    queue.  When a call under [withSlot] settles, the oldest waiter, if
    there is one, is granted the slot and [active] stays; otherwise
    [active] goes down by one, which frees one slot. *)
Theorem capacity_and_fifo io :
  reachable io →
  MAX_CONCURRENT = 64 ∧
  count holds_slot (calls io) = active (limiter io) ∧
  count holds_slot (calls io) ≤ MAX_CONCURRENT ∧
  arrivals io = grants io ++ queue (limiter io) ∧
  (∀ t c r,
     calls io !! t = Some (mkCall c Running) → wrapper_of c = WithSlot →
     let io' := settle t c r io in
     match queue (limiter io) with
     | oldest :: rest =>
         (∃ c', calls io' !! oldest = Some (mkCall c' Granted)) ∧
         queue (limiter io') = rest ∧
         grants io' = grants io ++ [oldest] ∧
         active (limiter io') = active (limiter io)
     | [] =>
         queue (limiter io') = [] ∧
         grants io' = grants io ∧
         active (limiter io') = active (limiter io) - 1
     end).
Proof.
  intros [Hact Hbound Hq Hnd Hfifo]%limiter_reachable_inv.
  split_and!; try done; try lia.
  intros t c r Ht Hw. unfold settle. rewrite Hw. unfold releaseSlot.
  destruct (queue (limiter io)) as [|oldest rest] eqn:Hqueue; simpl; [done|].
  apply Forall_cons in Hq as [(c' & Hc' & _) _].
  assert ((<[t := mkCall c (Finished r)]> (calls io)) !! oldest
          = Some (mkCall c' Waiting)) as Hdone
    by (rewrite list_lookup_insert_ne; [done|]; intros <-; congruence).
  rewrite Hdone. split_and!; try done.
  exists c'. rewrite list_lookup_insert_eq; [done|].
  rewrite length_insert. by eapply lookup_lt_Some.
Qed.

(** Sixty-five calls of [readdir]: the last one waits. *)
Lemma capacity_and_fifo_witness :
  let io := Nat.iter 65 (issue Readdir) init in
  reachable io ∧
  (MAX_CONCURRENT = 64 ∧
   count holds_slot (calls io) = active (limiter io) ∧
   count holds_slot (calls io) ≤ MAX_CONCURRENT ∧
   arrivals io = grants io ++ queue (limiter io) ∧
   (∀ t c r,
      calls io !! t = Some (mkCall c Running) → wrapper_of c = WithSlot →
      let io' := settle t c r io in
      match queue (limiter io) with
      | oldest :: rest =>
          (∃ c', calls io' !! oldest = Some (mkCall c' Granted)) ∧
          queue (limiter io') = rest ∧
          grants io' = grants io ++ [oldest] ∧
          active (limiter io') = active (limiter io)
      | [] =>
          queue (limiter io') = [] ∧
          grants io' = grants io ∧
          active (limiter io') = active (limiter io) - 1
      end)).
Proof.
  intros io.
  assert (∀ k, reachable (Nat.iter k (issue Readdir) init)) as Hreach.
  { induction k as [|k IH]; [apply rtc_refl|].
    eapply rtc_r; [exact IH|apply step_issue]. }
  split; [apply Hreach|apply (capacity_and_fifo io), Hreach].
Defined.

Example full_limiter_example :
  let io := Nat.iter 65 (issue Readdir) init in
  (active (limiter io), queue (limiter io)) = (64, [64%nat]) ∧
  let io' := settle 0 Readdir Rejected (start 0 Readdir io) in
  (active (limiter io'), queue (limiter io'), phase <$> calls io' !! 64%nat)
  = (64, [], Some Granted).
Proof. vm_compute. done. Qed.





End LimiterFacts.

(** * The scan coordinator *)

Module CoordinatorFacts.
Import Coordinator CoordinatorInv.

Section ServerFacts.
Variable fs : FileSystem.

Lemma fill_step_aborted maxDepth d sh n sh' n' :
  fill_step fs maxDepth d sh n sh' n' → aborted sh' = aborted sh.
Proof.
  induction 1 as [d sh n _|d sh n _|d sh n before entry after _| |];
    try done.
  - unfold after_readdir. destruct (readdir fs (w_path n)); [|done].
    destruct (aborted sh) eqn:Hab; [done|]. simpl.
    by destruct (omap _ _).
  - unfold after_stat. by destruct (stat fs _).
Qed.

Lemma server_init_inv : inv init.
Proof.
  split; simpl; try done.
  intros i Hi. by apply elem_of_nil in Hi.
Qed.

(** An entry changes, but not from finished to unfinished and not the
    signal of its walk. *)
Lemma update_entry_inv i e e' s :
  inv s → entries s !! i = Some e →
  (done (scan e) = true → done (scan e') = true) →
  aborted (shared (walker e')) = aborted (shared (walker e)) →
  inv (update_entry i e' s).
Proof.
  intros [Hact Hsingle Hcanc] Hi Hdone Hab.
  pose proof (lookup_lt_Some _ _ _ Hi) as Hlt.
  split; simpl.
  - intros k Hk. destruct (Hact k Hk) as [x Hx].
    destruct (decide (k = i)) as [->|Hne].
    + rewrite list_lookup_insert_eq by done. eauto.
    + rewrite list_lookup_insert_ne by done. eauto.
  - intros j ej Hj Hnot. destruct (decide (j = i)) as [->|Hne].
    + rewrite list_lookup_insert_eq in Hj by done. injection Hj as <-.
      destruct (Hsingle i e Hi Hnot) as [?|?]; [left; auto|right; congruence].
    + rewrite list_lookup_insert_ne in Hj by done. eauto.
  - intros k Hk. destruct (Hcanc k Hk) as (Hnot & ek & Hek & Habk).
    split; [done|]. destruct (decide (k = i)) as [->|Hne].
    + rewrite list_lookup_insert_eq by done. exists e'.
      split; [done|]. congruence.
    + rewrite list_lookup_insert_ne by done. eauto.
Qed.

Lemma Cancelled_broadcast i origin ev (ls : list nat) tr :
  Cancelled i ∈ reverse ((λ l, Delivered l origin ev) <$> ls) ++ tr ↔
  Cancelled i ∈ tr.
Proof.
  rewrite elem_of_app, elem_of_reverse, list_elem_of_fmap.
  split; [intros [(l & [=] & _)|H]|intros H; right]; done.
Qed.

Lemma broadcast_inv origin ev s : inv s → inv (broadcast origin ev s).
Proof.
  intros [Hact Hsingle Hcanc]. split; simpl; try done.
  intros i. rewrite Cancelled_broadcast. apply Hcanc.
Qed.

Lemma Cancelled_skip i x (tr : list TraceItem) :
  Cancelled i ∈ x :: tr → (∀ k, x ≠ Cancelled k) → Cancelled i ∈ tr.
Proof. intros [<-|H]%elem_of_cons Hx; [by destruct (Hx i)|done]. Qed.

Lemma subscribe_inv s : inv s → inv (subscribe s).
Proof.
  intros [Hact Hsingle Hcanc]. unfold subscribe.
  destruct (activeScan s) as [a|] eqn:Ha; [|by split].
  destruct (entries s !! a) as [e|];
    [destruct (tree (scan e)) as [t|]; [destruct (done (scan e))|]|];
    split; simpl; try done; intros i Hi; apply Hcanc;
    repeat (apply Cancelled_skip in Hi; [|done]); done.
Qed.

Lemma startBackgroundScan_inv dirPath s :
  inv s → inv (startBackgroundScan fs dirPath s).
Proof.
  intros [Hact Hsingle Hcanc]. unfold startBackgroundScan.
  set (new := mkEntry _ _).
  assert (∀ es tr,
    length es = length (entries s) →
    (∀ j e, es !! j = Some e →
       done (scan e) = true ∨ aborted (shared (walker e)) = true) →
    (∀ i, Cancelled i ∈ tr →
       ∃ e, es !! i = Some e ∧ aborted (shared (walker e)) = true) →
    inv (mkState (es ++ [new]) (Some (length es)) (sseListeners s)
                 (nextListener s) (S (walkerStarts s)) tr)) as Hnew.
  { intros es tr Hlen Hall Htr. split; simpl.
    - intros i [= <-]. rewrite lookup_app_r, Nat.sub_diag by done. eauto.
    - intros j e Hj Hnot.
      apply lookup_app_Some in Hj as [Hj|[Hge Hj]]; [by eapply Hall|].
      apply list_lookup_singleton_Some in Hj as [Hj _].
      destruct Hnot. f_equal. lia.
    - intros i Hi. destruct (Htr i Hi) as (e & He & Hab).
      split; [|exists e; split; [by apply lookup_app_l_Some|done]].
      intros [= Heq]. apply lookup_lt_Some in He. lia. }
  destruct (activeScan s) as [a|] eqn:Ha.
  2:{ apply Hnew; [done| |].
      - intros j e Hj. by eapply Hsingle.
      - intros i Hi. by destruct (Hcanc i Hi). }
  destruct (entries s !! a) as [ea|] eqn:Hea.
  2:{ destruct (Hact a eq_refl). congruence. }
  pose proof (lookup_lt_Some _ _ _ Hea) as Hlt.
  destruct (done (scan ea)) eqn:Hdone.
  - apply Hnew; [done| |].
    + intros j e Hj. destruct (decide (j = a)) as [->|Hne].
      * left. congruence.
      * eapply Hsingle; [done|congruence].
    + intros i Hi. by destruct (Hcanc i Hi).
  - apply Hnew; [by rewrite length_insert| |].
    + intros j e Hj. destruct (decide (j = a)) as [->|Hne].
      * rewrite list_lookup_insert_eq in Hj by done. injection Hj as <-.
        by right.
      * rewrite list_lookup_insert_ne in Hj by done.
        eapply Hsingle; [done|congruence].
    + intros i [[= ->]|Hi]%elem_of_cons.
      * rewrite list_lookup_insert_eq by done. eauto.
      * destruct (Hcanc i Hi) as (_ & e & He & Hab).
        destruct (decide (i = a)) as [->|Hne].
        -- rewrite list_lookup_insert_eq by done. eauto.
        -- rewrite list_lookup_insert_ne by done. eauto.
Qed.

Lemma server_step_inv s s' : step fs s s' → inv s → inv s'.
Proof.
  intros Hstep Hinv.
  destruct Hstep as [resolved s|l s|i e sh' root' s Hi Hfill
                    |i e s Hi Hset Hab Hdirty|i e s Hi Hset Hret Hab
                    |i e s Hi Hset Hret Hab
                    |i e errName message s Hi Hset Hret Hab Hname].
  - unfold requestScan. apply subscribe_inv.
    destruct (needsNew resolved s); [by apply startBackgroundScan_inv|done].
  - by destruct Hinv.
  - eapply update_entry_inv; [done..|]. simpl.
    by eapply fill_step_aborted.
  - by eapply broadcast_inv, update_entry_inv.
  - by eapply broadcast_inv, update_entry_inv.
  - unfold onRejected. simpl. by eapply update_entry_inv.
  - unfold onRejected. rewrite bool_decide_eq_false_2 by done.
    by eapply broadcast_inv, update_entry_inv.
Qed.


Lemma subscribe_fields s :
  entries (subscribe s) = entries s ∧
  activeScan (subscribe s) = activeScan s ∧
  walkerStarts (subscribe s) = walkerStarts s.
Proof.
  unfold subscribe. destruct (activeScan s) as [a|]; [|done].
  destruct (entries s !! a) as [e|]; [|done].
  destruct (tree (scan e)); [|done]. by destruct (done (scan e)).
Qed.

(** ** The walks under the server *)

Lemma update_entry_lookup i e' s j e :
  entries s !! j = Some e →
  entries (update_entry i e' s) !! j = Some (if decide (j = i) then e' else e).
Proof.
  intros Hj. simpl. case_decide as Hji.
  - subst j. apply list_lookup_insert_eq. by eapply lookup_lt_Some.
  - by rewrite list_lookup_insert_ne.
Qed.

Lemma abort_walker_move w : walker_move fs w (abort_walker w).
Proof.
  destruct (aborted (shared w)) eqn:Hab.
  - left. destruct w as [r [pr d a] pub st]. simpl in *. by subst a.
  - right. left. by apply scan_abort.
Qed.

(** Every step of the server moves every walk by a step of the walk. *)
Lemma server_walker_moves s s' j e :
  step fs s s' → entries s !! j = Some e →
  ∃ e', entries s' !! j = Some e' ∧ walker_move fs (walker e) (walker e').
Proof.
  intros Hstep Hj.
  assert (∀ i e0 w' s0,
    entries s0 !! j = Some e → entries s0 !! i = Some e0 →
    walker_move fs (walker e0) w' →
    ∀ sc, ∃ e', entries (update_entry i (mkEntry sc w') s0) !! j = Some e' ∧
                walker_move fs (walker e) (walker e')) as Hupd.
  { intros i e0 w' s0 Hj0 Hi Hmove sc.
    rewrite (update_entry_lookup _ _ _ _ _ Hj0). case_decide as Hji.
    - subst i. assert (e0 = e) as -> by congruence. eauto.
    - exists e. split; [done|by left]. }
  destruct Hstep as [resolved s|l s|i e0 sh' root' s Hi Hfill
                    |i e0 s Hi Hset Hab Hdirty|i e0 s Hi Hset Hret Hab
                    |i e0 s Hi Hset Hret Hab
                    |i e0 errName message s Hi Hset Hret Hab Hname].
  - unfold requestScan.
    destruct (subscribe_fields
                (if needsNew resolved s
                 then startBackgroundScan fs resolved s else s))
      as (-> & _ & _).
    destruct (needsNew resolved s); [|exists e; split; [done|by left]].
    unfold startBackgroundScan.
    destruct (activeScan s) as [a|];
      [|exists e; split; [by apply lookup_app_l_Some|by left]].
    destruct (entries s !! a) as [ea|] eqn:Hea;
      [|exists e; split; [by apply lookup_app_l_Some|by left]].
    destruct (done (scan ea));
      [exists e; split; [by apply lookup_app_l_Some|by left]|].
    simpl. destruct (decide (j = a)) as [->|Hne].
    + assert (ea = e) as -> by congruence. eexists. split.
      * apply lookup_app_l_Some, list_lookup_insert_eq.
        by eapply lookup_lt_Some.
      * apply abort_walker_move.
    + exists e. split; [|by left].
      apply lookup_app_l_Some. by rewrite list_lookup_insert_ne.
  - exists e. split; [done|by left].
  - apply (Hupd i e0 _ s Hj Hi). right. left. by apply scan_fill.
  - apply (Hupd i e0 _ s Hj Hi). right. left.
    pose proof (scan_tick fs MAX_DEPTH (walker e0) Hset Hab Hdirty) as Ht.
    by rewrite Hset in Ht |- *.
  - apply (Hupd i e0 _ s Hj Hi). right. left.
    pose proof (scan_return fs MAX_DEPTH (walker e0) Hset Hret) as Hr.
    by rewrite Hab in Hr.
  - unfold onRejected. simpl.
    apply (Hupd i e0 _ s Hj Hi). right. left.
    pose proof (scan_return fs MAX_DEPTH (walker e0) Hset Hret) as Hr.
    by rewrite Hab in Hr.
  - unfold onRejected. rewrite bool_decide_eq_false_2 by done.
    apply (Hupd i e0 _ s Hj Hi). right. right. eauto.
Qed.

(** ** What a step adds to the trace *)

Lemma startBackgroundScan_shape dirPath s :
  ∃ es c,
    startBackgroundScan fs dirPath s
    = mkState (es ++ [mkEntry (mkActiveScan dirPath None None false None)
                              (start_scan fs MAX_DEPTH dirPath false)])
              (Some (length es)) (sseListeners s) (nextListener s)
              (S (walkerStarts s)) (c ++ trace s) ∧
    (c = [] ∨ ∃ a, c = [Cancelled a]).
Proof.
  unfold startBackgroundScan.
  destruct (activeScan s) as [a|]; [|by exists (entries s), []; auto].
  destruct (entries s !! a) as [e|]; [|by exists (entries s), []; auto].
  destruct (done (scan e)); [by exists (entries s), []; auto|].
  eexists _, [Cancelled a]. eauto.
Qed.

Lemma needsNew_false resolved s :
  needsNew resolved s = false →
  ∃ a e, activeScan s = Some a ∧ entries s !! a = Some e ∧
         path (scan e) = resolved ∧
         (done (scan e) = false ∨ error (scan e) = None).
Proof.
  unfold needsNew. destruct (activeScan s) as [a|] eqn:Ha; [|done].
  destruct (entries s !! a) as [e|] eqn:He; [|done].
  intros [Hpath Herr]%orb_false_iff. exists a, e. split_and!; try done.
  - apply negb_false_iff in Hpath. by apply bool_decide_eq_true_1 in Hpath.
  - destruct (done (scan e)); [|by left]. right. simpl in Herr.
    apply bool_decide_eq_false in Herr.
    destruct (error (scan e)); [|done]. by destruct Herr.
Qed.

(** A step that delivers something delivers nothing about a cancelled
    scan and cancels nothing. *)
Lemma step_trace s s' :
  step fs s s' → inv s →
  ∃ added,
    trace s' = added ++ trace s ∧
    ∀ l i ev, Delivered l i ev ∈ added →
      (Cancelled i ∉ trace s) ∧ (∀ k, Cancelled k ∉ added).
Proof.
  intros Hstep Hinv.
  assert (∀ i e ev (ls : list nat),
    entries s !! i = Some e → aborted (shared (walker e)) = false →
    ∀ l' i' ev', Delivered l' i' ev'
                   ∈ reverse ((λ l, Delivered l i ev) <$> ls) →
      (Cancelled i' ∉ trace s) ∧
      (∀ k, Cancelled k ∉ reverse ((λ l, Delivered l i ev) <$> ls)))
    as Hcast.
  { intros i e ev ls Hi Hab l' i' ev'.
    rewrite elem_of_reverse, list_elem_of_fmap. intros (l & [= -> -> ->] & _).
    split.
    - intros Hc. destruct (inv_cancelled _ Hinv _ Hc) as (_ & e' & He' & Hab').
      congruence.
    - intros k. rewrite elem_of_reverse, list_elem_of_fmap.
      by intros (? & [=] & _). }
  destruct Hstep as [resolved s|l s|i e sh' root' s Hi Hfill
                    |i e s Hi Hset Hab Hdirty|i e s Hi Hset Hret Hab
                    |i e s Hi Hset Hret Hab
                    |i e errName message s Hi Hset Hret Hab Hname].
  - unfold requestScan. destruct (needsNew resolved s) eqn:Hnew.
    + destruct (startBackgroundScan_shape resolved s)
        as (es & c & -> & Hc).
      unfold subscribe. simpl.
      rewrite lookup_app_r, Nat.sub_diag by done. simpl.
      exists (Subscribed (nextListener s) (length es) :: c). split; [done|].
      intros l i ev [[=]|Hin]%elem_of_cons.
      destruct Hc as [->|[a ->]]; [by apply elem_of_nil in Hin|].
      by apply list_elem_of_singleton in Hin.
    + destruct (needsNew_false _ _ Hnew) as (a & e & Ha & He & _).
      assert (Cancelled a ∉ trace s) as Hnot
        by (intros Hc; by destruct (inv_cancelled _ Hinv _ Hc)).
      unfold subscribe. rewrite Ha, He.
      destruct (tree (scan e)) as [t|]; [destruct (done (scan e))|]; simpl.
      * eexists [_]. split; [done|].
        intros l i ev [= -> -> ->]%list_elem_of_singleton. split; [done|].
        intros k. by intros [=]%list_elem_of_singleton.
      * eexists [_; _]. split; [done|].
        intros l i ev [[=]|[= -> -> ->]%list_elem_of_singleton]%elem_of_cons.
        split; [done|].
        intros k [[=]|[=]%list_elem_of_singleton]%elem_of_cons.
      * eexists [_]. split; [done|].
        by intros l i ev [=]%list_elem_of_singleton.
  - exists []. split; [done|]. intros ? ? ? []%elem_of_nil.
  - exists []. split; [done|]. intros ? ? ? []%elem_of_nil.
  - eexists. split; [done|]. by eapply Hcast.
  - eexists. split; [done|]. by eapply Hcast.
  - exists []. split; [done|]. intros ? ? ? []%elem_of_nil.
  - unfold onRejected. rewrite bool_decide_eq_false_2 by done.
    eexists. split; [done|]. by eapply Hcast.
Qed.

Lemma step_cancelled_silent s s' :
  step fs s s' → inv s → cancelled_silent s → cancelled_silent s'.
Proof.
  intros Hstep Hinv Hsilent.
  destruct (step_trace _ _ Hstep Hinv) as (added & Htrace & Hadded).
  intros newer older i l ev Hsplit Hin. unfold split_at in Hsplit.
  rewrite Htrace in Hsplit.
  apply app_eq_inv in Hsplit as [(k & -> & Htr)|(k & -> & Htr)].
  - assert (Delivered l i ev ∈ newer ++ k) as Hin'
      by (apply elem_of_app; by left).
    destruct (Hadded _ _ _ Hin') as [Hnot Hno].
    destruct k as [|x k]; simpl in Htr.
    + apply Hnot. rewrite <- Htr. apply list_elem_of_here.
    + injection Htr as <- _. apply (Hno i).
      apply elem_of_app. right. apply list_elem_of_here.
  - apply elem_of_app in Hin as [Hin|Hin].
    + destruct (Hadded _ _ _ Hin) as [Hnot _]. apply Hnot.
      rewrite Htr. apply elem_of_app. right. apply list_elem_of_here.
    + by eapply (Hsilent k older i l ev).
Qed.

Lemma reachable_cancelled_silent s : reachable fs s → cancelled_silent s.
Proof.
  intros H.
  assert (∀ a b, rtc (step fs) a b → inv a → cancelled_silent a →
                 cancelled_silent b) as Hrtc.
  { induction 1 as [|a b c Hab _ IH]; [done|]. intros Ha Hsa.
    apply IH; [by eapply server_step_inv|by eapply step_cancelled_silent]. }
  eapply Hrtc; [exact H|apply server_init_inv|].
  intros newer older i l ev Hsplit. unfold split_at in Hsplit. simpl in Hsplit.
  by destruct newer.
Qed.


(** ** Running examples *)

Lemma perform_step a s s' : perform fs a s = Some s' → step fs s s'.
Proof.
  destruct a as [resolved|i|i|i]; simpl.
  - intros [= <-]. apply co_request.
  - destruct (entries s !! i) as [e|] eqn:He; simpl; [|done].
    destruct (fill_first _ _ _ _ _) as [x|] eqn:Hx; simpl; [|done].
    intros [= <-]. eapply co_fill; [done|]. by apply fill_first_sound.
  - destruct (entries s !! i) as [e|] eqn:He; simpl; [|done].
    destruct (settled (walker e)) eqn:Hset; [done|].
    destruct (aborted (shared (walker e))) eqn:Hab; [done|].
    destruct (dirty (shared (walker e))) eqn:Hdirty; [|done]. simpl.
    intros [= <-]. pose proof (co_tick fs i e s He Hset Hab Hdirty) as Hstep.
    simpl in Hstep. by rewrite Hab, Hset in Hstep.
  - destruct (entries s !! i) as [e|] eqn:He; simpl; [|done].
    destruct (settled (walker e)) eqn:Hset; [done|].
    destruct (is_returned (root (walker e))) eqn:Hret; [|done].
    destruct (aborted (shared (walker e))) eqn:Hab; [done|]. simpl.
    intros [= <-]. by apply co_resolve.
Qed.

Lemma perform_all_rtc acts s s' :
  perform_all fs acts s = Some s' → rtc (step fs) s s'.
Proof.
  revert s. induction acts as [|a acts IH]; intros s; simpl.
  - by intros [= <-].
  - destruct (perform fs a s) as [s1|] eqn:Ha; simpl; [|done].
    intros Hs'. eapply rtc_l; [by eapply perform_step|by apply IH].
Qed.

End ServerFacts.


Example request_examples :
  let fs := Fixtures.fs_x in
  let starts acts :=
    walkerStarts <$> perform_all fs acts init in
  starts [Request "/tmp/x"; Request "/tmp/x"] = Some 1%nat ∧
  starts [Request "/tmp/x"; Fill 0; Fill 0; Fill 0; Fill 0; Fill 0; Fill 0;
          Fill 0; Resolve 0; Request "/tmp/x"]%nat = Some 1%nat ∧
  starts [Request "/tmp/x"; Request "/tmp/x/b"] = Some 2%nat.
Proof. vm_compute. done. Qed.

(** C8, as it is stated, fails: the listeners are one set for all scans.
    In [two_clients] the first client subscribed to the scan of [/tmp/x];
    that scan is cancelled by the second request, and the first client
    then gets a progress event of the scan of [/tmp/x/b]. *)
Lemma superseded_subscriber_gets_events :
  ¬ (∀ s, reachable Fixtures.fs_x s → subscribers_silent s).
Proof.
  intros H.
  destruct (perform_all Fixtures.fs_x two_clients init) as [s|] eqn:Hs;
    [|by vm_compute in Hs].
  pose proof (perform_all_rtc _ _ _ _ Hs) as Hreach.
  specialize (H s Hreach).
  assert (∃ t pr older,
            trace s = [Delivered 1 1 (EvProgress t pr);
                       Delivered 0 1 (EvProgress t pr);
                       Subscribed 1 1] ++ Cancelled 0 :: older ∧
            Subscribed 0 0 ∈ older) as (t & pr & older & Htrace & Hsub).
  { vm_compute in Hs. injection Hs as <-. simpl.
    eexists _, _, _. split; [reflexivity|].
    apply list_elem_of_further, list_elem_of_here. }
  eapply (H _ _ 0%nat 0%nat 1%nat); [exact Htrace|exact Hsub|].
  apply list_elem_of_further, list_elem_of_here.
Qed.

(** C8, amended: after the signal of a scan has fired, no progress, done
    or error event about that scan is delivered to anyone, so the
    cancellation is not reported as an error; [ScanEvent] has no event for
    a cancellation.  The subscribers of the cancelled scan stay in
    [sseListeners]. *)
Theorem cancelled_scan_is_silent fs s :
  reachable fs s →
  cancelled_silent s ∧
  (∀ ev, (∃ t pr, ev = EvProgress t pr) ∨ (∃ t, ev = EvDone t) ∨
         (∃ message, ev = EvError message)) ∧
  (∀ resolved,
     sseListeners s ⊆ sseListeners (startBackgroundScan fs resolved s)).
Proof.
  intros Hs. split_and!.
  - by apply (reachable_cancelled_silent fs).
  - intros [t pr|t|message]; eauto.
  - intros resolved.
    destruct (startBackgroundScan_shape fs resolved s) as (es & c & -> & _).
    done.
Qed.

Lemma cancelled_scan_is_silent_witness :
  let fs := Fixtures.fs_x in
  let s := default init (perform_all fs two_clients init) in
  reachable fs s ∧
  (cancelled_silent s ∧
   (∀ ev, (∃ t pr, ev = EvProgress t pr) ∨ (∃ t, ev = EvDone t) ∨
          (∃ message, ev = EvError message)) ∧
   (∀ resolved,
      sseListeners s ⊆ sseListeners (startBackgroundScan fs resolved s))).
Proof.
  intros fs s.
  assert (reachable fs s) as Hs.
  { apply (perform_all_rtc fs two_clients). vm_compute. reflexivity. }
  split; [exact Hs|exact (cancelled_scan_is_silent fs s Hs)].
Defined.

End CoordinatorFacts.

(** * Main results *)

(** ** Snapshots *)

(** C1. In every snapshot that a streaming scan publishes (passed to
    [onProgress], or returned at the end), the size of every node whose
    children are present is the sum of the sizes of its children. *)
Theorem published_snapshot_sizes fs maxDepth dirPath signal s :
  reachable fs maxDepth dirPath signal s →
  (∀ t pr, (t, pr) ∈ published s → tree_all sum_ok 0 t) ∧
  (∀ t, settled s = Some (Resolved t) → tree_all sum_ok 0 t).
Proof.
  intros Hs. pose proof (reachable_inv _ _ _ _ _ Hs) as Hinv. split.
  - intros t pr Hin. pose proof (inv_published _ _ _ Hinv) as Hpub.
    rewrite Forall_forall in Hpub. destruct (Hpub _ Hin) as [Hw _].
    by eapply snapshot_of_walk_sum_ok.
  - intros t Ht. destruct (inv_resolved _ _ _ Hinv t Ht) as (Hw & _).
    by eapply snapshot_of_walk_sum_ok.
Qed.

Lemma published_snapshot_sizes_witness :
  let s := run Fixtures.fs_x 8 100 (start_scan Fixtures.fs_x 8 "/tmp/x" false) in
  reachable Fixtures.fs_x 8 "/tmp/x" false s ∧
  ((∀ t pr, (t, pr) ∈ published s → tree_all sum_ok 0 t) ∧
   (∀ t, settled s = Some (Resolved t) → tree_all sum_ok 0 t)).
Proof.
  intros s. split; [apply run_reachable|].
  apply (published_snapshot_sizes Fixtures.fs_x 8 "/tmp/x" false s).
  apply run_reachable.
Defined.



(** Every node of a snapshot has its children in descending order of
    size: the second pass of [recalcSizes] sorts again after the cap. *)
Lemma published_snapshot_sorted fs maxDepth dirPath signal s :
  reachable fs maxDepth dirPath signal s →
  (∀ t pr, (t, pr) ∈ published s → tree_all children_sorted 0 t) ∧
  (∀ t, settled s = Some (Resolved t) → tree_all children_sorted 0 t).
Proof.
  intros Hs. pose proof (reachable_inv _ _ _ _ _ Hs) as Hinv. split.
  - intros t pr Hin. pose proof (inv_published _ _ _ Hinv) as Hpub.
    rewrite Forall_forall in Hpub.
    destruct (Hpub _ Hin) as [(ab & w & _ & Heq) _]. simpl in Heq.
    subst t. apply snapshot_sorted.
  - intros t Ht.
    destruct (inv_resolved _ _ _ Hinv t Ht) as ((ab & w & _ & ->) & _).
    apply snapshot_sorted.
Qed.

(** C3. The one-shot walk sorts the children and then appends the
    synthetic node without sorting again: over [fs_wide] the directory
    [/r/a/b], at depth 2, gets thirty children of one byte followed by a
    synthetic node of two bytes. *)
Theorem scanDirectory_other_node_unsorted :
  ∃ t b cs,
    scanDirectory Fixtures.fs_wide "/r" 8 = Some t ∧
    descend [0; 0]%nat t = Some b ∧
    children b = Some cs ∧
    size <$> cs = replicate 30 1 ++ [2] ∧
    ¬ sorted_desc cs ∧
    ¬ tree_all children_sorted 0 t.
Proof.
  destruct (scanDirectory Fixtures.fs_wide "/r" 8) as [t|] eqn:Ht;
    [|by vm_compute in Ht].
  destruct (descend [0; 0]%nat t) as [b|] eqn:Hb;
    [|vm_compute in Ht; injection Ht as <-; by vm_compute in Hb].
  destruct (children b) as [cs|] eqn:Hcs;
    [|vm_compute in Ht; injection Ht as <-; vm_compute in Hb;
      injection Hb as <-; by vm_compute in Hcs].
  assert (size <$> cs = replicate 30 1 ++ [2]) as Hsizes.
  { vm_compute in Ht. injection Ht as <-. vm_compute in Hb.
    injection Hb as <-. vm_compute in Hcs. injection Hcs as <-.
    vm_compute. reflexivity. }
  assert (¬ sorted_desc cs) as Hunsorted.
  { intros Hsorted.
    assert (StronglySorted (λ x y : Z, y ≤ x) (size <$> cs)) as Hz.
    { clear -Hsorted. induction Hsorted as [|c cs _ IH Hc]; csimpl;
        constructor; [done|]. by apply Forall_fmap. }
    rewrite Hsizes in Hz. clear -Hz.
    change (replicate 30 1) with (1 :: replicate 29 1) in Hz.
    rewrite <- app_comm_cons in Hz.
    apply StronglySorted_inv in Hz as [_ Hall].
    apply Forall_app in Hall as [_ Hlast].
    apply Forall_cons in Hlast as [Hlast _]. lia. }
  exists t, b, cs. split_and!; try done.
  intros Hall. apply Hunsorted.
  apply (Hall 2%nat b); [|done].
  by apply (descend_subnodes [0; 0]%nat t 0).
Qed.

(** ** The streaming walk *)

(** C5. While the signal is not aborted, a directory of the working tree
    at depth [maxDepth] is marked [truncated], has no [children], and once
    [fillNode] has returned on it its size is the answer of
    [fastDirSize]; that answer is 0 when [du] fails (process error or
    timeout) and when its output does not parse. *)
Theorem truncated_at_max_depth fs maxDepth dirPath signal s d n :
  reachable fs maxDepth dirPath signal s →
  aborted (shared s) = false →
  (d, n) ∈ work_nodes 0 (root s) →
  d = maxDepth →
  w_type n = directory →
  w_truncated n = true ∧
  w_children n = None ∧
  (w_fill n = Returned → w_size n = fastDirSize fs (w_path n) false) ∧
  (du fs (w_path n) = None → fastDirSize fs (w_path n) false = 0) ∧
  (∀ text, du fs (w_path n) = Some text →
           parseInt (before_tab text) = None →
           fastDirSize fs (w_path n) false = 0).
Proof.
  intros Hs Hab Hn -> Hdir.
  pose proof (inv_ok _ _ _ (reachable_inv _ _ _ _ _ Hs)) as Hok.
  rewrite Hab in Hok.
  pose proof (ok_work_nodes _ _ _ _ _ _ _ Hok Hn) as Hokn.
  destruct (ok_at_limit _ _ _ _ Hokn (le_n _) Hdir) as (Htr & Hch & Hsize).
  split_and!; try done.
  - unfold fastDirSize. by intros ->.
  - unfold fastDirSize. by intros text -> ->.
Qed.

Lemma truncated_at_max_depth_witness :
  let fs := Fixtures.fs_x_du in
  let s := run fs 1 100 (start_scan fs 1 "/tmp/x" false) in
  let n := default (root s) (work_descend [0]%nat (root s)) in
  (reachable fs 1 "/tmp/x" false s ∧
   aborted (shared s) = false ∧
   (1%nat, n) ∈ work_nodes 0 (root s) ∧
   1%nat = 1%nat ∧
   w_type n = directory) ∧
  w_truncated n = true ∧
  w_children n = None ∧
  (w_fill n = Returned → w_size n = fastDirSize fs (w_path n) false) ∧
  (du fs (w_path n) = None → fastDirSize fs (w_path n) false = 0) ∧
  (∀ text, du fs (w_path n) = Some text →
           parseInt (before_tab text) = None →
           fastDirSize fs (w_path n) false = 0).
Proof.
  intros fs s n.
  assert (reachable fs 1 "/tmp/x" false s) as Hs by apply run_reachable.
  assert (aborted (shared s) = false) as Hab by (vm_compute; reflexivity).
  assert ((1%nat, n) ∈ work_nodes 0 (root s)) as Hn
    by (apply (work_descend_nodes [0]%nat _ 0); vm_compute; reflexivity).
  assert (w_type n = directory) as Hdir by (vm_compute; reflexivity).
  split; [done|].
  exact (truncated_at_max_depth fs 1 "/tmp/x" false s 1 n Hs Hab Hn
           eq_refl Hdir).
Defined.

(** The size that the run above gives to the truncated directory:
    28 kilobytes. *)
Example truncated_size_example :
  let fs := Fixtures.fs_x_du in
  let s := run fs 1 100 (start_scan fs 1 "/tmp/x" false) in
  (λ n, (w_truncated n, w_children n, w_size n))
    <$> work_descend [0]%nat (root s)
  = Some (true, None, 28672).
Proof. vm_compute. reflexivity. Qed.

(** C10. The counters of a streaming scan: [dirsFound] is the number of
    directories of the working tree (1 at the start, for the root, and
    one more for each placeholder), [dirsCompleted] never exceeds it and
    counts, while the signal is not aborted, the directories on which
    [fillNode] has returned; when the scan resolves, the two are equal. *)
Theorem progress_counters fs maxDepth dirPath signal s :
  reachable fs maxDepth dirPath signal s →
  let pr := progress (shared s) in
  dirsFound (progress (shared (start_scan fs maxDepth dirPath signal))) = 1%nat ∧
  dirsCompleted (progress (shared (start_scan fs maxDepth dirPath signal))) = 0%nat ∧
  (dirsCompleted pr ≤ dirsFound pr)%nat ∧
  dirsFound pr = count_dirs (root s) ∧
  (aborted (shared s) = false → dirsCompleted pr = count_returned (root s)) ∧
  (∀ t p, (t, p) ∈ published s → (dirsCompleted p ≤ dirsFound p)%nat) ∧
  (∀ t, settled s = Some (Resolved t) → dirsCompleted pr = dirsFound pr).
Proof.
  intros Hs pr.
  destruct (reachable_inv _ _ _ _ _ Hs)
    as [Hok Hfound Hcomp Hcompeq Hpub Hres Hrej].
  split_and!; try done.
  - pose proof (count_returned_le (root s)). unfold pr. lia.
  - intros t p Hin. rewrite Forall_forall in Hpub.
    by destruct (Hpub _ Hin).
  - intros t Ht. by destruct (Hres t Ht) as (_ & _ & ?).
Qed.

Lemma progress_counters_witness :
  let fs := Fixtures.fs_x in
  let s := run fs 8 100 (start_scan fs 8 "/tmp/x" false) in
  reachable fs 8 "/tmp/x" false s ∧
  let pr := progress (shared s) in
  dirsFound (progress (shared (start_scan fs 8 "/tmp/x" false))) = 1%nat ∧
  dirsCompleted (progress (shared (start_scan fs 8 "/tmp/x" false))) = 0%nat ∧
  (dirsCompleted pr ≤ dirsFound pr)%nat ∧
  dirsFound pr = count_dirs (root s) ∧
  (aborted (shared s) = false → dirsCompleted pr = count_returned (root s)) ∧
  (∀ t p, (t, p) ∈ published s → (dirsCompleted p ≤ dirsFound p)%nat) ∧
  (∀ t, settled s = Some (Resolved t) → dirsCompleted pr = dirsFound pr).
Proof.
  intros fs s. split; [apply run_reachable|].
  apply (progress_counters fs 8 "/tmp/x" false s). apply run_reachable.
Defined.

(** C9. Both walks finish, whatever the file system lists (a symbolic
    link to a directory above it included), and the symbolic links leave
    no trace in their trees: every node below the root is a synthetic node
    or was made for a listed entry that is not a symbolic link, and the
    walks do over the file system what they do over the same file system
    without its symbolic links.  For the streaming walk: no run is longer
    than [scan_cost], a scan that has not settled can take a step, and
    the scheduler settles it. *)
Theorem walks_skip_symlinks_and_finish fs maxDepth dirPath signal :
  let start := start_scan fs maxDepth dirPath signal in
  (∃ t, scanDirectory fs dirPath maxDepth = Some t ∧
        tree_all (from_listing fs) 0 t) ∧
  scanDirectory (without_symlinks fs) dirPath maxDepth
    = scanDirectory fs dirPath maxDepth ∧
  (∀ s, reachable fs maxDepth dirPath signal s →
        (∀ t pr, (t, pr) ∈ published s → tree_all (from_listing fs) 0 t) ∧
        (∀ t, settled s = Some (Resolved t) →
              tree_all (from_listing fs) 0 t) ∧
        (settled s = None → ∃ s', scan_step fs maxDepth s s')) ∧
  (∀ s, reachable (without_symlinks fs) maxDepth dirPath signal s ↔
        reachable fs maxDepth dirPath signal s) ∧
  (∀ k s, nsteps (scan_step fs maxDepth) k start s →
          (k ≤ scan_cost fs maxDepth start)%nat) ∧
  is_Some (settled (run fs maxDepth (scan_cost fs maxDepth start) start)).
Proof.
  intros start. split_and!.
  - destruct (scanDirectory_fuel_total fs (S maxDepth) dirPath maxDepth 0)
      as [t Ht]; [lia|].
    exists t. split; [done|]. by eapply scanDirectory_fuel_from_listing.
  - apply scanDirectory_fuel_without_symlinks.
  - intros s Hs. pose proof (reachable_inv _ _ _ _ _ Hs) as Hinv.
    split_and!.
    + intros t pr Hin. pose proof (inv_published _ _ _ Hinv) as Hpub.
      rewrite Forall_forall in Hpub. destruct (Hpub _ Hin) as [Hw _].
      by eapply snapshot_of_walk_from_listing.
    + intros t Ht. destruct (inv_resolved _ _ _ Hinv t Ht) as (Hw & _).
      by eapply snapshot_of_walk_from_listing.
    + intros Hset. destruct (scan_first_progress _ _ s Hinv Hset) as [s' Hs'].
      exists s'. by apply scan_first_sound.
  - intros s. apply reachable_without_symlinks.
  - intros k s Hsteps. subst start.
    pose proof (nsteps_scan_cost _ _ _ _ _ (start_scan_inv _ _ _ _) Hsteps).
    lia.
  - apply run_settles; [apply start_scan_inv|done].
Qed.

(** A symbolic link to the directory itself: the walks list it and do not
    follow it. *)
Example symlink_cycle_example :
  let fs := Fixtures.fs_loop in
  (λ t, (size t, name <$> default [] (children t)))
    <$> scanDirectory fs "/loop" 8 = Some (7, ["data"]) ∧
  (λ x, match x with
        | Resolved t => Some (size t, name <$> default [] (children t))
        | _ => None
        end)
    <$> settled (run fs 8 10 (start_scan fs 8 "/loop" false))
  = Some (Some (7, ["data"])).
Proof. vm_compute. done. Qed.

Lemma sumZ_app {A} (f : A → Z) l1 l2 : sumZ f (l1 ++ l2) = sumZ f l1 + sumZ f l2.
Proof. induction l1 as [|x l1 IH]; simpl; lia. Qed.

Lemma sumZ_nonneg {A} (f : A → Z) l : Forall (λ x, 0 ≤ f x) l → 0 ≤ sumZ f l.
Proof. induction 1; simpl; lia. Qed.

Lemma total_sumZ cs : total cs = sumZ size cs.
Proof. done. Qed.

(** The cap keeps the sum of the sizes, when no size is negative. *)
Lemma limit_children_total p d cs :
  Forall (λ c, 0 ≤ size c) cs → total (limit_children p d cs) = total cs.
Proof.
  intros Hpos.
  destruct (limit_children_cases p d cs) as [[-> _]|(_ & _ & ->)]; [done|].
  assert (total cs = total (take MAX_CHILDREN cs)
                     + total (drop MAX_CHILDREN cs)) as ->.
  { by rewrite <- total_app, take_drop. }
  rewrite total_app, sum_sizes_total.
  assert (0 ≤ total (drop MAX_CHILDREN cs)) as Hdrop.
  { apply (sumZ_nonneg size). by apply Forall_drop. }
  destruct (Z.ltb_spec 0 (total (drop MAX_CHILDREN cs))); simpl; lia.
Qed.

Section OneShotSizes.
Variable fs : FileSystem.

Lemma walk_total_nonneg levels p : sizes_nonneg fs → 0 ≤ walk_total fs levels p.
Proof.
  intros [Hstat Hdu]. revert p. induction levels as [|levels IH]; intros p; simpl.
  - apply Hdu.
  - destruct (readdir fs p) as [entries|]; [|done].
    apply sumZ_nonneg, Forall_forall. intros e _. unfold entry_bytes.
    destruct (isSymbolicLink e); [done|].
    destruct (isDirectory e); [apply IH|].
    destruct (isFile e); [|done].
    destruct (stat fs _) as [sz|] eqn:Hsz; simpl; [by eapply Hstat|done].
Qed.

(** The children that the one-shot walk makes for a listing weigh what
    the entries stand for. *)
Lemma scan_entries_total (rec : string → option TreeNode) (tot : string → Z)
    dirPath entries results :
  (∀ p c, rec p = Some c → size c = tot p) →
  mapM (scan_entry fs rec dirPath) entries = Some results →
  total (omap id results) = sumZ (entry_bytes fs tot dirPath) entries.
Proof.
  intros Hrec Hres. apply mapM_Some in Hres.
  induction Hres as [|entry r entries results Hr _ IH]; [done|].
  cbn [sumZ foldr]. fold (sumZ (entry_bytes fs tot dirPath) entries).
  rewrite <- IH. clear IH.
  unfold scan_entry, entry_bytes in *.
  destruct (isSymbolicLink entry); [by injection Hr as <-|].
  destruct (isDirectory entry).
  - destruct (rec _) as [c|] eqn:Hc; simpl in Hr; [|done].
    injection Hr as <-. simpl. by rewrite (Hrec _ _ Hc).
  - destruct (isFile entry); [|by injection Hr as <-].
    injection Hr as <-. by destruct (stat fs _).
Qed.

Lemma scan_entries_nonneg (rec : string → option TreeNode) dirPath entries
    results :
  sizes_nonneg fs →
  (∀ p c, rec p = Some c → 0 ≤ size c) →
  mapM (scan_entry fs rec dirPath) entries = Some results →
  Forall (λ c, 0 ≤ size c) (omap id results).
Proof.
  intros [Hstat _] Hrec Hres. apply mapM_Some in Hres.
  induction Hres as [|entry r entries results Hr _ IH]; [done|].
  unfold scan_entry in Hr.
  destruct (isSymbolicLink entry); [by injection Hr as <-|].
  destruct (isDirectory entry).
  - destruct (rec _) as [c|] eqn:Hc; simpl in Hr; [|done].
    injection Hr as <-. simpl. constructor; [by eapply Hrec|done].
  - destruct (isFile entry); [|by injection Hr as <-].
    injection Hr as <-. destruct (stat fs _) as [sz|] eqn:Hsz; simpl; [|done].
    constructor; [by eapply Hstat|done].
Qed.

Lemma scanDirectory_fuel_size fuel dirPath maxDepth depth t :
  sizes_nonneg fs →
  scanDirectory_fuel fs fuel dirPath maxDepth depth = Some t →
  size t = walk_total fs (maxDepth - depth) dirPath.
Proof.
  intros Hpos. revert dirPath depth t.
  induction fuel as [|fuel IH]; intros dirPath depth t; simpl; [done|].
  case_bool_decide as Hmax.
  { intros [= <-]. by replace (maxDepth - depth)%nat with 0%nat by lia. }
  replace (maxDepth - depth)%nat with (S (maxDepth - S depth)) by lia.
  simpl. destruct (readdir fs dirPath) as [entries|]; [|by intros [= <-]].
  destruct (mapM _ entries) as [results|] eqn:Hres; simpl; [|done].
  intros [= <-]. simpl.
  pose proof (scan_entries_total _ (walk_total fs (maxDepth - S depth))
                _ _ _ (λ p c, IH p (S depth) c) Hres) as Htot.
  rewrite sum_sizes_total, limit_children_total.
  - by rewrite (total_perm _ _ (js_sort_perm _ _)).
  - rewrite js_sort_perm. eapply scan_entries_nonneg; [done| |done].
    intros p c Hc. simpl in Hc. rewrite (IH _ _ _ Hc).
    by apply walk_total_nonneg.
Qed.

End OneShotSizes.

(** ** The streaming walk gathers the same bytes *)

Lemma sumZ_cons {A} (f : A → Z) x l : sumZ f (x :: l) = f x + sumZ f l.
Proof. done. Qed.

Lemma sumZ_middle {A} (f : A → Z) before c after :
  sumZ f (before ++ c :: after) = sumZ f before + f c + sumZ f after.
Proof. rewrite sumZ_app. simpl. lia. Qed.

Lemma total_fmap {A} (f : A → TreeNode) l : total (f <$> l) = sumZ (size ∘ f) l.
Proof.
  unfold total, sumZ. induction l as [|x l IH]; csimpl; [done|].
  by rewrite IH.
Qed.

Lemma recalcSizes_size_total t cs :
  children t = Some cs → cs ≠ [] →
  size (recalcSizes t) = total (recalcSizes <$> cs).
Proof.
  intros Hcs Hne. rewrite recalcSizes_size, Hcs.
  destruct cs as [|c cs]; [done|].
  by rewrite sum_sizes_total, (total_perm _ _ (js_sort_perm _ _)).
Qed.

(** Sizes that are not negative stay so, and the cap of a snapshot does
    not change the size of a node. *)
Lemma recalcSizes_size_nonneg t d :
  tree_all (λ _ m, 0 ≤ size m) d t → 0 ≤ size (recalcSizes t).
Proof.
  revert d.
  induction t as [n p s ty e tr|n p s ty e cs tr IH]
    using TreeNode_forall_ind; intros d Hall.
  - apply (tree_all_here _ _ _ Hall).
  - destruct (decide (cs = [])) as [->|Hne]; [apply (tree_all_here _ _ _ Hall)|].
    rewrite (recalcSizes_size_total _ cs) by done.
    rewrite total_fmap. apply sumZ_nonneg.
    pose proof (tree_all_children _ _ _ _ Hall eq_refl) as Hcs.
    rewrite Forall_forall in IH, Hcs |- *. intros c Hc.
    by apply (IH c Hc (S d)), Hcs.
Qed.

Lemma recalcSizes_nonneg t d :
  tree_all (λ _ m, 0 ≤ size m) d t →
  tree_all (λ _ m, 0 ≤ size m) d (recalcSizes t).
Proof.
  apply (tree_all_recalcSizes (λ _ m, 0 ≤ size m) (λ _ m, 0 ≤ size m)).
  intros d' t'. apply recalcSizes_size_nonneg.
Qed.

Lemma cap_keeps_size u d :
  tree_all sum_ok d u → tree_all (λ _ m, 0 ≤ size m) d u →
  size (recalcSizes (applyChildLimits u d)) = size u.
Proof.
  revert d.
  induction u as [n p s ty e tr|n p s ty e cs tr IH]
    using TreeNode_forall_ind; intros d Hsum Hpos; [done|].
  destruct (decide (cs = [])) as [->|Hne]; [done|].
  pose proof (tree_all_children _ _ _ _ Hsum eq_refl) as Hsums.
  pose proof (tree_all_children _ _ _ _ Hpos eq_refl) as Hposs.
  pose proof (tree_all_here _ _ _ Hsum cs eq_refl) as Hsize.
  simpl in Hsize.
  set (u := mkNode n p s ty e (Some cs) tr).
  set (l := (λ c, applyChildLimits c (S d)) <$> cs).
  assert (children (applyChildLimits u d) = Some (limit_children p d l))
    as Hch by (by rewrite applyChildLimits_children).
  assert (l ≠ []) as Hl by (subst l; by destruct cs).
  rewrite (recalcSizes_size_total _ _ Hch)
    by (by apply limit_children_nonempty).
  assert (∀ k : nat, total (recalcSizes <$> take k l) = total (take k cs))
    as Htake.
  { intros k. subst l. rewrite <- fmap_take, <- list_fmap_compose, total_fmap.
    assert (Forall (λ c, (size ∘ (recalcSizes ∘ (λ c, applyChildLimits c (S d)))) c
                         = size c) (take k cs)) as Hall.
    { apply Forall_take. rewrite Forall_forall in IH, Hsums, Hposs |- *.
      intros c Hc. simpl. by apply IH; [|apply Hsums|apply Hposs]. }
    clear -Hall. induction Hall as [|c cs' Hc _ IHl]; simpl; [done|].
    simpl in Hc. rewrite Hc, IHl. done. }
  assert (∀ k : nat, total (drop k l) = total (drop k cs)) as Hdrop.
  { intros k. subst l. rewrite <- fmap_drop.
    apply total_map_same, Forall_forall. intros c _.
    apply applyChildLimits_size. }
  assert (0 ≤ total (drop MAX_CHILDREN cs)) as Hdpos.
  { apply (sumZ_nonneg size), Forall_drop.
    rewrite Forall_forall in Hposs |- *. intros c Hc.
    apply (tree_all_here _ _ _ (Hposs c Hc)). }
  assert (total cs = total (take MAX_CHILDREN cs)
                     + total (drop MAX_CHILDREN cs)) as Hsplit.
  { by rewrite <- total_app, take_drop. }
  subst u. simpl. rewrite Hsize.
  destruct (limit_children_cases p d l) as [[-> _]|(_ & _ & ->)].
  - rewrite <- (firstn_all l), Htake.
    replace (length l) with (length cs) by (subst l; by rewrite length_fmap).
    by rewrite firstn_all.
  - rewrite fmap_app, total_app, Htake, sum_sizes_total, Hdrop, Hsplit.
    f_equal.
    destruct (Z.ltb_spec 0 (total (drop MAX_CHILDREN cs))); simpl;
      rewrite ?recalcSizes_other_node; simpl; lia.
Qed.

Lemma snapshot_at_size t d :
  tree_all empty_zero d t → tree_all (λ _ m, 0 ≤ size m) d t →
  size (snapshot_at d t) = size (recalcSizes t).
Proof.
  intros Hzero Hpos. unfold snapshot_at. apply cap_keeps_size.
  - by apply recalcSizes_sum_ok.
  - by apply recalcSizes_nonneg.
Qed.

#[local] Arguments fastDirSize : simpl never.

Section AccountingFacts.
Variable fs : FileSystem.
Variable maxDepth : nat.
Hypothesis Hpos : sizes_nonneg fs.

Lemma gathered_leaf n : w_children n = None → gathered n = w_size n.
Proof. destruct n as [nm p s ty e ch tr st]. simpl. by intros ->. Qed.

Lemma gathered_children n cs :
  w_children n = Some cs → w_size n = 0 → gathered n = sumZ gathered cs.
Proof.
  destruct n as [nm p s ty e ch tr st]. simpl. intros -> ->.
  destruct (decide (cs = [])) as [->|Hne]; [done|].
  unfold gathered at 1.
  rewrite (recalcSizes_size_total _ (erase <$> cs)); [|done|by destruct cs].
  by rewrite <- list_fmap_compose, total_fmap.
Qed.

Lemma gathered_expanded nm p ty e cs tr st :
  gathered (mkWork nm p 0 ty e (Some cs) tr st) = sumZ gathered cs.
Proof. by apply gathered_children. Qed.

Lemma all_returned_remaining d n :
  all_returned n = true → remaining fs maxDepth d n = 0.
Proof.
  revert d.
  induction n as [nm p s ty e tr st|nm p s ty e cs tr st IH]
    using WorkNode_forall_ind; intros d; simpl; destruct st; try done.
  intros Hall%forallb_Forall.
  assert (sumZ (remaining fs maxDepth (S d)) cs = 0) as ->; [|done].
  induction cs as [|c cs IHcs]; [done|].
  apply Forall_cons in IH as [IHc IH], Hall as [Hc Hall].
  simpl. rewrite (IHc (S d) Hc), (IHcs IH Hall). done.
Qed.

Lemma remaining_nonneg d n : 0 ≤ remaining fs maxDepth d n.
Proof.
  destruct Hpos as [Hstat Hdu]. revert d.
  assert (∀ p stats, 0 ≤ sumZ (stat_bytes fs p) stats) as Hstats.
  { intros p stats. apply sumZ_nonneg, Forall_forall. intros e _.
    unfold stat_bytes. destruct (stat fs _) eqn:Hsz; simpl; [|done].
    by eapply Hstat. }
  induction n as [nm p s ty e tr st|nm p s ty e cs tr st IH]
    using WorkNode_forall_ind; intros d; simpl.
  - destruct st; rewrite ?Z.add_0_r; try done.
    by apply walk_total_nonneg.
  - assert (0 ≤ sumZ (remaining fs maxDepth (S d)) cs).
    { apply sumZ_nonneg. rewrite Forall_forall in IH |- *.
      intros c Hc. by apply IH. }
    destruct st; try lia.
    + specialize (Hdu p). lia.
    + pose proof (walk_total_nonneg fs (maxDepth - d) p Hpos). lia.
    + specialize (Hstats p stats). lia.
Qed.

(** The placeholders weigh nothing yet; with the calls of [stat] they
    stand for the whole listing. *)
Lemma spawned_remaining d sh p entries :
  aborted sh = false →
  let dirs := omap (spawn_dir fs maxDepth d sh p) entries in
  let stats := filter (λ e, spawn_stat sh e = true) entries in
  sumZ gathered dirs = 0 ∧
  sumZ (stat_bytes fs p) stats + sumZ (remaining fs maxDepth (S d)) dirs
  = sumZ (entry_bytes fs (walk_total fs (maxDepth - S d)) p) entries.
Proof.
  intros Hab. induction entries as [|e entries (IH1 & IH2)]; [done|].
  rewrite !filter_cons. cbn [omap list_omap].
  destruct (spawn_dir fs maxDepth d sh p e) as [c|] eqn:Hc.
  - apply spawn_dir_Some in Hc as (Hsym & Hdir & ->); [|done].
    assert (spawn_stat sh e ≠ true) as Hst
      by (unfold spawn_stat; by rewrite Hsym, Hdir, andb_false_r).
    rewrite (decide_False _ _ Hst).
    rewrite !sumZ_cons, IH1, <- IH2. unfold entry_bytes. rewrite Hsym, Hdir.
    split; [done|].
    case_bool_decide as Hmax; simpl; [|lia].
    replace (maxDepth - S d)%nat with 0%nat by lia. simpl. lia.
  - unfold spawn_dir in Hc. rewrite Hab in Hc.
    split; [done|].
    rewrite sumZ_cons, <- IH2. unfold entry_bytes.
    destruct (spawn_stat sh e) eqn:Hst; unfold spawn_stat in Hst;
      rewrite Hab in Hst;
      destruct (isSymbolicLink e), (isDirectory e), (isFile e); try done;
      simpl; unfold stat_bytes; lia.
Qed.

(** One continuation moves bytes from what is to come to what is
    gathered. *)
Lemma fill_step_balance d sh n sh' n' :
  fill_step fs maxDepth d sh n sh' n' →
  aborted sh = false →
  ok fs maxDepth false d n →
  gathered n' + remaining fs maxDepth d n'
  = gathered n + remaining fs maxDepth d n.
Proof.
  induction 1 as [d sh n Hfill|d sh n Hfill|d sh n before entry after Hfill
                 |d sh n cs Hfill Hcs Hall
                 |d sh n stats before c after sh' c' Hfill Hcs Hstep IH];
    intros Hab Hok; destruct Hok; simpl in Hfill; try discriminate.
  - (* the size has arrived *)
    simpl. rewrite Hab. unfold gathered. simpl. lia.
  - (* the listing has arrived *)
    unfold after_readdir. simpl.
    replace (maxDepth - d)%nat with (S (maxDepth - S d)) by lia. simpl.
    destruct (readdir fs p) as [entries|] eqn:Hls; [|done].
    rewrite Hab.
    set (sh1 := find_dirs _ sh).
    assert (aborted sh1 = false) as Hab1 by done.
    destruct (spawned_remaining d sh1 p entries Hab1) as [Hg Hr].
    cbn [snd]. unfold set_fill, set_children. simpl.
    rewrite gathered_expanded, Hg.
    unfold gathered at 1. simpl. lia.
  - (* one [stat] has settled *)
    injection Hfill as ->.
    unfold after_stat. simpl. rewrite sumZ_middle.
    unfold stat_bytes at 2.
    destruct (stat fs _) as [sz|]; cbn [snd]; unfold set_fill, set_children;
      simpl.
    + rewrite !gathered_expanded, !sumZ_app. simpl.
      unfold gathered at 2. simpl. lia.
    + rewrite !gathered_expanded, !sumZ_app. lia.
  - (* every promise has settled *)
    injection Hcs as <-. injection Hfill as ->. simpl. unfold set_fill. simpl.
    rewrite !gathered_expanded. lia.
  - (* a continuation below *)
    injection Hcs as ->.
    match goal with H : Forall (ok _ _ _ (S _)) _ |- _ =>
      apply Forall_app in H as [_ Hc]; apply Forall_cons in Hc as [Hc _] end.
    specialize (IH Hab Hc). unfold set_children. simpl.
    rewrite !gathered_expanded, !sumZ_middle. lia.
Qed.

Lemma fill_step_nonneg d sh n sh' n' :
  fill_step fs maxDepth d sh n sh' n' →
  nonneg_sizes n = true → nonneg_sizes n' = true.
Proof.
  destruct Hpos as [Hstat Hdu].
  induction 1 as [d sh n Hfill|d sh n Hfill|d sh n before entry after Hfill
                 |d sh n cs Hfill Hcs Hall
                 |d sh n stats before c after sh' c' Hfill Hcs Hstep IH];
    destruct n as [nm p s ty e ch tr st]; simpl in *; subst.
  - intros [Hs Hch]%andb_prop. rewrite Hch, andb_true_r.
    apply Z.leb_le. unfold fastDirSize. destruct (aborted sh); [done|].
    apply Hdu.
  - unfold after_readdir. simpl.
    destruct (readdir fs p) as [entries|]; [|done].
    destruct (aborted sh) eqn:Hab; [done|]. simpl.
    intros [Hs _]%andb_prop. rewrite Hs. simpl.
    apply forallb_Forall, Forall_forall.
    intros c (entry & _ & Hc)%list_elem_of_omap.
    apply spawn_dir_Some in Hc as (_ & _ & ->); done.
  - unfold after_stat. simpl.
    destruct (stat fs _) as [sz|] eqn:Hsz; [|done]. simpl.
    intros [Hs Hch]%andb_prop. rewrite Hs. simpl.
    rewrite forallb_app. simpl.
    apply Hstat, Z.leb_le in Hsz. rewrite Hsz, !andb_true_r.
    by destruct ch.
  - done.
  - intros [Hs Hch]%andb_prop. rewrite Hs. simpl.
    rewrite forallb_app in Hch |- *. simpl in *.
    apply andb_prop in Hch as [Hb [Hc Ha]%andb_prop].
    by rewrite Hb, Ha, (IH Hc).
Qed.

Lemma nonneg_sizes_erase n d :
  nonneg_sizes n = true → tree_all (λ _ m, 0 ≤ size m) d (erase n).
Proof.
  revert d.
  induction n as [nm p s ty e tr st|nm p s ty e cs tr st IH]
    using WorkNode_forall_ind; intros d; simpl;
    intros [Hs Hch]%andb_prop; apply Z.leb_le in Hs.
  - by apply tree_all_leaf.
  - apply tree_all_intro; [done|]. intros ? [= <-].
    apply forallb_Forall in Hch.
    rewrite Forall_fmap. rewrite Forall_forall in IH, Hch |- *.
    intros c Hc. by apply IH, Hch.
Qed.

(** The size of a snapshot of the walk is what the walk has gathered. *)
Lemma snapshot_gathered ab w :
  ok fs maxDepth ab 0 w → nonneg_sizes w = true →
  size (snapshot (erase w)) = gathered w.
Proof.
  intros Hok Hnn. apply (snapshot_at_size _ 0).
  - by eapply ok_empty_zero.
  - by apply nonneg_sizes_erase.
Qed.

Lemma gathered_nonneg w : nonneg_sizes w = true → 0 ≤ gathered w.
Proof.
  intros Hnn. apply (recalcSizes_size_nonneg _ 0).
  by apply nonneg_sizes_erase.
Qed.

Lemma start_scan_totals dirPath signal :
  totals_inv fs maxDepth dirPath (start_scan fs maxDepth dirPath signal).
Proof.
  split; simpl; try done.
  - intros ->. unfold start_fill. simpl.
    case_bool_decide as Hmax; unfold gathered; simpl.
    + replace maxDepth with 0%nat by lia. simpl. lia.
    + rewrite Nat.sub_0_r. lia.
  - unfold start_fill. by repeat case_match.
Qed.

Lemma scan_step_totals dirPath s s' :
  scan_step fs maxDepth s s' →
  scan_inv fs maxDepth s →
  totals_inv fs maxDepth dirPath s → totals_inv fs maxDepth dirPath s'.
Proof.
  intros Hstep Hinv [Hbal Hnn Hpub Hres].
  destruct Hstep as [s sh' root' Hfill|s Hset Hab Hdirty|s Hab|s Hset Hret].
  - pose proof (fill_step_effect _ _ _ _ _ _ _ Hfill (inv_ok _ _ _ Hinv))
      as Heff.
    split; simpl; try done.
    + intros Hab'. rewrite (eff_aborted _ _ _ _ _ _ _ Heff) in Hab'.
      rewrite <- (Hbal Hab'). apply (fill_step_balance _ _ _ _ _ Hfill Hab').
      rewrite <- Hab'. apply (inv_ok _ _ _ Hinv).
    + by eapply fill_step_nonneg.
  - split; simpl; try done.
    constructor; [|done]. simpl.
    rewrite (snapshot_gathered _ _ (inv_ok _ _ _ Hinv) Hnn).
    pose proof (gathered_nonneg _ Hnn).
    pose proof (remaining_nonneg 0 (root s)).
    specialize (Hbal Hab). lia.
  - split; simpl; done.
  - split; simpl; try done.
    intros final. destruct (aborted (shared s)) eqn:Hab; [done|].
    intros [= <-].
    rewrite (snapshot_gathered _ _ (inv_ok _ _ _ Hinv) Hnn).
    rewrite <- (Hbal eq_refl), (all_returned_remaining 0); [lia|].
    eapply ok_returned; [apply (inv_ok _ _ _ Hinv)|done].
Qed.

Lemma rtc_totals dirPath s s' :
  rtc (scan_step fs maxDepth) s s' →
  scan_inv fs maxDepth s → totals_inv fs maxDepth dirPath s →
  totals_inv fs maxDepth dirPath s'.
Proof.
  induction 1 as [|s1 s2 s3 Hstep _ IH]; [done|]. intros Hinv Htot.
  apply IH; [by eapply scan_step_inv|by eapply scan_step_totals].
Qed.

Lemma reachable_totals dirPath signal s :
  reachable fs maxDepth dirPath signal s → totals_inv fs maxDepth dirPath s.
Proof.
  intros Hrtc. eapply rtc_totals; [exact Hrtc|..].
  - apply start_scan_inv.
  - apply start_scan_totals.
Qed.

End AccountingFacts.

(** ** The shape of a one-shot tree *)
Section OneShotShape.
Variable fs : FileSystem.
Variable maxDepth : nat.

Lemma scan_entries_paths (rec : string → option TreeNode) dirPath entries
    results :
  (∀ p c, rec p = Some c → path c = p) →
  mapM (scan_entry fs rec dirPath) entries = Some results →
  path <$> omap id results = kept_paths fs dirPath entries.
Proof.
  intros Hrec Hres. apply mapM_Some in Hres. unfold kept_paths.
  induction Hres as [|entry r entries results Hr _ IH]; [done|].
  rewrite filter_cons.
  assert (match r with
          | Some c => kept_entry fs dirPath entry = true ∧
                      path c = join fs dirPath (ent_name entry)
          | None => kept_entry fs dirPath entry = false
          end) as Hkept.
  { unfold scan_entry, kept_entry in *.
    destruct (isSymbolicLink entry); [by injection Hr as <-|].
    destruct (isDirectory entry); simpl in *.
    - destruct (rec _) as [c|] eqn:Hc; simpl in Hr; [|done].
      injection Hr as <-. split; [done|]. by apply Hrec.
    - destruct (isFile entry); simpl; [|by injection Hr as <-].
      injection Hr as <-. by destruct (stat fs _) as [sz|]. }
  destruct r as [c|].
  - destruct Hkept as [Hk Hp]. rewrite decide_True by done. csimpl.
    by rewrite Hp, IH.
  - rewrite decide_False by (by rewrite Hkept). by csimpl.
Qed.

(** A property of every kind of node that the walk makes holds of every
    node of its tree. *)
Lemma scanDirectory_fuel_tree_all (Q : nat → TreeNode → Prop) :
  (∀ d nm p sz e, (0 < d ≤ maxDepth)%nat →
     Q d (mkNode nm p sz file e None false)) →
  (∀ p, Q maxDepth (mkNode (dir_name fs p) p (fastDirSize fs p false)
                           directory None None true)) →
  (∀ d p, (d < maxDepth)%nat → readdir fs p = None →
     Q d (mkNode (dir_name fs p) p 0 directory None None false)) →
  (∀ d p entries l, (d < maxDepth)%nat →
     readdir fs p = Some entries →
     path <$> l ≡ₚ kept_paths fs p entries →
     let cs := limit_children p d l in
     Q d (mkNode (dir_name fs p) p (sum_sizes cs) directory None
                 (Some cs) false)) →
  ∀ fuel dirPath depth t,
    (depth ≤ maxDepth)%nat →
    scanDirectory_fuel fs fuel dirPath maxDepth depth = Some t →
    tree_all Q depth t.
Proof.
  intros Hfile Htrunc Hunread Hdir.
  induction fuel as [|fuel IH]; intros dirPath depth t Hle; simpl; [done|].
  case_bool_decide as Hmax.
  { intros [= <-]. apply tree_all_leaf; [done|].
    replace depth with maxDepth by lia. apply Htrunc. }
  destruct (readdir fs dirPath) as [entries|] eqn:Hls.
  2:{ intros [= <-]. apply tree_all_leaf; [done|]. apply Hunread; [lia|done]. }
  destruct (mapM _ entries) as [results|] eqn:Hres; simpl; [|done].
  intros [= <-].
  apply tree_all_intro.
  - apply Hdir with (entries := entries); [lia|done|].
    rewrite js_sort_perm.
    rewrite (scan_entries_paths _ _ _ _ (λ p c, scanDirectory_fuel_path fs fuel p maxDepth (S depth) c) Hres).
    done.
  - intros cs [= <-]. apply Forall_limit_children.
    + apply Forall_forall. intros c. rewrite js_sort_perm.
      intros (oc & Hoc & Hid)%list_elem_of_omap. simpl in Hid. subst oc.
      apply mapM_Some in Hres.
      apply list_elem_of_lookup in Hoc as [i Hi].
      destruct (Forall2_lookup_r _ _ _ _ _ Hres Hi) as (entry & Hentry & Hc).
      apply scan_entry_Some in Hc as (_ & [Hrec|(sz & ->)]).
      * eapply IH; [|exact Hrec]. lia.
      * apply tree_all_leaf; [done|]. apply Hfile. lia.
    + intros k sz. apply tree_all_leaf; [done|]. apply Hfile. lia.
Qed.

Lemma limit_children_capped p d l :
  (CHILD_LIMIT_DEPTH ≤ d)%nat →
  let cs := limit_children p d l in
  (length cs ≤ S MAX_CHILDREN)%nat ∧
  (length cs = S MAX_CHILDREN →
   ∃ k s, last cs = Some (other_node p k s) ∧ 0 < s).
Proof.
  intros Hd cs. subst cs.
  destruct (limit_children_cases p d l) as [[-> [Hlt|Hlen]]|(_ & Hlen & ->)].
  - lia.
  - split; lia.
  - rewrite length_app, length_take.
    destruct (Z.ltb_spec 0 (sum_sizes (drop MAX_CHILDREN l))).
    + split; [cbn [length]; lia|]. intros _. rewrite last_snoc. eauto.
    + split; cbn [length]; lia.
Qed.

End OneShotShape.


(** X1. In the tree that the one-shot walk returns, the size of every node
    whose children are present is the sum of the sizes of its children. *)
Theorem scanDirectory_sizes_add_up fs dirPath maxDepth :
  ∃ t, scanDirectory fs dirPath maxDepth = Some t ∧ tree_all sum_ok 0 t.
Proof.
  destruct (scanDirectory_fuel_total fs (S maxDepth) dirPath maxDepth 0)
    as [t Ht]; [lia|].
  exists t. split; [done|].
  eapply (scanDirectory_fuel_tree_all fs maxDepth sum_ok);
    [..|exact Ht]; try done; [|lia].
  intros d p entries l _ _ _ cs cs' [= <-]. apply sum_sizes_total.
Qed.

(** X2. The one-shot walk goes [maxDepth] levels down and no further: no
    node is deeper, a directory is marked [truncated] exactly at depth
    [maxDepth], and a truncated directory has no [children] and the size
    that [fastDirSize] answers for its path. *)
Theorem scanDirectory_depth_and_truncation fs dirPath maxDepth :
  ∃ t, scanDirectory fs dirPath maxDepth = Some t ∧
       tree_all (oneshot_depth maxDepth) 0 t ∧
       tree_all (oneshot_truncated fs) 0 t.
Proof.
  destruct (scanDirectory_fuel_total fs (S maxDepth) dirPath maxDepth 0)
    as [t Ht]; [lia|].
  exists t. split_and!; [done|..].
  - eapply (scanDirectory_fuel_tree_all fs maxDepth (oneshot_depth maxDepth));
      [..|exact Ht]; try lia; unfold oneshot_depth; simpl.
    + intros. split_and!; [lia|done|done].
    + intros. split_and!; [lia|done|done].
    + intros. split_and!; [lia| |done]. intros _. split; [done|lia].
    + intros. split_and!; [lia| |done]. intros _. split; [done|lia].
  - eapply (scanDirectory_fuel_tree_all fs maxDepth (oneshot_truncated fs));
      [..|exact Ht]; try lia; unfold oneshot_truncated; simpl; done.
Qed.

(** X3. What the one-shot walk shows of a listing.  Above
    [CHILD_LIMIT_DEPTH] the children of a node are, up to their order, the
    entries of the listing of its path that are directories or regular
    files that [stat] can size: no symbolic link, no other kind of entry,
    and nothing dropped.  From [CHILD_LIMIT_DEPTH] on a node has at most
    [MAX_CHILDREN] children and one more, which then is the synthetic node
    of that directory, with a positive size. *)
Theorem scanDirectory_listing_and_cap fs dirPath maxDepth :
  ∃ t, scanDirectory fs dirPath maxDepth = Some t ∧
       tree_all (oneshot_complete fs) 0 t ∧
       tree_all oneshot_capped 0 t.
Proof.
  destruct (scanDirectory_fuel_total fs (S maxDepth) dirPath maxDepth 0)
    as [t Ht]; [lia|].
  exists t. split_and!; [done|..].
  - eapply (scanDirectory_fuel_tree_all fs maxDepth (oneshot_complete fs));
      [..|exact Ht]; try lia; unfold oneshot_complete; simpl; try done.
    intros d p entries l _ Hls Hperm cs [= <-] Hd.
    exists entries. split; [done|].
    destruct (limit_children_cases p d l) as [[-> _]|(Hd' & _)]; [done|lia].
  - eapply (scanDirectory_fuel_tree_all fs maxDepth oneshot_capped);
      [..|exact Ht]; try lia; unfold oneshot_capped; simpl; try done.
    intros d p entries l _ _ _ cs [= <-] Hd.
    by apply limit_children_capped.
Qed.

(** X4. When no file and no estimate of [du] has a negative size, the
    size of the tree that the one-shot walk returns is the sum, over the
    [maxDepth] levels below [dirPath], of the sizes of the regular files
    that can be listed and sized and of the estimates for the directories
    at level [maxDepth]: the cap on the children loses no byte. *)
Theorem scanDirectory_root_size fs dirPath maxDepth :
  sizes_nonneg fs →
  ∃ t, scanDirectory fs dirPath maxDepth = Some t ∧
       size t = walk_total fs maxDepth dirPath.
Proof.
  intros Hpos.
  destruct (scanDirectory_fuel_total fs (S maxDepth) dirPath maxDepth 0)
    as [t Ht]; [lia|].
  exists t. split; [done|].
  rewrite (scanDirectory_fuel_size fs _ _ _ _ _ Hpos Ht).
  by rewrite Nat.sub_0_r.
Qed.

Lemma scanDirectory_root_size_witness :
  sizes_nonneg Fixtures.fs_x ∧
  ∃ t, scanDirectory Fixtures.fs_x "/tmp/x" 8 = Some t ∧
       size t = walk_total Fixtures.fs_x 8 "/tmp/x".
Proof.
  assert (sizes_nonneg Fixtures.fs_x) as Hpos.
  { split.
    - intros p sz. unfold Fixtures.fs_x, Fixtures.table_fs,
        Fixtures.lookup_table. simpl.
      repeat case_decide; simpl; intros [= <-]; lia.
    - intros p. done. }
  split; [exact Hpos|].
  exact (scanDirectory_root_size Fixtures.fs_x "/tmp/x" 8 Hpos).
Defined.

(** X5. The two walks agree on the total.  When no file and no estimate
    has a negative size, the tree with which a streaming scan resolves has
    the size of the tree that the one-shot walk returns for the same
    directory, and no snapshot passed to [onProgress] is larger or
    negative. *)
Theorem streaming_size_matches_scanDirectory fs maxDepth dirPath signal s :
  sizes_nonneg fs →
  reachable fs maxDepth dirPath signal s →
  ∃ t1, scanDirectory fs dirPath maxDepth = Some t1 ∧
        (∀ t, settled s = Some (Resolved t) → size t = size t1) ∧
        (∀ t pr, (t, pr) ∈ published s → 0 ≤ size t ≤ size t1).
Proof.
  intros Hpos Hreach.
  destruct (scanDirectory_fuel_total fs (S maxDepth) dirPath maxDepth 0)
    as [t1 Ht1]; [lia|].
  exists t1. split; [done|].
  rewrite (scanDirectory_fuel_size fs _ _ _ _ _ Hpos Ht1), Nat.sub_0_r.
  destruct (reachable_totals fs maxDepth Hpos _ _ _ Hreach)
    as [_ _ Hpub Hres].
  split; [done|]. intros t pr Hin.
  rewrite Forall_forall in Hpub. apply (Hpub _ Hin).
Qed.

Lemma streaming_size_matches_scanDirectory_witness :
  let fs := Fixtures.fs_x in
  let s := run fs 8 100 (start_scan fs 8 "/tmp/x" false) in
  (sizes_nonneg fs ∧ reachable fs 8 "/tmp/x" false s) ∧
  ∃ t1, scanDirectory fs "/tmp/x" 8 = Some t1 ∧
        (∀ t, settled s = Some (Resolved t) → size t = size t1) ∧
        (∀ t pr, (t, pr) ∈ published s → 0 ≤ size t ≤ size t1).
Proof.
  intros fs s.
  assert (sizes_nonneg fs) as Hpos.
  { split.
    - intros p sz. unfold fs, Fixtures.fs_x, Fixtures.table_fs,
        Fixtures.lookup_table. simpl.
      repeat case_decide; simpl; intros [= <-]; lia.
    - intros p. done. }
  assert (reachable fs 8 "/tmp/x" false s) as Hreach
    by apply run_reachable.
  split; [by split|].
  exact (streaming_size_matches_scanDirectory fs 8 "/tmp/x" false s
           Hpos Hreach).
Defined.

(** The run above resolves with 35 bytes. *)
Example streaming_size_example :
  let fs := Fixtures.fs_x in
  (λ x, match x with Resolved t => Some (size t) | _ => None end)
    <$> settled (run fs 8 100 (start_scan fs 8 "/tmp/x" false))
  = Some (Some 35) ∧
  size <$> scanDirectory fs "/tmp/x" 8 = Some 35 ∧
  walk_total fs 8 "/tmp/x" = 35.
Proof. vm_compute. done. Qed.

(** ** Reading the output of [du] *)

Lemma digit_of_pretty_N_char (d : N) :
  (d < 10)%N →
  digit_of (pretty_N_char d) = Some (Z.of_N d) ∧
  is_space (pretty_N_char d) = false ∧
  nat_of_ascii (pretty_N_char d) ≠ 9%nat ∧
  pretty_N_char d ≠ "-"%char ∧ pretty_N_char d ≠ "+"%char.
Proof.
  intros Hd.
  assert (d ∈ [0; 1; 2; 3; 4; 5; 6; 7; 8; 9]%N) as Hin.
  { rewrite <- (N2Nat.id d).
    assert (N.to_nat d < 10)%nat as Hn by lia.
    destruct (N.to_nat d) as [|[|[|[|[|[|[|[|[|[|n]]]]]]]]]];
      try lia; set_solver. }
  repeat (apply elem_of_cons in Hin as [->|Hin]; [by vm_compute|]).
  by apply elem_of_nil in Hin.
Qed.

(** Reading the digits that [pretty] wrote. *)
Lemma read_digits_pretty_N_go (x : N) :
  ∃ k : Z, 0 ≤ k ∧ ∀ acc s,
    read_digits acc (pretty_N_go x s)
    = read_digits (acc * 10 ^ k + Z.of_N x) s.
Proof.
  induction (N.lt_wf_0 x) as [x _ IH].
  destruct (decide (x = 0)%N) as [->|Hx].
  { exists 0. split; [done|]. intros acc s. rewrite pretty_N_go_0.
    f_equal. lia. }
  destruct (IH (x `div` 10)%N) as (k & Hk & Hread).
  { apply N.div_lt; [lia|done]. }
  exists (k + 1). split; [lia|]. intros acc s.
  rewrite pretty_N_go_step by lia. rewrite Hread.
  assert (x `mod` 10 < 10)%N as Hmod by (apply N.mod_lt; lia).
  destruct (digit_of_pretty_N_char _ Hmod) as (Hdigit & _).
  cbn [read_digits]. rewrite Hdigit. f_equal.
  rewrite Z.pow_add_r by lia.
  pose proof (N.div_mod x 10) as Hdm. lia.
Qed.

Lemma pretty_N_go_head (x : N) s :
  (0 < x)%N →
  ∃ d r, (d < 10)%N ∧ pretty_N_go x s = String (pretty_N_char d) r.
Proof.
  revert s. induction (N.lt_wf_0 x) as [x _ IH]. intros s Hx.
  rewrite pretty_N_go_step by done.
  destruct (decide (x `div` 10 = 0)%N) as [->|Hdiv].
  - rewrite pretty_N_go_0. eexists _, _. split; [|done].
    apply N.mod_lt. lia.
  - apply IH; [apply N.div_lt; [lia|done]|by apply N.neq_0_lt_0].
Qed.

Lemma before_tab_pretty_N_go (x : N) s r :
  before_tab (pretty_N_go x s +:+ r) = pretty_N_go x (before_tab (s +:+ r)).
Proof.
  revert s. induction (N.lt_wf_0 x) as [x _ IH]. intros s.
  destruct (decide (x = 0)%N) as [->|Hx]; [by rewrite !pretty_N_go_0|].
  rewrite !(pretty_N_go_step x) by lia.
  rewrite IH by (apply N.div_lt; [lia|done]). f_equal.
  assert (x `mod` 10 < 10)%N as Hmod by (apply N.mod_lt; lia).
  destruct (digit_of_pretty_N_char _ Hmod) as (_ & _ & Htab & _).
  simpl. by rewrite bool_decide_eq_false_2.
Qed.

Lemma parseInt_digits (d : N) r :
  (d < 10)%N →
  parseInt (String (pretty_N_char d) r)
  = Some (read_digits 0 (String (pretty_N_char d) r)).
Proof.
  intros Hd.
  destruct (digit_of_pretty_N_char _ Hd) as (Hdigit & Hsp & _ & Hm & Hp).
  unfold parseInt. cbn [skip_spaces]. rewrite Hsp.
  destruct (pretty_N_char d) as [b0 b1 b2 b3 b4 b5 b6 b7] eqn:Hc.
  assert (starts_with_digit (String (Ascii b0 b1 b2 b3 b4 b5 b6 b7) r) = true)
    as Hstart.
  { unfold starts_with_digit. by rewrite Hdigit, bool_decide_eq_true_2. }
  destruct b0, b1, b2, b3, b4, b5, b6, b7; try done;
    rewrite Hstart; f_equal; lia.
Qed.

(** [parseInt(String(n), 10)] is [n]. *)
Lemma parseInt_pretty_N (x : N) : parseInt (pretty x) = Some (Z.of_N x).
Proof.
  unfold pretty, pretty_N. case_decide as Hx; [by subst|].
  destruct (pretty_N_go_head x "") as (d & r & Hd & Heq); [lia|].
  rewrite Heq, parseInt_digits, <- Heq by done.
  destruct (read_digits_pretty_N_go x) as (k & _ & ->). simpl. done.
Qed.


(** X6. Reading the output of [du -sk].  When [du] prints a number of
    kilobytes in decimal, a tab and anything after it, [fastDirSize]
    answers 1024 times that number. *)
Theorem fastDirSize_reads_du fs dirPath (kb : N) rest :
  du fs dirPath = Some (pretty kb +:+ String (ascii_of_nat 9) rest) →
  fastDirSize fs dirPath false = Z.of_N kb * 1024.
Proof.
  intros Hdu. unfold fastDirSize. rewrite Hdu.
  assert (before_tab (pretty kb +:+ String (ascii_of_nat 9) rest)
          = pretty kb) as ->.
  { unfold pretty, pretty_N. case_decide; [done|].
    by rewrite before_tab_pretty_N_go. }
  by rewrite parseInt_pretty_N.
Qed.

Lemma fastDirSize_reads_du_witness :
  du Fixtures.fs_x_du "/tmp/x/b"
    = Some (pretty 28%N +:+ String (ascii_of_nat 9) "/tmp/x/b") ∧
  fastDirSize Fixtures.fs_x_du "/tmp/x/b" false = Z.of_N 28 * 1024.
Proof.
  split; [reflexivity|].
  apply (fastDirSize_reads_du Fixtures.fs_x_du "/tmp/x/b" 28 "/tmp/x/b").
  reflexivity.
Defined.

Module CoordinatorViewFacts.
Import Coordinator CoordinatorInv CoordinatorView.

Section ViewFacts.
Variable fs : FileSystem.

Lemma extends_refl w : extends w w.
Proof. split; [by exists []|done]. Qed.

Lemma extends_trans w1 w2 w3 : extends w1 w2 → extends w2 w3 → extends w1 w3.
Proof.
  intros [[m1 H1] S1] [[m2 H2] S2]. split; [|by auto].
  exists (m2 ++ m1). by rewrite H2, H1, app_assoc.
Qed.

Lemma sent_by_extends e e' ev :
  extends (walker e) (walker e') → sent_by e ev → sent_by e' ev.
Proof.
  intros [[more Hpub] Hset]. destruct ev as [t p|t|m]; simpl; [|by auto..].
  intros (pr & -> & Hin). exists pr. split; [done|].
  rewrite Hpub. apply elem_of_app. by right.
Qed.

(** *** The entries *)

Lemma entries_ok_update i e' s :
  entries_ok fs s → mirrors e' → scan_inv fs MAX_DEPTH (walker e') →
  entries_ok fs (update_entry i e' s).
Proof.
  intros Hok Hm Hinv j e. simpl. intros Hj.
  destruct (decide (j = i)) as [->|Hne].
  - apply list_lookup_insert_Some in Hj as [(_ & <- & _)|[? _]]; done.
  - rewrite list_lookup_insert_ne in Hj by done. exact (Hok _ _ Hj).
Qed.

Lemma settle_failed_inv message w :
  scan_inv fs MAX_DEPTH w →
  scan_inv fs MAX_DEPTH (settle_walker (Failed message) w).
Proof. intros [H1 H2 H3 H4 H5 H6 H7]. by split. Qed.

Lemma abort_walker_inv w :
  scan_inv fs MAX_DEPTH w → scan_inv fs MAX_DEPTH (abort_walker w).
Proof.
  intros Hinv. destruct (CoordinatorFacts.abort_walker_move fs w)
    as [->|[Hstep|(m & ->)]]; [done| |].
  - by eapply scan_step_inv.
  - by apply settle_failed_inv.
Qed.

Lemma startBackgroundScan_entries dirPath s j x :
  entries (startBackgroundScan fs dirPath s) !! j = Some x →
  x = mkEntry (mkActiveScan dirPath None None false None)
              (start_scan fs MAX_DEPTH dirPath false) ∨
  entries s !! j = Some x ∨
  ∃ e, entries s !! j = Some e ∧
       x = set_walker (abort_walker (walker e)) e.
Proof.
  unfold startBackgroundScan.
  assert (∀ es, (es ++ [mkEntry (mkActiveScan dirPath None None false None)
                   (start_scan fs MAX_DEPTH dirPath false)]) !! j = Some x →
          x = mkEntry (mkActiveScan dirPath None None false None)
                      (start_scan fs MAX_DEPTH dirPath false) ∨
          es !! j = Some x) as Happ.
  { intros es [Hj|[_ Hj]]%lookup_app_Some; [by right|left].
    by apply list_lookup_singleton_Some in Hj as [_ <-]. }
  destruct (activeScan s) as [a|]; [|simpl; intros Hj; by apply Happ in Hj as [?|?]; auto].
  destruct (entries s !! a) as [ea|] eqn:Ha;
    [|simpl; intros Hj; by apply Happ in Hj as [?|?]; auto].
  destruct (done (scan ea));
    [simpl; intros Hj; by apply Happ in Hj as [?|?]; auto|].
  simpl. intros Hj. apply Happ in Hj as [?|Hj]; [by left|].
  right. destruct (decide (j = a)) as [->|Hne].
  - apply list_lookup_insert_Some in Hj as [(_ & <- & _)|[? _]]; [|done].
    right. eauto.
  - rewrite list_lookup_insert_ne in Hj by done. by left.
Qed.

Lemma entries_ok_start dirPath s :
  entries_ok fs s → entries_ok fs (startBackgroundScan fs dirPath s).
Proof.
  intros Hok j x Hj.
  apply startBackgroundScan_entries in Hj as [->|[Hj|(e & Hj & ->)]].
  - split; [done|]. apply start_scan_inv.
  - exact (Hok _ _ Hj).
  - destruct (Hok j e Hj) as [Hm Hinv]. split; [|by apply abort_walker_inv].
    done.
Qed.

Lemma subscribe_entries s : entries (subscribe s) = entries s.
Proof. apply CoordinatorFacts.subscribe_fields. Qed.

Lemma mirrors_same e e' :
  scan e' = scan e → settled (walker e') = settled (walker e) →
  published (walker e') = published (walker e) →
  mirrors e → mirrors e'.
Proof. unfold mirrors. by intros -> -> ->. Qed.

Lemma entries_ok_step s s' :
  step fs s s' → entries_ok fs s → entries_ok fs s'.
Proof.
  intros Hstep Hok.
  destruct Hstep as [resolved s|l s|i e sh' root' s Hi Hfill
                    |i e s Hi Hset Hab Hdirty|i e s Hi Hset Hret Hab
                    |i e s Hi Hset Hret Hab
                    |i e errName message s Hi Hset Hret Hab Hname];
    try destruct (Hok i e Hi) as [Hm Hinv].
  - unfold requestScan, entries_ok. rewrite subscribe_entries.
    destruct (needsNew resolved s); [by apply entries_ok_start|done].
  - done.
  - apply entries_ok_update; [done| |].
    + by eapply mirrors_same.
    + eapply scan_step_inv; [|exact Hinv]. by apply scan_fill.
  - unfold onProgress.
    apply (entries_ok_update i _ s Hok).
    + unfold mirrors in *. simpl. rewrite Hset in Hm |- *.
      by destruct Hm as (_ & -> & ->).
    + pose proof (scan_tick fs MAX_DEPTH (walker e) Hset Hab Hdirty) as Ht.
      rewrite Hset in Ht |- *. by eapply scan_step_inv.
  - unfold onFulfilled.
    apply (entries_ok_update i _ s Hok).
    + unfold mirrors in *. simpl. rewrite Hset in Hm.
      by destruct Hm as (_ & _ & ->).
    + pose proof (scan_return fs MAX_DEPTH (walker e) Hset Hret) as Hr.
      rewrite Hab in Hr. by eapply scan_step_inv.
  - unfold onRejected. simpl.
    apply (entries_ok_update i _ s Hok).
    + unfold mirrors in *. simpl. by rewrite Hset in Hm.
    + pose proof (scan_return fs MAX_DEPTH (walker e) Hset Hret) as Hr.
      rewrite Hab in Hr. by eapply scan_step_inv.
  - unfold onRejected. rewrite bool_decide_eq_false_2 by done.
    apply (entries_ok_update i _ s Hok).
    + unfold mirrors in *. simpl. rewrite Hset in Hm.
      by destruct Hm as (-> & _ & _).
    + by apply settle_failed_inv.
Qed.

Lemma reachable_entries_ok s : reachable fs s → entries_ok fs s.
Proof.
  intros H.
  assert (∀ a b, rtc (step fs) a b → entries_ok fs a → entries_ok fs b)
    as Hrtc by (induction 1; eauto using entries_ok_step).
  eapply Hrtc; [exact H|]. intros j e Hj. done.
Qed.

(** *** Where the events come from *)

Lemma step_extends s s' j e :
  step fs s s' → entries s !! j = Some e →
  ∃ e', entries s' !! j = Some e' ∧ extends (walker e) (walker e').
Proof.
  intros Hstep Hj.
  assert (∀ i e0 w' s0,
    entries s0 !! j = Some e → entries s0 !! i = Some e0 →
    extends (walker e0) w' →
    ∀ sc, ∃ e', entries (update_entry i (mkEntry sc w') s0) !! j = Some e' ∧
                extends (walker e) (walker e')) as Hupd.
  { intros i e0 w' s0 Hj0 Hi Hmove sc.
    rewrite (CoordinatorFacts.update_entry_lookup _ _ _ _ _ Hj0).
    case_decide as Hji.
    - subst i. assert (e0 = e) as -> by congruence. eauto.
    - exists e. split; [done|apply extends_refl]. }
  destruct Hstep as [resolved s|l s|i e0 sh' root' s Hi Hfill
                    |i e0 s Hi Hset Hab Hdirty|i e0 s Hi Hset Hret Hab
                    |i e0 s Hi Hset Hret Hab
                    |i e0 errName message s Hi Hset Hret Hab Hname].
  - unfold requestScan. rewrite subscribe_entries.
    destruct (needsNew resolved s);
      [|exists e; split; [done|apply extends_refl]].
    unfold startBackgroundScan.
    destruct (activeScan s) as [a|];
      [|exists e; split; [by apply lookup_app_l_Some|apply extends_refl]].
    destruct (entries s !! a) as [ea|] eqn:Hea;
      [|exists e; split; [by apply lookup_app_l_Some|apply extends_refl]].
    destruct (done (scan ea));
      [exists e; split; [by apply lookup_app_l_Some|apply extends_refl]|].
    simpl. destruct (decide (j = a)) as [->|Hne].
    + assert (ea = e) as -> by congruence. eexists. split.
      * apply lookup_app_l_Some, list_lookup_insert_eq.
        by eapply lookup_lt_Some.
      * split; simpl; [by exists []|done].
    + exists e. split; [|apply extends_refl].
      apply lookup_app_l_Some. by rewrite list_lookup_insert_ne.
  - exists e. split; [done|apply extends_refl].
  - apply (Hupd i e0 _ s Hj Hi). split; simpl; [by exists []|done].
  - apply (Hupd i e0 _ s Hj Hi). split; simpl; [|done]. by eexists [_].
  - apply (Hupd i e0 _ s Hj Hi). split; simpl; [by exists []|].
    by rewrite Hset.
  - unfold onRejected. simpl.
    apply (Hupd i e0 _ s Hj Hi). split; simpl; [by exists []|].
    by rewrite Hset.
  - unfold onRejected. rewrite bool_decide_eq_false_2 by done.
    apply (Hupd i e0 _ s Hj Hi). split; simpl; [by exists []|].
    by rewrite Hset.
Qed.

(** What [subscribe] does, by the state of the active scan. *)
Lemma subscribe_cases x :
  let l := nextListener x in
  (∃ a e t, activeScan x = Some a ∧ entries x !! a = Some e ∧
            tree (scan e) = Some t ∧ done (scan e) = true ∧
            subscribe x
            = mkState (entries x) (activeScan x) (sseListeners x) (S l)
                      (walkerStarts x)
                      (Delivered l a (EvDone t) :: trace x)) ∨
  (∃ a e t, activeScan x = Some a ∧ entries x !! a = Some e ∧
            tree (scan e) = Some t ∧ done (scan e) = false ∧
            subscribe x
            = mkState (entries x) (activeScan x) (sseListeners x ++ [l])
                      (S l) (walkerStarts x)
                      (Subscribed l a
                       :: Delivered l a (EvProgress t (progress (scan e)))
                       :: trace x)) ∨
  (∃ added, (added = [] ∨ ∃ a, added = [Subscribed l a]) ∧
            subscribe x
            = mkState (entries x) (activeScan x) (sseListeners x ++ [l])
                      (S l) (walkerStarts x) (added ++ trace x)).
Proof.
  intros l. unfold subscribe. fold l.
  destruct (activeScan x) as [a|] eqn:Ha.
  2:{ right. right. exists []. auto. }
  destruct (entries x !! a) as [e|] eqn:He.
  2:{ right. right. exists [Subscribed l a]. eauto. }
  destruct (tree (scan e)) as [t|] eqn:Ht.
  2:{ right. right. exists [Subscribed l a]. eauto. }
  destruct (done (scan e)) eqn:Hd.
  - left. by exists a, e, t.
  - right. left. by exists a, e, t.
Qed.

Lemma Delivered_broadcast l o ev origin ev0 (ls : list nat) :
  Delivered l o ev ∈ reverse ((λ l, Delivered l origin ev0) <$> ls) ↔
  l ∈ ls ∧ o = origin ∧ ev = ev0.
Proof.
  rewrite elem_of_reverse, list_elem_of_fmap. split.
  - by intros (l' & [= -> -> ->] & Hin).
  - intros (Hin & -> & ->). eauto.
Qed.

Lemma mirrors_done e t :
  mirrors e → tree (scan e) = Some t → done (scan e) = true →
  error (scan e) = None → sent_by e (EvDone t).
Proof.
  unfold mirrors. simpl.
  destruct (settled (walker e)) as [[final| |m]|].
  - intros (Ht & _) Ht'. congruence.
  - intros (_ & Hd & _). congruence.
  - intros (_ & _ & He). congruence.
  - intros (_ & Hd & _). congruence.
Qed.

Lemma mirrors_running e t :
  mirrors e → tree (scan e) = Some t → done (scan e) = false →
  ∃ pr rest, progress (scan e) = Some pr ∧
             published (walker e) = (t, pr) :: rest.
Proof.
  unfold mirrors. intros Hm Ht Hd.
  assert ((tree (scan e), progress (scan e)) = latest (published (walker e)))
    as Hl.
  { destruct (settled (walker e)) as [[final| |m]|];
      intuition congruence. }
  destruct (published (walker e)) as [|[t' pr] rest]; simpl in Hl.
  - congruence.
  - injection Hl as Ht' Hp. exists pr, rest. split; congruence.
Qed.

(** What a step adds to the trace comes from the walks. *)
Lemma step_added s s' :
  step fs s s' → entries_ok fs s →
  ∃ added,
    trace s' = added ++ trace s ∧
    ∀ l o ev, Delivered l o ev ∈ added →
      ∃ e', entries s' !! o = Some e' ∧ sent_by e' ev.
Proof.
  intros Hstep Hok.
  destruct Hstep as [resolved s|l s|i e sh' root' s Hi Hfill
                    |i e s Hi Hset Hab Hdirty|i e s Hi Hset Hret Hab
                    |i e s Hi Hset Hret Hab
                    |i e errName message s Hi Hset Hret Hab Hname];
    try pose proof (lookup_lt_Some _ _ _ Hi) as Hlt.
  - unfold requestScan. destruct (needsNew resolved s) eqn:Hnew.
    + destruct (CoordinatorFacts.startBackgroundScan_shape fs resolved s)
        as (es & c & -> & Hc).
      unfold subscribe. simpl.
      rewrite lookup_app_r, Nat.sub_diag by done. simpl.
      exists (Subscribed (nextListener s) (length es) :: c). split; [done|].
      intros l o ev [[=]|Hin]%elem_of_cons.
      destruct Hc as [->|[a ->]]; [by apply elem_of_nil in Hin|].
      by apply list_elem_of_singleton in Hin.
    + destruct (CoordinatorFacts.needsNew_false _ _ Hnew)
        as (a & e & Ha & He & _ & Hfine).
      destruct (Hok a e He) as [Hm _].
      destruct (subscribe_cases s)
        as [(a' & e' & t & Ha' & He' & Ht & Hd & ->)
           |[(a' & e' & t & Ha' & He' & Ht & Hd & ->)
            |(added & Hadded & ->)]]; simpl.
      * assert (a' = a) as -> by congruence.
        assert (e' = e) as -> by congruence.
        eexists [_]. split; [done|].
        intros l o ev [= -> -> ->]%list_elem_of_singleton.
        exists e. split; [done|]. apply mirrors_done; try done.
        destruct Hfine; congruence.
      * assert (a' = a) as -> by congruence.
        assert (e' = e) as -> by congruence.
        eexists [_; _]. split; [done|].
        intros l o ev [[=]|[= -> -> ->]%list_elem_of_singleton]%elem_of_cons.
        exists e. split; [done|].
        destruct (mirrors_running e t Hm Ht Hd) as (pr & rest & Hp & Hpub).
        simpl. exists pr. split; [done|]. rewrite Hpub. apply list_elem_of_here.
      * exists added. split; [done|]. intros l o ev Hin.
        destruct Hadded as [->|[a' ->]]; [by apply elem_of_nil in Hin|].
        by apply list_elem_of_singleton in Hin.
  - exists []. split; [done|]. intros ? ? ? []%elem_of_nil.
  - exists []. split; [done|]. intros ? ? ? []%elem_of_nil.
  - eexists. split; [done|]. intros l o ev (_ & -> & ->)%Delivered_broadcast.
    eexists. split; [by apply list_lookup_insert_eq|]. simpl.
    eexists. split; [done|]. apply list_elem_of_here.
  - eexists. split; [done|]. intros l o ev (_ & -> & ->)%Delivered_broadcast.
    eexists. split; [by apply list_lookup_insert_eq|]. done.
  - exists []. split; [done|]. intros ? ? ? []%elem_of_nil.
  - unfold onRejected. rewrite bool_decide_eq_false_2 by done.
    eexists. split; [done|]. intros l o ev (_ & -> & ->)%Delivered_broadcast.
    eexists. split; [by apply list_lookup_insert_eq|]. done.
Qed.

Lemma provenance_step s s' :
  step fs s s' → entries_ok fs s → provenance s → provenance s'.
Proof.
  intros Hstep Hok Hprov l o ev.
  destruct (step_added s s' Hstep Hok) as (added & -> & Hadded).
  intros [Hin|Hin]%elem_of_app; [by eapply Hadded|].
  destruct (Hprov l o ev Hin) as (e & He & Hsent).
  destruct (step_extends s s' o e Hstep He) as (e' & He' & Hext).
  exists e'. split; [done|]. by eapply sent_by_extends.
Qed.

Lemma reachable_provenance s : reachable fs s → provenance s.
Proof.
  intros H.
  assert (∀ a b, rtc (step fs) a b → entries_ok fs a → provenance a →
                 provenance b) as Hrtc.
  { induction 1 as [|a b c Hab _ IH]; [done|]. intros Ha Hp.
    apply IH; [by eapply entries_ok_step|by eapply provenance_step]. }
  eapply Hrtc; [exact H|done|]. intros l o ev []%elem_of_nil.
Qed.

(** *** The listeners *)

Lemma listeners_ok_extend s ls' next' added es act ws :
  listeners_ok s →
  (nextListener s ≤ next')%nat →
  NoDup ls' →
  (∀ l, l ∈ ls' →
     (l < next')%nat ∧ (l ∈ sseListeners s ∨ (nextListener s ≤ l)%nat)) →
  (∀ l o ev, Delivered l o ev ∈ added →
     (l < next')%nat ∧ (l ∈ sseListeners s ∨ (nextListener s ≤ l)%nat) ∧
     (terminal ev = true → l ∉ ls')) →
  streams_end added →
  listeners_ok (mkState es act ls' next' ws (added ++ trace s)).
Proof.
  intros [Hfresh Hnodup Hknown Hclosed Hend] Hnext Hnd Hls Hadd Hin.
  split; simpl.
  - intros l Hl. by apply Hls.
  - done.
  - intros l o ev [Ha|Hold]%elem_of_app; [by eapply Hadd|].
    specialize (Hknown _ _ _ Hold). lia.
  - intros l o ev [Ha|Hold]%elem_of_app Hterm; [by eapply Hadd|].
    intros Hl'. destruct (Hls l Hl') as [_ [Hl|Hl]].
    + by eapply Hclosed.
    + specialize (Hknown _ _ _ Hold). lia.
  - intros newer l o ev older Hsplit Hterm o' ev' Hnew.
    apply app_eq_inv in Hsplit as [(k & -> & Htr)|(k & -> & Htr)].
    + destruct k as [|x k]; simpl in Htr.
      * assert (Delivered l o ev ∈ trace s) as Hold
          by (rewrite <- Htr; apply list_elem_of_here).
        destruct (Hadd l o' ev') as (_ & [Hl|Hl] & _).
        -- apply elem_of_app. by left.
        -- by eapply Hclosed.
        -- specialize (Hknown _ _ _ Hold). lia.
      * injection Htr as <- _. by eapply (Hin newer l o ev k).
    + apply elem_of_app in Hnew as [Hnew|Hnew].
      * assert (Delivered l o ev ∈ trace s) as Hold.
        { rewrite Htr. apply elem_of_app. right. apply list_elem_of_here. }
        destruct (Hadd _ _ _ Hnew) as (_ & [Hl|Hl] & _).
        -- by eapply Hclosed.
        -- specialize (Hknown _ _ _ Hold). lia.
      * by eapply (Hend k l o ev older).
Qed.

Lemma streams_end_no_delivery added :
  (∀ l o ev, Delivered l o ev ∉ added) → streams_end added.
Proof.
  intros Hno newer l o ev older ->. destruct (Hno l o ev).
  apply elem_of_app. right. apply list_elem_of_here.
Qed.

Lemma streams_end_broadcast origin ev (ls : list nat) :
  NoDup ls → streams_end (reverse ((λ l, Delivered l origin ev) <$> ls)).
Proof.
  intros Hnd newer l o ev0 older Hsplit _ o' ev' Hnew.
  assert (NoDup (reverse ((λ l, Delivered l origin ev) <$> ls))) as Hnd'.
  { rewrite reverse_Permutation. apply NoDup_fmap_2; [|done].
    by intros ? ? [=]. }
  assert (Delivered l o ev0 ∈ reverse ((λ l, Delivered l origin ev) <$> ls))
    as (_ & -> & ->)%Delivered_broadcast.
  { rewrite Hsplit. apply elem_of_app. right. apply list_elem_of_here. }
  assert (Delivered l o' ev' ∈ reverse ((λ l, Delivered l origin ev) <$> ls))
    as (_ & -> & ->)%Delivered_broadcast.
  { rewrite Hsplit. apply elem_of_app. by left. }
  rewrite Hsplit in Hnd'. apply NoDup_app in Hnd' as (_ & Hdisj & _).
  apply (Hdisj _ Hnew), list_elem_of_here.
Qed.

Lemma listeners_ok_broadcast origin ev s :
  listeners_ok s → listeners_ok (broadcast origin ev s).
Proof.
  intros Hok. unfold broadcast.
  pose proof (lis_fresh _ Hok) as Hfresh.
  pose proof (lis_nodup _ Hok) as Hnodup.
  apply listeners_ok_extend; try done.
  - destruct ev; [done|constructor..].
  - intros l Hl. assert (l ∈ sseListeners s) as Hl'.
    { destruct ev; [done|by apply elem_of_nil in Hl..]. }
    split; [by apply Hfresh|by left].
  - intros l o ev' (Hl & -> & ->)%Delivered_broadcast.
    split_and!; [by apply Hfresh|by left|].
    intros Hterm. destruct ev; [done|apply not_elem_of_nil..].
  - by apply streams_end_broadcast.
Qed.

Lemma listeners_ok_fields s s' :
  sseListeners s' = sseListeners s → nextListener s' = nextListener s →
  trace s' = trace s → listeners_ok s → listeners_ok s'.
Proof.
  intros Hl Hn Ht [H1 H2 H3 H4 H5].
  split; rewrite ?Hl, ?Hn, ?Ht; done.
Qed.

Lemma listeners_ok_start dirPath s :
  listeners_ok s → listeners_ok (startBackgroundScan fs dirPath s).
Proof.
  intros Hok.
  destruct (CoordinatorFacts.startBackgroundScan_shape fs dirPath s)
    as (es & c & -> & Hc).
  pose proof (lis_fresh _ Hok) as Hfresh.
  assert (∀ l o ev, Delivered l o ev ∉ c) as Hno.
  { intros l o ev Hin. destruct Hc as [->|[a ->]];
      [by apply elem_of_nil in Hin|by apply list_elem_of_singleton in Hin]. }
  apply listeners_ok_extend; try done.
  - apply (lis_nodup _ Hok).
  - intros l Hl. split; [by apply Hfresh|by left].
  - intros l o ev Hin. by destruct (Hno l o ev).
  - by apply streams_end_no_delivery.
Qed.

Lemma listeners_ok_subscribe s :
  listeners_ok s → listeners_ok (subscribe s).
Proof.
  intros Hok.
  pose proof (lis_fresh _ Hok) as Hfresh.
  pose proof (lis_nodup _ Hok) as Hnodup.
  assert (NoDup (sseListeners s ++ [nextListener s])) as Hnd.
  { apply NoDup_app. split_and!; [done| |apply NoDup_singleton].
    intros l Hl ->%list_elem_of_singleton. specialize (Hfresh _ Hl). lia. }
  assert (∀ l, l ∈ sseListeners s ++ [nextListener s] →
            (l < S (nextListener s))%nat ∧
            (l ∈ sseListeners s ∨ (nextListener s ≤ l)%nat)) as Hls.
  { intros l [Hl| ->%list_elem_of_singleton]%elem_of_app.
    - specialize (Hfresh _ Hl). split; [lia|by left].
    - split; [lia|right; lia]. }
  destruct (subscribe_cases s)
    as [(a & e & t & _ & _ & _ & _ & ->)
       |[(a & e & t & _ & _ & _ & _ & ->)|(added & Hadded & ->)]].
  - apply (listeners_ok_extend s _ _ [_]); try done; try lia.
    + intros l Hl. specialize (Hfresh _ Hl). split; [lia|by left].
    + intros l o ev [= -> -> ->]%list_elem_of_singleton.
      split_and!; [lia|right; lia|].
      intros _ Hl. specialize (Hfresh _ Hl). lia.
    + intros newer l o ev older Hsplit _ o' ev' Hnew.
      destruct newer as [|x [|y newer]]; try done.
      by apply elem_of_nil in Hnew.
  - apply (listeners_ok_extend s _ _ [_; _]); try done; try lia.
    + intros l o ev [[=]|[= -> -> ->]%list_elem_of_singleton]%elem_of_cons.
      split_and!; [lia|right; lia|done].
    + intros newer l o ev older Hsplit Hterm.
      destruct newer as [|x [|y [|z newer]]]; by simplify_eq/=.
  - apply listeners_ok_extend; try done; try lia.
    + intros l o ev Hin. destruct Hadded as [->|[a ->]];
        [by apply elem_of_nil in Hin|by apply list_elem_of_singleton in Hin].
    + apply streams_end_no_delivery. intros l o ev Hin.
      destruct Hadded as [->|[a ->]];
        [by apply elem_of_nil in Hin|by apply list_elem_of_singleton in Hin].
Qed.

Lemma listeners_ok_step s s' :
  step fs s s' → listeners_ok s → listeners_ok s'.
Proof.
  intros Hstep Hok.
  destruct Hstep as [resolved s|l s|i e sh' root' s Hi Hfill
                    |i e s Hi Hset Hab Hdirty|i e s Hi Hset Hret Hab
                    |i e s Hi Hset Hret Hab
                    |i e errName message s Hi Hset Hret Hab Hname].
  - unfold requestScan. apply listeners_ok_subscribe.
    destruct (needsNew resolved s); [by apply listeners_ok_start|done].
  - pose proof (lis_fresh _ Hok) as Hfresh.
    apply (listeners_ok_extend s _ _ []); try done.
    + apply NoDup_filter, (lis_nodup _ Hok).
    + intros l' [_ Hl']%list_elem_of_filter.
      split; [by apply Hfresh|by left].
    + intros ? ? ? []%elem_of_nil.
    + apply streams_end_no_delivery. intros ? ? ? []%elem_of_nil.
  - by apply (listeners_ok_fields s).
  - apply listeners_ok_broadcast. by apply (listeners_ok_fields s).
  - apply listeners_ok_broadcast. by apply (listeners_ok_fields s).
  - unfold onRejected. simpl. by apply (listeners_ok_fields s).
  - unfold onRejected. rewrite bool_decide_eq_false_2 by done.
    apply listeners_ok_broadcast. by apply (listeners_ok_fields s).
Qed.

Lemma reachable_listeners_ok s : reachable fs s → listeners_ok s.
Proof.
  intros H.
  assert (∀ a b, rtc (step fs) a b → listeners_ok a → listeners_ok b)
    as Hrtc by (induction 1; eauto using listeners_ok_step).
  eapply Hrtc; [exact H|].
  split; simpl; try done.
  - intros l []%elem_of_nil.
  - constructor.
  - intros l o ev []%elem_of_nil.
  - intros l o ev []%elem_of_nil.
  - intros newer l o ev older Hsplit. by destruct newer.
Qed.

End ViewFacts.

(** X7. What reaches a client comes from the walk of the scan that the
    event is about.  A progress event carries a snapshot and the counters
    of one call of [onProgress] by that walk, the counters are never
    missing, and [dirsCompleted] does not exceed [dirsFound]; a done event
    carries the tree with which that walk resolved; an error event is sent
    only for a walk that failed, and never for one that was aborted.  The
    trees are snapshots: sizes add up and children are in descending order
    of size. *)
Theorem clients_receive_walker_results fs s :
  reachable fs s →
  (∀ l o t p, Delivered l o (EvProgress t p) ∈ trace s →
     ∃ e pr, entries s !! o = Some e ∧ p = Some pr ∧
             (t, pr) ∈ published (walker e) ∧ well_formed t ∧
             (dirsCompleted pr ≤ dirsFound pr)%nat) ∧
  (∀ l o t, Delivered l o (EvDone t) ∈ trace s →
     ∃ e, entries s !! o = Some e ∧
          settled (walker e) = Some (Resolved t) ∧ well_formed t) ∧
  (∀ l o message, Delivered l o (EvError message) ∈ trace s →
     ∃ e, entries s !! o = Some e ∧
          settled (walker e) = Some (Failed message)).
Proof.
  intros Hs.
  pose proof (reachable_provenance fs s Hs) as Hprov.
  pose proof (reachable_entries_ok fs s Hs) as Hok.
  assert (∀ t, snapshot_of_walk fs MAX_DEPTH t → well_formed t) as Hwf.
  { intros t Ht. split; [by eapply snapshot_of_walk_sum_ok|].
    destruct Ht as (ab & w & _ & ->). apply snapshot_sorted. }
  split_and!.
  - intros l o t p Hin.
    destruct (Hprov _ _ _ Hin) as (e & He & pr & -> & Hpub).
    destruct (Hok o e He) as [_ Hinv]. exists e, pr.
    pose proof (inv_published _ _ _ Hinv) as Hall.
    rewrite Forall_forall in Hall. destruct (Hall _ Hpub) as [Hsnap Hle].
    split_and!; try done. by apply Hwf.
  - intros l o t Hin. destruct (Hprov _ _ _ Hin) as (e & He & Hset).
    destruct (Hok o e He) as [_ Hinv]. exists e. split_and!; try done.
    apply Hwf. by destruct (inv_resolved _ _ _ Hinv t Hset).
  - intros l o m Hin. destruct (Hprov _ _ _ Hin) as (e & He & Hset). eauto.
Qed.

Lemma clients_receive_walker_results_witness :
  let fs := Fixtures.fs_x in
  let s := default init (perform_all fs two_clients init) in
  reachable fs s ∧
  ((∀ l o t p, Delivered l o (EvProgress t p) ∈ trace s →
      ∃ e pr, entries s !! o = Some e ∧ p = Some pr ∧
              (t, pr) ∈ published (walker e) ∧ well_formed t ∧
              (dirsCompleted pr ≤ dirsFound pr)%nat) ∧
   (∀ l o t, Delivered l o (EvDone t) ∈ trace s →
      ∃ e, entries s !! o = Some e ∧
           settled (walker e) = Some (Resolved t) ∧ well_formed t) ∧
   (∀ l o message, Delivered l o (EvError message) ∈ trace s →
      ∃ e, entries s !! o = Some e ∧
           settled (walker e) = Some (Failed message))).
Proof.
  intros fs s.
  assert (reachable fs s) as Hs.
  { apply (CoordinatorFacts.perform_all_rtc fs two_clients).
    vm_compute. reflexivity. }
  split; [exact Hs|exact (clients_receive_walker_results fs s Hs)].
Defined.

(** X8. What a client gets at once when it asks for the path of the
    active scan and no new scan is needed.  If the walk has resolved, the
    client gets the done event with the final tree and is not added to
    the listeners (its stream is closed).  Otherwise it is added to the
    listeners, and gets the last snapshot that the walk passed to
    [onProgress], with its counters, when there is one. *)
Theorem joiner_gets_current_state fs s resolved :
  reachable fs s → needsNew resolved s = false →
  let l := nextListener s in
  let s' := requestScan fs resolved s in
  ∃ a e, activeScan s = Some a ∧ entries s !! a = Some e ∧
         path (scan e) = resolved ∧
    match settled (walker e) with
    | Some (Resolved final) =>
        trace s' = Delivered l a (EvDone final) :: trace s ∧
        sseListeners s' = sseListeners s
    | _ =>
        sseListeners s' = sseListeners s ++ [l] ∧
        trace s' = Subscribed l a
                   :: match published (walker e) with
                      | [] => trace s
                      | (t, pr) :: _ =>
                          Delivered l a (EvProgress t (Some pr)) :: trace s
                      end
    end.
Proof.
  intros Hs Hnew l s'.
  destruct (CoordinatorFacts.needsNew_false _ _ Hnew)
    as (a & e & Ha & He & Hpath & Hfine).
  destruct (reachable_entries_ok fs s Hs a e He) as [Hm _].
  exists a, e. split_and!; try done.
  subst s'. unfold requestScan. rewrite Hnew. unfold subscribe. fold l.
  rewrite Ha, He. unfold mirrors in Hm.
  assert (done (scan e) = false →
          (tree (scan e), progress (scan e))
          = latest (published (walker e)) →
          match published (walker e) with
          | [] => tree (scan e) = None
          | (t, pr) :: _ => tree (scan e) = Some t ∧
                            progress (scan e) = Some pr
          end) as Hlatest.
  { intros _ Hl. destruct (published (walker e)) as [|[t pr] rest];
      simpl in Hl; by simplify_eq. }
  destruct (settled (walker e)) as [[final| |m]|].
  - destruct Hm as (-> & _ & -> & _). done.
  - destruct Hm as (Hl & Hd & _). specialize (Hlatest Hd Hl).
    destruct (published (walker e)) as [|[t pr] rest].
    + by rewrite Hlatest.
    + destruct Hlatest as [-> ->]. by rewrite Hd.
  - destruct Hm as (_ & Hd & Herr). destruct Hfine; congruence.
  - destruct Hm as (Hl & Hd & _). specialize (Hlatest Hd Hl).
    destruct (published (walker e)) as [|[t pr] rest].
    + by rewrite Hlatest.
    + destruct Hlatest as [-> ->]. by rewrite Hd.
Qed.

Lemma joiner_gets_current_state_witness :
  let fs := Fixtures.fs_x in
  let s := default init
             (perform_all fs [Request "/tmp/x"; Fill 0; Tick 0]%nat init) in
  let resolved := "/tmp/x" in
  (reachable fs s ∧ needsNew resolved s = false) ∧
  let l := nextListener s in
  let s' := requestScan fs resolved s in
  ∃ a e, activeScan s = Some a ∧ entries s !! a = Some e ∧
         path (scan e) = resolved ∧
    match settled (walker e) with
    | Some (Resolved final) =>
        trace s' = Delivered l a (EvDone final) :: trace s ∧
        sseListeners s' = sseListeners s
    | _ =>
        sseListeners s' = sseListeners s ++ [l] ∧
        trace s' = Subscribed l a
                   :: match published (walker e) with
                      | [] => trace s
                      | (t, pr) :: _ =>
                          Delivered l a (EvProgress t (Some pr)) :: trace s
                      end
    end.
Proof.
  intros fs s resolved.
  assert (reachable fs s) as Hs.
  { apply (CoordinatorFacts.perform_all_rtc
             fs [Request "/tmp/x"; Fill 0; Tick 0]%nat).
    vm_compute. reflexivity. }
  assert (needsNew resolved s = false) as Hnew by (vm_compute; reflexivity).
  split; [by split|].
  exact (joiner_gets_current_state fs s resolved Hs Hnew).
Defined.

(** X9. A done or error event is the last event of a stream: the
    listener that gets one is removed from [sseListeners] and gets
    nothing after it, whichever scans follow; no listener is registered
    twice. *)
Theorem done_or_error_ends_the_stream fs s :
  reachable fs s →
  streams_end (trace s) ∧
  (∀ l o ev, Delivered l o ev ∈ trace s → terminal ev = true →
     l ∉ sseListeners s) ∧
  NoDup (sseListeners s).
Proof.
  intros Hs. destruct (reachable_listeners_ok fs s Hs) as [_ Hnd _ Hcl Hend].
  done.
Qed.

Lemma done_or_error_ends_the_stream_witness :
  let fs := Fixtures.fs_x in
  let s := default init
             (perform_all fs
                [Request "/tmp/x"; Fill 0; Fill 0; Fill 0; Fill 0; Fill 0;
                 Fill 0; Fill 0; Resolve 0; Request "/tmp/x"]%nat init) in
  reachable fs s ∧
  (streams_end (trace s) ∧
   (∀ l o ev, Delivered l o ev ∈ trace s → terminal ev = true →
      l ∉ sseListeners s) ∧
   NoDup (sseListeners s)).
Proof.
  intros fs s.
  assert (reachable fs s) as Hs.
  { apply (CoordinatorFacts.perform_all_rtc fs
             [Request "/tmp/x"; Fill 0; Fill 0; Fill 0; Fill 0; Fill 0;
              Fill 0; Fill 0; Resolve 0; Request "/tmp/x"]%nat).
    vm_compute. reflexivity. }
  split; [exact Hs|exact (done_or_error_ends_the_stream fs s Hs)].
Defined.

(** In the run above both clients got the done event, 35 bytes, and no
    listener is left. *)
Example done_stream_example :
  let fs := Fixtures.fs_x in
  (λ s, ((λ item, match item with
                  | Delivered l o (EvDone t) => Some (l, o, size t)
                  | _ => None
                  end) <$> trace s,
         sseListeners s))
    <$> perform_all fs
          [Request "/tmp/x"; Fill 0; Fill 0; Fill 0; Fill 0; Fill 0;
           Fill 0; Fill 0; Resolve 0; Request "/tmp/x"]%nat init
  = Some ([Some (1%nat, 0%nat, 35); Some (0%nat, 0%nat, 35); None], []).
Proof. vm_compute. done. Qed.

End CoordinatorViewFacts.

Module LimiterLiveFacts.
Import Limiter LimiterInv LimiterLive.

Lemma count_pos f cs :
  0 < count f cs → ∃ t c, cs !! t = Some c ∧ f c = true.
Proof.
  unfold count. intros Hpos.
  destruct (filter (λ c, f c = true) cs) as [|c l] eqn:Hf; [simpl in Hpos; lia|].
  assert (c ∈ filter (λ c, f c = true) cs) as [Hc Hin]%list_elem_of_filter
    by (rewrite Hf; apply list_elem_of_here).
  apply list_elem_of_lookup in Hin as [t Ht]. eauto.
Qed.

Lemma count_none f cs :
  (∀ t c, cs !! t = Some c → f c = false) → count f cs = 0.
Proof.
  intros Hnone. unfold count.
  destruct (filter (λ c, f c = true) cs) as [|c l] eqn:Hf; [done|].
  assert (c ∈ filter (λ c, f c = true) cs) as [Hc Hin]%list_elem_of_filter
    by (rewrite Hf; apply list_elem_of_here).
  apply list_elem_of_lookup in Hin as [t Ht].
  rewrite (Hnone _ _ Ht) in Hc. done.
Qed.

Lemma live_init : live init.
Proof. split; simpl; [|done]. intros t c. by rewrite lookup_nil. Qed.

Lemma live_step io io' : step io io' → inv io → live io → live io'.
Proof.
  intros Hstep [Hact Hbound Hq Hnd Hfifo] [Hwait Hfull].
  destruct Hstep as [c io|t c io Ht|t c r io Ht].
  - (* a system call is issued *)
    unfold issue. destruct (wrapper_of c) eqn:Hw.
    + unfold acquireSlot.
      destruct (Z.ltb_spec (active (limiter io)) MAX_CONCURRENT) as [Hlt|Hge];
        split; simpl.
      * intros t c' [Hold|[_ Hnew]]%lookup_app_Some; [by eapply Hwait|].
        by apply list_lookup_singleton_Some in Hnew as [_ [=]].
      * intros Hne. specialize (Hfull Hne). lia.
      * intros t c' [Hold|[Hge' Hnew]]%lookup_app_Some.
        -- apply elem_of_app. left. by eapply Hwait.
        -- apply list_lookup_singleton_Some in Hnew as [Ht _].
           apply elem_of_app. right. apply list_elem_of_singleton. lia.
      * intros _. lia.
    + split; simpl; [|done].
      intros t c' [Hold|[_ Hnew]]%lookup_app_Some; [by eapply Hwait|].
      by apply list_lookup_singleton_Some in Hnew as [_ [=]].
  - (* the continuation of a granted call runs *)
    split; simpl; [|done]. intros t' c' Ht'.
    destruct (decide (t' = t)) as [->|Hne].
    + apply list_lookup_insert_Some in Ht' as [(_ & [=] & _)|[? _]]; done.
    + rewrite list_lookup_insert_ne in Ht' by done. by eapply Hwait.
  - (* a system call settles *)
    assert (∀ t' c', <[t := mkCall c (Finished r)]> (calls io) !! t'
                     = Some (mkCall c' Waiting) →
                     calls io !! t' = Some (mkCall c' Waiting)) as Hdone.
    { intros t' c' Ht'. destruct (decide (t' = t)) as [->|Hne].
      - apply list_lookup_insert_Some in Ht' as [(_ & [=] & _)|[? _]]; done.
      - by rewrite list_lookup_insert_ne in Ht' by done. }
    unfold settle. destruct (wrapper_of c) eqn:Hw.
    2:{ split; simpl; [|done]. intros t' c' Ht'. by eapply Hwait, Hdone. }
    unfold releaseSlot.
    destruct (queue (limiter io)) as [|next rest] eqn:Hqueue.
    + split; simpl; [|done]. intros t' c' Ht'.
      apply Hdone, Hwait in Ht'. by apply elem_of_nil in Ht'.
    + apply Forall_cons in Hq as [(c' & Hnext & Hw') Hrest].
      assert ((<[t := mkCall c (Finished r)]> (calls io)) !! next
              = Some (mkCall c' Waiting)) as Hnext'
        by (rewrite list_lookup_insert_ne; [done|]; intros <-; congruence).
      unfold wake. rewrite Hnext'. simpl. split; simpl.
      * intros t' c2 Ht'. destruct (decide (t' = next)) as [->|Hne].
        -- apply list_lookup_insert_Some in Ht' as [(_ & [=] & _)|[? _]];
             done.
        -- rewrite list_lookup_insert_ne in Ht' by done.
           apply Hdone, Hwait in Ht'.
           apply elem_of_cons in Ht' as [->|Ht']; done.
      * intros _. by apply Hfull.
Qed.

Lemma reachable_live io : reachable io → live io.
Proof.
  intros H.
  assert (∀ a b, rtc step a b → inv a → live a → live b) as Hrtc.
  { induction 1 as [|a b c Hab _ IH]; [done|]. intros Ha Hl.
    apply IH; [by eapply LimiterFacts.limiter_step_inv|by eapply live_step]. }
  eapply Hrtc; [exact H|apply LimiterFacts.limiter_init_inv|apply live_init].
Qed.

(** X10. No waiter is forgotten and none waits next to a free slot.  A
    call that waits in [acquireSlot] has its resolver in the queue, all 64
    slots are taken, and some call of [readdir] or [stat] holds one of
    them, so that its [releaseSlot] will wake the head of the queue.
    When no call holds a slot, [active] is 0 and the queue is empty: no
    slot leaks. *)
Theorem waiters_are_queued_and_slots_do_not_leak io :
  reachable io →
  (∀ t c, calls io !! t = Some (mkCall c Waiting) →
     t ∈ queue (limiter io) ∧
     active (limiter io) = MAX_CONCURRENT ∧
     ∃ t' c', calls io !! t' = Some c' ∧ holds_slot c' = true) ∧
  ((∀ t c, calls io !! t = Some c → holds_slot c = false) →
     active (limiter io) = 0 ∧ queue (limiter io) = [] ∧
     ∀ t c, calls io !! t = Some c → phase c ≠ Waiting).
Proof.
  intros Hio.
  pose proof (LimiterFacts.limiter_reachable_inv _ Hio)
    as [Hact Hbound Hq Hnd Hfifo].
  destruct (reachable_live _ Hio) as [Hwait Hfull].
  split.
  - intros t c Ht. pose proof (Hwait _ _ Ht) as Hin.
    assert (queue (limiter io) ≠ []) as Hne
      by (intros Heq; rewrite Heq in Hin; by apply elem_of_nil in Hin).
    specialize (Hfull Hne). split_and!; try done.
    apply count_pos. rewrite <- Hact, Hfull. done.
  - intros Hnone. rewrite (count_none _ _ Hnone) in Hact.
    assert (queue (limiter io) = []) as Hempty.
    { destruct (queue (limiter io)) as [|x q] eqn:Hqueue; [done|].
      assert (active (limiter io) = MAX_CONCURRENT) as Hf by by apply Hfull.
      rewrite Hact in Hf. done. }
    split_and!; try done.
    intros t [c p] Ht Hp. simpl in Hp. subst p.
    apply Hwait in Ht. rewrite Hempty in Ht. by apply elem_of_nil in Ht.
Qed.

Lemma waiters_are_queued_and_slots_do_not_leak_witness :
  let io := Nat.iter 65 (issue Readdir) init in
  reachable io ∧
  ((∀ t c, calls io !! t = Some (mkCall c Waiting) →
      t ∈ queue (limiter io) ∧
      active (limiter io) = MAX_CONCURRENT ∧
      ∃ t' c', calls io !! t' = Some c' ∧ holds_slot c' = true) ∧
   ((∀ t c, calls io !! t = Some c → holds_slot c = false) →
      active (limiter io) = 0 ∧ queue (limiter io) = [] ∧
      ∀ t c, calls io !! t = Some c → phase c ≠ Waiting)).
Proof.
  intros io.
  assert (∀ k, reachable (Nat.iter k (issue Readdir) init)) as Hreach.
  { induction k as [|k IH]; [apply rtc_refl|].
    eapply rtc_r; [exact IH|apply step_issue]. }
  split; [apply Hreach|].
  apply (waiters_are_queued_and_slots_do_not_leak io), Hreach.
Defined.

End LimiterLiveFacts.

(** * After the signal has fired *)
Section AbortFacts.
Variable fs : FileSystem.
Variable maxDepth : nat.



End AbortFacts.




(** In the run above the abort comes when one [stat] and one [readdir]
    are in flight: the file enters the tree, the directory stays
    unexpanded, and the scan rejects. *)
Example abort_example :
  let fs := Fixtures.fs_x in
  let s0 := run fs 8 1 (start_scan fs 8 "/tmp/x" false) in
  let s := mkScan (root s0) (mkShared (progress (shared s0))
                                      (dirty (shared s0)) true)
                  (published s0) (settled s0) in
  let s' := run fs 8 100 s in
  (in_flight (root s), count_nodes (root s)) = (2, 2)%nat ∧
  (in_flight (root s'), count_nodes (root s'), settled s')
  = (0%nat, 3%nat, Some AbortError).
Proof. vm_compute. done. Qed.

(** * The client *)

(** ** [removeNode] *)

Lemma subnodes_trans t d dm m dk k :
  (dm, m) ∈ subnodes d t → (dk, k) ∈ subnodes dm m →
  (dk, k) ∈ subnodes d t.
Proof.
  revert d.
  induction t as [n p s ty e tr|n p s ty e cs tr IH]
    using TreeNode_forall_ind; intros d Hm Hk.
  - apply subnodes_inv in Hm as [[-> ->]|(cs & c & [=] & _)]. done.
  - apply subnodes_inv in Hm as [[-> ->]|(cs' & c & [= <-] & Hc & Hm)];
      [done|].
    eapply subnodes_child; [done..|].
    rewrite Forall_forall in IH. by eapply IH.
Qed.

Lemma pruneRecursive_children n p s ty e cs tr targetPath :
  pruneRecursive (mkNode n p s ty e (Some cs) tr) targetPath
  = let newChildren :=
      (λ c, pruneRecursive c targetPath)
        <$> filter (λ c, path c ≠ targetPath) cs in
    mkNode n p (sum_sizes newChildren) ty e (Some newChildren) tr.
Proof.
  cbn [pruneRecursive].
  set (loop := fix loop (l : list TreeNode) : list TreeNode := _).
  assert (∀ l, loop l = (λ c, pruneRecursive c targetPath)
                          <$> filter (λ c, path c ≠ targetPath) l) as ->;
    [|done].
  induction l as [|c l IH]; [done|]. rewrite filter_cons. simpl.
  case_bool_decide as Hc.
  - by rewrite decide_False by (by intros ?).
  - rewrite decide_True by done. csimpl. by rewrite IH.
Qed.

Lemma pruneRecursive_path node targetPath :
  path (pruneRecursive node targetPath) = path node.
Proof. by destruct node as [n p s ty e [cs|] tr]. Qed.

Lemma pruneRecursive_tree_all node targetPath d :
  path node ≠ targetPath →
  tree_all (not_at targetPath) d (pruneRecursive node targetPath) ∧
  tree_all sum_ok d (pruneRecursive node targetPath).
Proof.
  revert d.
  induction node as [n p s ty e tr|n p s ty e cs tr IH]
    using TreeNode_forall_ind; intros d Hp.
  - split; by apply tree_all_leaf.
  - rewrite pruneRecursive_children. cbv zeta.
    assert (Forall (λ c, tree_all (not_at targetPath) (S d) c ∧
                         tree_all sum_ok (S d) c)
              ((λ c, pruneRecursive c targetPath)
                 <$> filter (λ c, path c ≠ targetPath) cs)) as Hall.
    { rewrite Forall_fmap. apply Forall_forall.
      intros c [Hc Hin]%list_elem_of_filter. rewrite Forall_forall in IH.
      by apply IH. }
    split; apply tree_all_intro; try done.
    + intros ? [= <-]. eapply Forall_impl; [exact Hall|]. by intros c [? ?].
    + intros ? [= <-]. simpl. apply sum_sizes_total.
    + intros ? [= <-]. eapply Forall_impl; [exact Hall|]. by intros c [? ?].
Qed.

Lemma pruneRecursive_size node targetPath d :
  tree_all sum_ok d node →
  size (pruneRecursive node targetPath)
  = size node - removed_bytes targetPath node.
Proof.
  revert d.
  induction node as [n p s ty e tr|n p s ty e cs tr IH]
    using TreeNode_forall_ind; intros d Hsum; [simpl; lia|].
  rewrite pruneRecursive_children. cbv zeta. cbn [size removed_bytes].
  pose proof (tree_all_here _ _ _ Hsum cs eq_refl) as Hs. simpl in Hs.
  subst s. rewrite sum_sizes_total.
  pose proof (tree_all_children _ _ _ _ Hsum eq_refl) as Hcs.
  clear Hsum. induction cs as [|c cs IHcs]; [done|].
  apply Forall_cons in IH as [IHc IH], Hcs as [Hc Hcs].
  rewrite filter_cons, sumZ_cons. cbn [total foldr]. fold (total cs).
  specialize (IHcs IH Hcs). case_bool_decide as Hp.
  - rewrite decide_False by (by intros ?). lia.
  - rewrite decide_True by done. csimpl.
    change (foldr (λ c s, size c + s) 0 ?l) with (total l).
    rewrite (IHc (S d) Hc). lia.
Qed.

Lemma pruneRecursive_absent node targetPath d :
  tree_all sum_ok d node →
  (∀ dm m c cs, (dm, m) ∈ subnodes d node → children m = Some cs →
                c ∈ cs → path c ≠ targetPath) →
  pruneRecursive node targetPath = node.
Proof.
  revert d.
  induction node as [n p s ty e tr|n p s ty e cs tr IH]
    using TreeNode_forall_ind; intros d Hsum Habs; [done|].
  rewrite pruneRecursive_children. cbv zeta.
  pose proof (tree_all_children _ _ _ _ Hsum eq_refl) as Hcs.
  assert ((λ c, pruneRecursive c targetPath)
            <$> filter (λ c, path c ≠ targetPath) cs = cs) as ->.
  { assert (∀ c, c ∈ cs → path c ≠ targetPath) as Hhere.
    { intros c Hc. eapply (Habs d); [apply subnodes_here|done|done]. }
    assert (∀ c, c ∈ cs → pruneRecursive c targetPath = c) as Hbelow.
    { intros c Hc. rewrite Forall_forall in IH, Hcs.
      apply (IH c Hc (S d)); [by apply Hcs|].
      intros dm m c' cs' Hm. eapply Habs. by eapply subnodes_child. }
    clear -Hhere Hbelow. induction cs as [|c cs IHcs]; [done|].
    rewrite filter_cons, decide_True
      by (apply Hhere, list_elem_of_here).
    csimpl. rewrite Hbelow by apply list_elem_of_here. f_equal.
    apply IHcs; intros; [apply Hhere|apply Hbelow];
      by apply list_elem_of_further. }
  f_equal. rewrite sum_sizes_total.
  symmetry. apply (tree_all_here _ _ _ Hsum cs eq_refl).
Qed.

(** ** [pruneTree] *)

Lemma pruneTree_children n p s ty e c cs tr maxNodes :
  pruneTree (mkNode n p s ty e (Some (c :: cs)) tr) maxNodes
  = mkNode n p s ty e
           (Some (prune_loop pruneTree maxNodes (c :: cs) 0)) tr.
Proof.
  cbn [pruneTree].
  set (loop := fix loop (l : list TreeNode) (leafCount : Z)
                 : list TreeNode := _).
  assert (∀ l k, loop l k = prune_loop pruneTree maxNodes l k) as Hloop.
  { induction l as [|x l IH]; intros k; [done|]. simpl.
    destruct (maxNodes <=? k); [done|].
    destruct (type x); by rewrite IH. }
  rewrite !Hloop. simpl.
  destruct (maxNodes <=? 0); [done|]. by destruct (type c).
Qed.

Lemma countLeaves_children n p s ty e cs tr :
  cs ≠ [] →
  countLeaves (mkNode n p s ty e (Some cs) tr) = sumZ countLeaves cs.
Proof.
  intros Hne. destruct cs as [|c cs]; [done|].
  cbn [countLeaves].
  assert (∀ l acc, foldl (λ sum c, sum + countLeaves c) acc l
                   = acc + sumZ countLeaves l) as ->; [|lia].
  induction l as [|x l IH]; intros acc; simpl; [lia|].
  rewrite IH. unfold sumZ. simpl. lia.
Qed.

Lemma countLeaves_pos node : 1 ≤ countLeaves node.
Proof.
  induction node as [n p s ty e tr|n p s ty e cs tr IH]
    using TreeNode_forall_ind; [done|].
  destruct cs as [|c cs]; [done|].
  rewrite countLeaves_children by done.
  apply Forall_cons in IH as [IHc IH]. rewrite sumZ_cons.
  assert (0 ≤ sumZ countLeaves cs); [|lia].
  apply sumZ_nonneg. eapply Forall_impl; [exact IH|]. simpl. lia.
Qed.

(** The loop stops at [maxNodes] leaves, when each recursive call keeps
    to its budget. *)
Lemma prune_loop_bound (prune : TreeNode → Z → TreeNode) maxNodes l k :
  Forall (λ c, (type c = file → countLeaves c = 1) ∧
               ∀ m, 1 ≤ m → countLeaves (prune c m) ≤ m) l →
  k ≤ maxNodes →
  k + sumZ countLeaves (prune_loop prune maxNodes l k) ≤ maxNodes.
Proof.
  intros Hall. revert k.
  induction Hall as [|c l [Hfile Hdir] _ IH]; intros k Hk; simpl; [lia|].
  destruct (Z.leb_spec maxNodes k) as [Hge|Hlt]; [simpl; lia|].
  destruct (type c) eqn:Hty; rewrite sumZ_cons.
  - rewrite (Hfile eq_refl). specialize (IH (k + 1)). lia.
  - specialize (Hdir (maxNodes - k)).
    specialize (IH (k + countLeaves (prune c (maxNodes - k)))). lia.
Qed.

Lemma pruneTree_bound node maxNodes d :
  tree_all file_is_leaf d node → 1 ≤ maxNodes →
  countLeaves (pruneTree node maxNodes) ≤ maxNodes.
Proof.
  revert d maxNodes.
  induction node as [n p s ty e tr|n p s ty e cs tr IH]
    using TreeNode_forall_ind; intros d maxNodes Hleaf Hmax; [done|].
  destruct cs as [|c cs]; [done|].
  rewrite pruneTree_children.
  pose proof (tree_all_children _ _ _ _ Hleaf eq_refl) as Hcs.
  assert (prune_loop pruneTree maxNodes (c :: cs) 0 ≠ []) as Hne.
  { simpl. destruct (Z.leb_spec maxNodes 0); [lia|]. by destruct (type c). }
  rewrite countLeaves_children by done.
  assert (0 + sumZ countLeaves (prune_loop pruneTree maxNodes (c :: cs) 0)
          ≤ maxNodes); [|lia].
  apply prune_loop_bound; [|lia].
  rewrite Forall_forall in IH, Hcs |- *. intros x Hx. split.
  - intros Hty. pose proof (tree_all_here _ _ _ (Hcs x Hx) Hty) as Hch.
    destruct x; simpl in *. by subst.
  - intros m Hm. apply (IH x Hx (S d)); [by apply Hcs|done].
Qed.

(** Within the budget the loop keeps everything. *)
Lemma prune_loop_identity (prune : TreeNode → Z → TreeNode) maxNodes l k :
  Forall (λ c, ∀ m, countLeaves c ≤ m → prune c m = c) l →
  k + sumZ countLeaves l ≤ maxNodes →
  prune_loop prune maxNodes l k = l.
Proof.
  intros Hall. revert k.
  induction Hall as [|c l Hc _ IH]; intros k Hk; simpl; [done|].
  rewrite sumZ_cons in Hk.
  pose proof (countLeaves_pos c) as Hpos.
  assert (0 ≤ sumZ countLeaves l) as Hrest.
  { apply sumZ_nonneg, Forall_forall. intros x _.
    pose proof (countLeaves_pos x). lia. }
  destruct (Z.leb_spec maxNodes k) as [Hge|Hlt]; [lia|].
  destruct (type c).
  - f_equal. apply IH. lia.
  - rewrite Hc by lia. f_equal. apply IH. lia.
Qed.

Lemma pruneTree_identity node maxNodes :
  countLeaves node ≤ maxNodes → pruneTree node maxNodes = node.
Proof.
  revert maxNodes.
  induction node as [n p s ty e tr|n p s ty e cs tr IH]
    using TreeNode_forall_ind; intros maxNodes Hle; [done|].
  destruct cs as [|c cs]; [done|].
  rewrite pruneTree_children. f_equal. f_equal.
  rewrite countLeaves_children in Hle by done.
  apply prune_loop_identity; [|lia].
  eapply Forall_impl; [exact IH|]. simpl. auto.
Qed.

Lemma pruneTree_no_budget node maxNodes :
  maxNodes ≤ 0 → countLeaves (pruneTree node maxNodes) = 1.
Proof.
  intros Hle. destruct node as [n p s ty e [[|c cs]|] tr]; try done.
  rewrite pruneTree_children. simpl.
  by destruct (Z.leb_spec maxNodes 0); [|lia].
Qed.

(** ** The trees of the scanner *)

Lemma recalcSizes_type t : type (recalcSizes t) = type t.
Proof. by destruct t as [n p s ty e [[|c cs]|] tr]. Qed.

Lemma applyChildLimits_type t d : type (applyChildLimits t d) = type t.
Proof. by destruct t as [n p s ty e [[|c cs]|] tr]. Qed.

Lemma snapshot_file_is_leaf t :
  tree_all file_is_leaf 0 t → tree_all file_is_leaf 0 (snapshot t).
Proof.
  intros Ht. unfold snapshot.
  assert (∀ t d, tree_all file_is_leaf d t →
                 tree_all file_is_leaf d (recalcSizes t)) as Hrecalc.
  { apply tree_all_recalcSizes. intros d u Hu Hty.
    rewrite recalcSizes_type in Hty.
    rewrite recalcSizes_children, (tree_all_here _ _ _ Hu Hty). done. }
  apply Hrecalc.
  apply (tree_all_applyChildLimits file_is_leaf file_is_leaf); [|done|].
  - intros d u Hu Hty. rewrite applyChildLimits_type in Hty.
    rewrite applyChildLimits_children, (tree_all_here _ _ _ Hu Hty). done.
  - by apply Hrecalc.
Qed.

Lemma snapshot_of_walk_file_is_leaf fs maxDepth t :
  snapshot_of_walk fs maxDepth t → tree_all file_is_leaf 0 t.
Proof.
  intros (ab & w & Hok & ->). apply snapshot_file_is_leaf.
  eapply (ok_tree_all fs maxDepth file_is_leaf); [|exact Hok].
  intros d n Hn Hty. simpl in Hty. by destruct Hn.
Qed.


(** X12. [removeNode] gives nothing when the root itself is at
    [targetPath]; otherwise it gives a tree with the root kept in which no
    node is at [targetPath], at any depth, and in which the size of every
    node with children is the sum of the sizes of its children, whatever
    the sizes were before. *)
Theorem removeNode_removes_the_target root targetPath :
  (path root = targetPath → removeNode root targetPath = None) ∧
  (path root ≠ targetPath →
   ∃ t, removeNode root targetPath = Some t ∧ path t = path root ∧
        tree_all (not_at targetPath) 0 t ∧ tree_all sum_ok 0 t).
Proof.
  unfold removeNode. split; intros Hp.
  - by rewrite bool_decide_eq_true_2.
  - rewrite bool_decide_eq_false_2 by done. eexists. split; [done|].
    split; [apply pruneRecursive_path|].
    by apply pruneRecursive_tree_all.
Qed.

(** X13. On a tree whose sizes add up, [removeNode] lowers the size of
    the root by the sizes of the topmost nodes at [targetPath], and gives
    the tree back unchanged when no node below the root is at
    [targetPath]. *)
Theorem removeNode_size root targetPath :
  tree_all sum_ok 0 root → path root ≠ targetPath →
  ∃ t, removeNode root targetPath = Some t ∧
       size t = size root - removed_bytes targetPath root ∧
       ((∀ dm m, (dm, m) ∈ subnodes 0 root → path m ≠ targetPath) →
        t = root).
Proof.
  intros Hsum Hp. unfold removeNode.
  rewrite bool_decide_eq_false_2 by done. eexists. split; [done|]. split.
  - by eapply pruneRecursive_size.
  - intros Habs. eapply pruneRecursive_absent; [done|].
    intros dm m c cs Hm Hcs Hc. eapply (Habs (S dm)).
    eapply subnodes_trans; [exact Hm|].
    eapply subnodes_child; [done..|apply subnodes_here].
Qed.

Lemma removeNode_size_witness :
  (tree_all sum_ok 0 tree_x ∧ path tree_x ≠ "/tmp/x/b/c.txt") ∧
  ∃ t, removeNode tree_x "/tmp/x/b/c.txt" = Some t ∧
       size t = size tree_x - removed_bytes "/tmp/x/b/c.txt" tree_x ∧
       ((∀ dm m, (dm, m) ∈ subnodes 0 tree_x → path m ≠ "/tmp/x/b/c.txt") →
        t = tree_x).
Proof.
  assert (tree_all sum_ok 0 tree_x) as Hsum.
  { intros dm m Hin. simpl in Hin.
    repeat (apply elem_of_cons in Hin as [[= -> ->]|Hin];
            [by intros cs [= <-]|]).
    by apply elem_of_nil in Hin. }
  assert (path tree_x ≠ "/tmp/x/b/c.txt") as Hp by done.
  split; [by split|].
  exact (removeNode_size tree_x "/tmp/x/b/c.txt" Hsum Hp).
Defined.

(** Without [c.txt], 20 bytes, the tree weighs 15 bytes and [b] 5. *)
Example removeNode_example :
  (λ t, (size t, (λ c, (name c, size c)) <$> default [] (children t)))
    <$> removeNode tree_x "/tmp/x/b/c.txt"
  = Some (15, [("b", 5); ("a.txt", 10)]) ∧
  removeNode tree_x "/tmp/x" = None ∧
  removeNode tree_x "/tmp/y" = Some tree_x.
Proof. vm_compute. done. Qed.

(** X14. [pruneTree] keeps to its budget.  On a tree whose file nodes
    have no children, the tree that it returns has at most [maxNodes]
    leaves (one leaf when [maxNodes] is below 1: the node itself, or the
    node with an empty list of children); and a tree that has no more
    than [maxNodes] leaves is returned as it is. *)
Theorem pruneTree_leaf_budget node maxNodes :
  tree_all file_is_leaf 0 node →
  1 ≤ countLeaves (pruneTree node maxNodes) ≤ Z.max 1 maxNodes ∧
  (countLeaves node ≤ maxNodes → pruneTree node maxNodes = node).
Proof.
  intros Hleaf. split_and!.
  - apply countLeaves_pos.
  - destruct (Z.le_gt_cases 1 maxNodes) as [Hge|Hlt].
    + pose proof (pruneTree_bound node maxNodes 0 Hleaf Hge). lia.
    + rewrite pruneTree_no_budget by lia. lia.
  - apply pruneTree_identity.
Qed.

Lemma pruneTree_leaf_budget_witness :
  tree_all file_is_leaf 0 tree_x ∧
  1 ≤ countLeaves (pruneTree tree_x 2) ≤ Z.max 1 2 ∧
  (countLeaves tree_x ≤ 2 → pruneTree tree_x 2 = tree_x).
Proof.
  assert (tree_all file_is_leaf 0 tree_x) as Hleaf.
  { intros dm m Hin. simpl in Hin.
    repeat (apply elem_of_cons in Hin as [[= -> ->]|Hin]; [done|]).
    by apply elem_of_nil in Hin. }
  split; [exact Hleaf|exact (pruneTree_leaf_budget tree_x 2 Hleaf)].
Defined.

(** With a budget of two leaves [b] keeps its two files and [a.txt] is
    dropped; the sizes stay as they were. *)
Example pruneTree_example :
  let t := pruneTree tree_x 2 in
  (countLeaves tree_x, countLeaves t, size t,
   name <$> default [] (children t))
  = (3, 2, 35, ["b"]) ∧
  pruneTree tree_x 3 = tree_x.
Proof. vm_compute. done. Qed.

(** X15. The trees of a streaming scan fit the layout: a file node of a
    published snapshot has no children, so that [pruneTree] with
    [MAX_RECTS] leaves at most 500 leaves of any snapshot passed to
    [onProgress] and of the tree with which the scan resolves. *)
Theorem snapshots_pruned_to_MAX_RECTS fs maxDepth dirPath signal s :
  reachable fs maxDepth dirPath signal s →
  MAX_RECTS = 500 ∧
  (∀ t pr, (t, pr) ∈ published s →
     tree_all file_is_leaf 0 t ∧
     countLeaves (pruneTree t MAX_RECTS) ≤ MAX_RECTS) ∧
  (∀ t, settled s = Some (Resolved t) →
     tree_all file_is_leaf 0 t ∧
     countLeaves (pruneTree t MAX_RECTS) ≤ MAX_RECTS).
Proof.
  intros Hs. pose proof (reachable_inv fs maxDepth _ _ _ Hs) as Hinv.
  assert (∀ t, snapshot_of_walk fs maxDepth t →
               tree_all file_is_leaf 0 t ∧
               countLeaves (pruneTree t MAX_RECTS) ≤ MAX_RECTS) as Hsnap.
  { intros t Ht%snapshot_of_walk_file_is_leaf. split; [done|].
    by apply (pruneTree_bound t MAX_RECTS 0). }
  split_and!; [done|..].
  - intros t pr Hin. pose proof (inv_published _ _ _ Hinv) as Hall.
    rewrite Forall_forall in Hall. destruct (Hall _ Hin) as [Ht _].
    by apply Hsnap.
  - intros t Ht. destruct (inv_resolved _ _ _ Hinv t Ht) as (Hsnap' & _).
    by apply Hsnap.
Qed.

Lemma snapshots_pruned_to_MAX_RECTS_witness :
  let fs := Fixtures.fs_x in
  let s := run fs 8 100 (start_scan fs 8 "/tmp/x" false) in
  reachable fs 8 "/tmp/x" false s ∧
  (MAX_RECTS = 500 ∧
   (∀ t pr, (t, pr) ∈ published s →
      tree_all file_is_leaf 0 t ∧
      countLeaves (pruneTree t MAX_RECTS) ≤ MAX_RECTS) ∧
   (∀ t, settled s = Some (Resolved t) →
      tree_all file_is_leaf 0 t ∧
      countLeaves (pruneTree t MAX_RECTS) ≤ MAX_RECTS)).
Proof.
  intros fs s.
  assert (reachable fs 8 "/tmp/x" false s) as Hs by apply run_reachable.
  split; [exact Hs|].
  exact (snapshots_pruned_to_MAX_RECTS fs 8 "/tmp/x" false s Hs).
Defined.

(** The tree with which the scan of the fixture resolves is [tree_x]. *)
Example tree_x_example :
  settled (run Fixtures.fs_x 8 100
             (start_scan Fixtures.fs_x 8 "/tmp/x" false))
  = Some (Resolved tree_x).
Proof. vm_compute. done. Qed.

(** * The event stream *)
Module EventStreamFacts.
Import EventStream.

Lemma string_ind2 (P : string → Prop) :
  P EmptyString →
  (∀ c, P (String c EmptyString)) →
  (∀ c c' s, P s → P (String c' s) → P (String c (String c' s))) →
  ∀ s, P s.
Proof.
  intros H0 H1 H2.
  assert (∀ s, P s ∧ ∀ c, P (String c s)) as H; [|intros s; apply H].
  induction s as [|c s [IH1 IH2]]; [by split|].
  split; [apply IH2|]. intros c0. by apply H2.
Qed.

Lemma append_cons c (s t : string) : String c s +:+ t = String c (s +:+ t).
Proof. done. Qed.

Lemma append_nil_l (t : string) : EmptyString +:+ t = t.
Proof. done. Qed.

Lemma append_nil_r (s : string) : s +:+ EmptyString = s.
Proof. induction s as [|c s IH]; [done|]. by rewrite append_cons, IH. Qed.

Lemma append_assoc (a b c : string) : (a +:+ b) +:+ c = a +:+ (b +:+ c).
Proof. induction a as [|x a IH]; [done|]. by rewrite !append_cons, IH. Qed.

Lemma split_blank_cons c c' s :
  split_blank (String c (String c' s))
  = if bool_decide (c = nl) && bool_decide (c' = nl)
    then EmptyString :: split_blank s
    else cons_head c (split_blank (String c' s)).
Proof. done. Qed.

Lemma split_blank_nonempty s : split_blank s ≠ [].
Proof.
  induction s as [|c|c c' s IH1 IH2] using string_ind2; try done.
  rewrite split_blank_cons. destruct (_ && _); [done|].
  unfold cons_head. by destruct (split_blank (String c' s)).
Qed.

(** Without a separator there is one part, the text. *)
Lemma split_blank_single s p : split_blank s = [p] → p = s.
Proof.
  revert p.
  induction s as [|c|c c' s IH1 IH2] using string_ind2; intros p;
    [by intros [= <-]..|].
  rewrite split_blank_cons. destruct (_ && _).
  - intros [= <- Hnil]. by destruct (split_blank_nonempty s).
  - unfold cons_head. destruct (split_blank (String c' s)) as [|q qs] eqn:Hq;
      [by destruct (split_blank_nonempty (String c' s))|].
    intros [= <- ->]. by rewrite (IH2 q eq_refl).
Qed.

(** Reading a text in two pieces: the parts that are complete after the
    first piece stay, and the last one goes on with the second piece. *)
Lemma split_blank_app a b :
  split_blank (a +:+ b)
  = removelast (split_blank a)
    ++ split_blank (default EmptyString (last (split_blank a)) +:+ b).
Proof.
  induction a as [|c|c c' a IH1 IH2] using string_ind2; [done..|].
  rewrite !append_cons, !split_blank_cons.
  destruct (bool_decide (c = nl) && bool_decide (c' = nl)) eqn:Hsep.
  - rewrite IH1.
    pose proof (split_blank_nonempty a) as Hne.
    destruct (split_blank a) as [|p ps] eqn:Hp; [done|].
    change (removelast (EmptyString :: p :: ps))
      with (EmptyString :: removelast (p :: ps)).
    by rewrite last_cons_cons.
  - rewrite <- append_cons, IH2.
    pose proof (split_blank_nonempty (String c' a)) as Hne.
    destruct (split_blank (String c' a)) as [|p [|q ps]] eqn:Hp; [done|..].
    + apply split_blank_single in Hp as ->.
      cbn [removelast last cons_head default app]. unfold id.
      by rewrite !append_cons, split_blank_cons, Hsep.
    + cbn [cons_head].
      change (removelast (?x :: q :: ps)) with (x :: removelast (q :: ps)).
      by rewrite !last_cons_cons.
Qed.

Lemma split_blank_frame b rest :
  no_newline b = true →
  split_blank (b +:+ blank +:+ rest) = b :: split_blank rest.
Proof.
  intros Hb. induction b as [|c b IH].
  - rewrite append_nil_l. unfold blank. rewrite !append_cons, append_nil_l.
    rewrite split_blank_cons. by rewrite !bool_decide_eq_true_2.
  - simpl in Hb. apply andb_prop in Hb as [Hc Hb].
    apply negb_true_iff in Hc. rewrite append_cons.
    destruct (b +:+ blank +:+ rest) as [|c2 s2] eqn:Hs.
    { destruct b; discriminate Hs. }
    rewrite split_blank_cons, Hc. cbn [andb]. by rewrite IH.
Qed.

Lemma split_lines_single s : no_newline s = true → split_lines s = [s].
Proof.
  induction s as [|c s IH]; [done|]. simpl.
  intros [Hc Hs]%andb_prop. apply negb_true_iff in Hc.
  by rewrite Hc, IH.
Qed.

Lemma no_newline_app a b :
  no_newline a = true → no_newline b = true → no_newline (a +:+ b) = true.
Proof.
  intros Ha Hb. induction a as [|c a IH]; [done|].
  rewrite append_cons. simpl in *. apply andb_prop in Ha as [-> Ha].
  by apply IH.
Qed.

Lemma body_no_newline frame :
  (∀ json, frame = Some json → no_newline json = true) →
  no_newline (body frame) = true.
Proof.
  destruct frame as [json|]; [|done]. intros Hj.
  apply no_newline_app; [done|by apply Hj].
Qed.

Lemma encode_body frame : encode frame = body frame +:+ blank.
Proof.
  destruct frame as [json|]; [|done].
  unfold encode, sse_frame, body. by rewrite append_assoc.
Qed.

Lemma data_of_body frame :
  (∀ json, frame = Some json → no_newline json = true) →
  data_of (body frame) = frame.
Proof.
  intros Hj. unfold data_of.
  rewrite split_lines_single by by apply body_no_newline.
  destruct frame as [json|]; [|done].
  unfold body. rewrite !append_cons, append_nil_l.
  by destruct json.
Qed.

(** The whole stream: one part for each frame, and an empty rest. *)
Lemma split_blank_stream frames :
  Forall (λ f, ∀ json, f = Some json → no_newline json = true) frames →
  split_blank (concat_all (encode <$> frames))
  = (body <$> frames) ++ [EmptyString].
Proof.
  induction 1 as [|f frames Hf _ IH]; [done|].
  csimpl. rewrite encode_body, append_assoc, split_blank_frame, IH; [done|].
  by apply body_no_newline.
Qed.

(** The state of the reader after the text [a]. *)
Lemma read_stream_state a chunks :
  foldl (λ st chunk, let r := feed st.1 chunk in (r.1, st.2 ++ r.2))
        (default EmptyString (last (split_blank a)),
         omap data_of (removelast (split_blank a)))
        chunks
  = (default EmptyString (last (split_blank (a +:+ concat_all chunks))),
     omap data_of (removelast (split_blank (a +:+ concat_all chunks)))).
Proof.
  revert a. induction chunks as [|c chunks IH]; intros a.
  - simpl. by rewrite append_nil_r.
  - cbn [foldl concat_all foldr]. fold (concat_all chunks).
    rewrite <- append_assoc, <- IH. f_equal.
    unfold feed. cbn [fst snd]. rewrite (split_blank_app a c).
    pose proof (split_blank_nonempty
                  (default EmptyString (last (split_blank a)) +:+ c)) as Hne.
    rewrite removelast_app by done. rewrite omap_app. f_equal.
    destruct (split_blank (default EmptyString (last (split_blank a)) +:+ c))
      as [|p ps]; [done|].
    by rewrite last_app_cons.
Qed.

Lemma read_stream_whole chunks :
  read_stream chunks
  = (default EmptyString (last (split_blank (concat_all chunks))),
     omap data_of (removelast (split_blank (concat_all chunks)))).
Proof. apply (read_stream_state EmptyString). Qed.


(** X16. What the server writes is what the client reads, however the
    text is cut into chunks.  For events whose JSON text holds no line
    feed, written as [data: ...] frames with keepalive comments anywhere
    between them, the reader of [useScan] hands to [JSON.parse] the texts
    of the events, all of them, in their order and nothing else, and ends
    with an empty buffer. *)
Theorem event_stream_round_trip frames chunks :
  Forall (λ f, ∀ json, f = Some json → no_newline json = true) frames →
  concat_all chunks = concat_all (encode <$> frames) →
  read_stream chunks = (EmptyString, omap id frames).
Proof.
  intros Hframes Hchunks.
  rewrite read_stream_whole, Hchunks, split_blank_stream by done.
  rewrite last_snoc, removelast_last. f_equal. clear Hchunks.
  induction Hframes as [|f frames Hf _ IH]; [done|].
  csimpl. rewrite data_of_body by done. by destruct f; rewrite IH.
Qed.

Lemma event_stream_round_trip_witness :
  let frames := [Some "[1,2]"; None; Some "35"] in
  let chunks := ["da"; "ta: [1,2]" +:+ String nl ""; String nl ": keep";
                 "alive" +:+ blank +:+ "data: 3"; "5" +:+ blank] in
  (Forall (λ f, ∀ json, f = Some json → no_newline json = true) frames ∧
   concat_all chunks = concat_all (encode <$> frames)) ∧
  read_stream chunks = (EmptyString, omap id frames).
Proof.
  intros frames chunks.
  assert (Forall (λ f, ∀ json, f = Some json → no_newline json = true)
                 frames) as Hframes.
  { repeat constructor; by intros json [= <-]. }
  assert (concat_all chunks = concat_all (encode <$> frames)) as Hchunks
    by reflexivity.
  split; [by split|].
  exact (event_stream_round_trip frames chunks Hframes Hchunks).
Defined.

End EventStreamFacts.

(** * The state of the client *)
Module UseScanFacts.
Import UseScan.

Lemma handle_settles items st :
  loading (handle items st) = false ∧ scanning (handle items st) = false.
Proof.
  revert st. induction items as [|[[t p|t|m|]|m] items IH]; intros st;
    simpl; auto.
Qed.

Lemma handle_progress (progs : list (TreeNode * ScanProgress)) rest st :
  handle (((λ x, Parsed (MsgProgress x.1 (Some x.2))) <$> progs) ++ rest) st
  = handle rest
      (match last progs with
       | Some x => mkScanState (Some x.1) false (scanning st) (error st)
                               (Some x.2)
       | None => st
       end).
Proof.
  revert st. induction progs as [|x progs IH]; intros st; [done|].
  csimpl. rewrite IH. destruct progs as [|y progs]; [done|].
  rewrite last_cons_cons.
  destruct (proj2 (last_is_Some (y :: progs))) as [z ->]; done.
Qed.

(** X17. Where [scan] of [useScan] ends.  Whatever the server answers,
    [loading] and [scanning] are false in the end.  After progress
    messages and a done message the state holds the tree of the done
    message, no error and no counters.  After progress messages and an
    error message it holds the error and the tree of the last progress
    message: the partial result is kept.  When the stream ends after
    progress messages only, the last tree and the last counters stay. *)
Theorem useScan_final_state :
  (∀ r, loading (scan r) = false ∧ scanning (scan r) = false) ∧
  (∀ progs tree,
     scan (Stream (((λ x, Parsed (MsgProgress x.1 (Some x.2))) <$> progs)
                   ++ [Parsed (MsgDone tree)]))
     = mkScanState (Some tree) false false None None) ∧
  (∀ progs message,
     scan (Stream (((λ x, Parsed (MsgProgress x.1 (Some x.2))) <$> progs)
                   ++ [Parsed (MsgError message)]))
     = mkScanState (fst <$> last progs) false false (Some message) None) ∧
  (∀ progs,
     scan (Stream ((λ x, Parsed (MsgProgress x.1 (Some x.2))) <$> progs))
     = mkScanState (fst <$> last progs) false false None
                   (snd <$> last progs)).
Proof.
  split_and!.
  - intros [m|m|items]; simpl; auto. apply handle_settles.
  - intros progs tree. simpl. rewrite handle_progress. done.
  - intros progs message. simpl. rewrite handle_progress.
    by destruct (last progs).
  - intros progs. simpl.
    rewrite <- (app_nil_r (_ <$> progs)), handle_progress.
    by destruct (last progs).
Qed.

Import Coordinator CoordinatorView.


Lemma handle_events pre rest st :
  Forall (λ ev, terminal ev = false) pre →
  handle ((of_event <$> pre) ++ rest) st = handle rest (after_progress st pre).
Proof.
  intros Hpre. revert st.
  induction Hpre as [|[t p|t|m] pre Hev _ IH]; intros st; try done.
  csimpl. by rewrite IH.
Qed.

Lemma after_progress_data st acc pre :
  data st = acc →
  data (after_progress st pre)
  = foldl (λ acc ev, match ev with
                     | EvProgress t _ => Some t
                     | _ => acc
                     end) acc pre.
Proof.
  revert st acc.
  induction pre as [|[t p|t|m] pre IH]; intros st acc Hacc; simpl;
    [done|..]; by apply IH.
Qed.

(** The stream of a listener that has got a done or an error event: the
    events before it are progress events, and it is the last one. *)
Lemma stream_of_terminal tr l o ev :
  streams_end tr → Delivered l o ev ∈ tr → terminal ev = true →
  ∃ pre, stream_of l tr = pre ++ [ev] ∧
         Forall (λ ev', terminal ev' = false) pre.
Proof.
  intros Hend Hin Hterm.
  apply list_elem_of_split in Hin as (newer & older & ->).
  exists (stream_of l older). split.
  - unfold stream_of. rewrite omap_app. simpl.
    rewrite decide_True by done.
    assert (omap (λ item, match item with
                          | Delivered l' _ ev0 =>
                              if decide (l' = l) then Some ev0 else None
                          | _ => None
                          end) newer = []) as ->.
    { pose proof (Hend newer l o ev older eq_refl Hterm) as Hno.
      clear -Hno. induction newer as [|[l1 i1|l1 o1 ev1|i1] newer IH];
        simpl; [done|..].
      - apply IH. intros o' ev' Hin. eapply Hno. by right.
      - rewrite decide_False.
        + apply IH. intros o' ev' Hin. eapply Hno. by right.
        + intros ->. eapply Hno. by left.
      - apply IH. intros o' ev' Hin. eapply Hno. by right. }
    simpl. by rewrite reverse_cons.
  - apply Forall_forall. intros ev0 Hev0.
    unfold stream_of in Hev0. rewrite elem_of_reverse in Hev0.
    apply list_elem_of_omap in Hev0 as (item & Hitem & Hsome).
    destruct item as [|l0 o0 ev0'|]; try done.
    destruct (decide (l0 = l)) as [->|]; [|done].
    injection Hsome as ->.
    destruct (terminal ev0) eqn:Hterm0; [|done]. exfalso.
    apply list_elem_of_split in Hitem as (n2 & o2 & ->).
    eapply (Hend (newer ++ Delivered l o ev :: n2) l o0 ev0 o2);
      [by rewrite <- app_assoc|done|].
    apply elem_of_app. right. by left.
Qed.

(** X18. From the walker to the screen.  In every state that the server
    can reach, a client whose stream has got the done event with the tree
    [t] ends with [t] as its data, not loading, not scanning and with no
    error; a client whose stream has got an error event ends with that
    error and with the tree of the last progress event before it. *)
Theorem client_ends_with_server_result fs s :
  reachable fs s →
  (∀ l o t, Delivered l o (EvDone t) ∈ trace s →
     client_state l s = mkScanState (Some t) false false None None) ∧
  (∀ l o message, Delivered l o (EvError message) ∈ trace s →
     ∃ pre, stream_of l (trace s) = pre ++ [EvError message] ∧
       client_state l s
       = mkScanState (last_tree pre) false false (Some message) None).
Proof.
  intros Hs.
  destruct (CoordinatorViewFacts.reachable_listeners_ok fs s Hs)
    as [_ _ _ _ Hend].
  split.
  - intros l o t Hin.
    destruct (stream_of_terminal _ _ _ _ Hend Hin eq_refl)
      as (pre & Hstream & Hpre).
    unfold client_state. rewrite Hstream, fmap_app. simpl.
    by rewrite handle_events.
  - intros l o message Hin.
    destruct (stream_of_terminal _ _ _ _ Hend Hin eq_refl)
      as (pre & Hstream & Hpre).
    exists pre. split; [done|].
    unfold client_state. rewrite Hstream, fmap_app. simpl.
    rewrite handle_events by done. simpl. unfold on_throw.
    by rewrite (after_progress_data initial None pre eq_refl).
Qed.

Lemma client_ends_with_server_result_witness :
  let fs := Fixtures.fs_x in
  let s := default init
             (perform_all fs
                [Request "/tmp/x"; Fill 0; Fill 0; Fill 0; Fill 0; Fill 0;
                 Fill 0; Fill 0; Resolve 0; Request "/tmp/x"]%nat init) in
  reachable fs s ∧
  ((∀ l o t, Delivered l o (EvDone t) ∈ trace s →
      client_state l s = mkScanState (Some t) false false None None) ∧
   (∀ l o message, Delivered l o (EvError message) ∈ trace s →
      ∃ pre, stream_of l (trace s) = pre ++ [EvError message] ∧
        client_state l s
        = mkScanState (last_tree pre) false false (Some message) None)).
Proof.
  intros fs s.
  assert (reachable fs s) as Hs.
  { apply (CoordinatorFacts.perform_all_rtc fs
             [Request "/tmp/x"; Fill 0; Fill 0; Fill 0; Fill 0; Fill 0;
              Fill 0; Fill 0; Resolve 0; Request "/tmp/x"]%nat).
    vm_compute. reflexivity. }
  split; [exact Hs|exact (client_ends_with_server_result fs s Hs)].
Defined.

(** In that run both clients end with the tree of 35 bytes. *)
Example client_state_example :
  let fs := Fixtures.fs_x in
  (λ s, (size <$> data (client_state 0 s),
         size <$> data (client_state 1 s),
         scanning (client_state 1 s)))
    <$> perform_all fs
          [Request "/tmp/x"; Fill 0; Fill 0; Fill 0; Fill 0; Fill 0;
           Fill 0; Fill 0; Resolve 0; Request "/tmp/x"]%nat init
  = Some (Some 35, Some 35, false).
Proof. vm_compute. done. Qed.

End UseScanFacts.

Module ZoomFacts.
Import Zoom.
Import EventStreamFacts.

(** ** Strings *)

Lemma prefix_nil s : String.prefix EmptyString s = true.
Proof. by destruct s. Qed.

Lemma prefix_cons a s1 b s2 :
  String.prefix (String a s1) (String b s2)
  = if ascii_dec a b then String.prefix s1 s2 else false.
Proof. done. Qed.

Lemma prefix_app_head b x y :
  String.prefix (b +:+ x) (b +:+ y) = String.prefix x y.
Proof.
  induction b as [|a b IH]; [done|].
  rewrite !append_cons, prefix_cons. by destruct (ascii_dec a a).
Qed.

Lemma append_inv_head b (x y : string) : b +:+ x = b +:+ y → x = y.
Proof.
  induction b as [|a b IH]; [done|]. rewrite !append_cons.
  intros [= H]. auto.
Qed.

Lemma length_append (a b : string) :
  String.length (a +:+ b) = (String.length a + String.length b)%nat.
Proof.
  induction a as [|x a IH]; [done|]. rewrite append_cons. simpl.
  by rewrite IH.
Qed.

Lemma slash_free_append a r : slash_free (a +:+ "/" +:+ r) = false.
Proof.
  induction a as [|x a IH]; [done|]. rewrite append_cons. simpl.
  rewrite IH. apply andb_false_r.
Qed.

Lemma slash_prefix n1 n0 suffix :
  slash_free n1 = true → slash_free n0 = true →
  suffix = EmptyString ∨ (∃ r, suffix = "/" +:+ r) →
  String.prefix (n1 +:+ "/") (n0 +:+ suffix) = true → n1 = n0.
Proof.
  revert n0. induction n1 as [|a n1 IH]; intros [|b n0] H1 H0 Hsuf.
  - done.
  - rewrite append_nil_l, append_cons.
    change "/"%string with (String "/"%char EmptyString).
    rewrite prefix_cons. destruct (ascii_dec "/" b) as [<-|]; [|done].
    by simpl in H0.
  - rewrite append_nil_l, append_cons.
    destruct Hsuf as [->|[r ->]]; [done|].
    change ("/" +:+ r) with (String "/"%char r).
    rewrite prefix_cons. destruct (ascii_dec a "/") as [->|]; [|done].
    by simpl in H1.
  - rewrite !append_cons, prefix_cons.
    destruct (ascii_dec a b) as [->|]; [|done].
    simpl in H1, H0. apply andb_true_iff in H1 as [_ H1].
    apply andb_true_iff in H0 as [_ H0].
    intros H. f_equal. by apply IH.
Qed.

(** ** Paths below a node *)

Lemma child_path_base dir :
  ∃ base, ∀ entryName, child_path dir entryName = base +:+ entryName.
Proof.
  unfold child_path. destruct (bool_decide (dir = "/")).
  - by exists "/"%string.
  - exists (dir +:+ "/"). intros nm. by rewrite append_assoc.
Qed.

Lemma child_path_longer dir entryName :
  entryName ≠ EmptyString →
  (String.length dir < String.length (child_path dir entryName))%nat ∧
  (1 < String.length (child_path dir entryName))%nat.
Proof.
  intros Hnm. assert (0 < String.length entryName)%nat.
  { destruct entryName; [done|simpl; lia]. }
  unfold child_path. case_bool_decide as Hd.
  - subst dir. rewrite length_append. simpl. lia.
  - rewrite !length_append. simpl. lia.
Qed.

Lemma child_not_root d t cs c :
  joined_paths d t → children t = Some cs → c ∈ cs →
  (String.length (path t) < String.length (path c))%nat ∧ path c ≠ "/"%string.
Proof.
  intros Hj Hcs Hc. destruct (Hj cs c Hcs Hc) as (nm & Hnm & _ & Hp).
  destruct (child_path_longer (path t) nm Hnm) as [H1 H2].
  rewrite <- Hp in H1, H2. split; [done|]. intros Heq.
  rewrite Heq in H2. simpl in H2. lia.
Qed.

Lemma descend_longer d t i ix m :
  tree_all joined_paths d t → descend (i :: ix) t = Some m →
  (String.length (path t) < String.length (path m))%nat.
Proof.
  revert d t i. induction ix as [|j ix IH]; intros d t i Ht; simpl.
  - destruct (children t) as [cs|] eqn:Hcs; [|done].
    destruct (cs !! i) as [c|] eqn:Hc; [|done]. intros [= <-].
    apply list_elem_of_lookup_2 in Hc.
    by apply (child_not_root d t cs c (tree_all_here _ _ _ Ht) Hcs Hc).
  - destruct (children t) as [cs|] eqn:Hcs; [|done].
    destruct (cs !! i) as [c|] eqn:Hc; [|done]. intros Hm.
    apply list_elem_of_lookup_2 in Hc.
    pose proof (tree_all_children _ _ _ _ Ht Hcs) as Hall.
    rewrite Forall_forall in Hall.
    pose proof (IH (S d) c j (Hall c Hc) Hm).
    pose proof (child_not_root d t cs c (tree_all_here _ _ _ Ht) Hcs Hc).
    lia.
Qed.

Lemma descend_suffix d c ix m :
  tree_all joined_paths d c → path c ≠ "/"%string →
  descend ix c = Some m →
  path m = path c ∨ ∃ r, path m = path c +:+ "/" +:+ r.
Proof.
  revert d c. induction ix as [|j ix IH]; intros d c Hc Hroot; simpl.
  - intros [= <-]. by left.
  - destruct (children c) as [cs|] eqn:Hcs; [|done].
    destruct (cs !! j) as [c2|] eqn:Hc2; [|done]. intros Hm.
    apply list_elem_of_lookup_2 in Hc2.
    pose proof (tree_all_children _ _ _ _ Hc Hcs) as Hall.
    rewrite Forall_forall in Hall.
    destruct (tree_all_here _ _ _ Hc cs c2 Hcs Hc2) as (nm & Hnm & _ & Hp).
    unfold child_path in Hp. rewrite bool_decide_false in Hp by done.
    destruct (child_not_root d c cs c2 (tree_all_here _ _ _ Hc) Hcs Hc2)
      as [_ Hne].
    right. destruct (IH (S d) c2 (Hall c2 Hc2) Hne Hm) as [->|[r ->]].
    + by exists nm.
    + exists (nm +:+ "/" +:+ r). rewrite Hp.
      by rewrite !append_assoc.
Qed.

(** The child above the target leads to it. *)
Lemma child_leads d c ix m :
  tree_all joined_paths d c → path c ≠ "/"%string →
  descend ix c = Some m → leads_to (path m) c = true.
Proof.
  intros Hc Hroot Hm. unfold leads_to.
  destruct (descend_suffix d c ix m Hc Hroot Hm) as [->|[r ->]].
  - by rewrite bool_decide_true.
  - apply orb_true_iff. right.
    rewrite <- append_assoc.
    rewrite <- (append_nil_r (path c +:+ "/")) at 1.
    rewrite prefix_app_head. apply prefix_nil.
Qed.

(** No other child does. *)
Lemma sibling_leads d t cs c c1 ix m :
  joined_paths d t → children t = Some cs → c ∈ cs → c1 ∈ cs →
  tree_all joined_paths (S d) c → descend ix c = Some m →
  leads_to (path m) c1 = true → path c1 = path c.
Proof.
  intros Ht Hcs Hc Hc1 Hall Hm Hlead.
  destruct (child_not_root d t cs c Ht Hcs Hc) as [_ Hne].
  destruct (Ht cs c Hcs Hc) as (n0 & _ & Hf0 & Hp0).
  destruct (Ht cs c1 Hcs Hc1) as (n1 & _ & Hf1 & Hp1).
  destruct (child_path_base (path t)) as [base Hbase].
  rewrite Hbase in Hp0, Hp1.
  assert (∃ suffix, path m = base +:+ (n0 +:+ suffix) ∧
            (suffix = EmptyString ∨ ∃ r, suffix = "/" +:+ r))
    as (suffix & Hpm & Hsuf).
  { destruct (descend_suffix (S d) c ix m Hall Hne Hm) as [->|[r ->]].
    - exists EmptyString. rewrite append_nil_r. auto.
    - exists ("/" +:+ r). rewrite Hp0, append_assoc. eauto. }
  assert (n1 = n0) as ->; [|congruence].
  unfold leads_to in Hlead. apply orb_true_iff in Hlead as [Heq|Hpre].
  - apply bool_decide_eq_true in Heq. rewrite Hp1, Hpm in Heq.
    apply append_inv_head in Heq.
    destruct Hsuf as [->|[r ->]]; [by rewrite append_nil_r in Heq|].
    rewrite Heq in Hf1. by rewrite slash_free_append in Hf1.
  - rewrite Hp1, Hpm, append_assoc, prefix_app_head in Hpre.
    by apply (slash_prefix n1 n0 suffix).
Qed.

(** ** [buildZoomPath] *)

Lemma zoom_from_eq t targetPath :
  zoom_from t targetPath
  = if bool_decide (path t = targetPath) then []
    else match children t with
         | None => []
         | Some cs => zoom_find (λ c, zoom_from c targetPath) targetPath cs
         end.
Proof.
  destruct t as [n p s ty e [cs|] tr]; simpl; [|done].
  destruct (bool_decide (p = targetPath)); [done|].
  induction cs as [|c cs IH]; [done|]. simpl. by rewrite IH.
Qed.

Lemma zoom_find_at k targetPath cs i c :
  cs !! i = Some c → leads_to targetPath c = true →
  (∀ j y, cs !! j = Some y → (j < i)%nat → leads_to targetPath y = false) →
  zoom_find k targetPath cs
  = c :: (if bool_decide (path c = targetPath) then [] else k c).
Proof.
  revert i. induction cs as [|x cs IH]; intros [|i]; simpl; try done.
  - intros [= ->] -> _. done.
  - intros Hc Hlead Hbefore.
    rewrite (Hbefore 0%nat x eq_refl) by lia.
    apply (IH i Hc Hlead). intros j y Hy Hj.
    apply (Hbefore (S j) y Hy). lia.
Qed.

Lemma zoom_find_cases k targetPath cs :
  (zoom_find k targetPath cs = [] ∧
   Forall (λ c, leads_to targetPath c = false) cs) ∨
  ∃ i c, cs !! i = Some c ∧ leads_to targetPath c = true ∧
    zoom_find k targetPath cs
    = c :: (if bool_decide (path c = targetPath) then [] else k c).
Proof.
  induction cs as [|x cs IH]; simpl; [by left|].
  destruct (leads_to targetPath x) eqn:Hx.
  - right. by exists 0%nat, x.
  - destruct IH as [[-> Hall]|(i & c & Hc & Hlead & ->)].
    + left. split; [done|]. by constructor.
    + right. by exists (S i), c.
Qed.

Lemma along_last ix t m : descend ix t = Some m → last (along ix t) = Some m.
Proof.
  revert t. induction ix as [|i ix IH]; intros t; simpl.
  - by intros [= ->].
  - destruct (children t) as [cs|] eqn:Hcs; [|done].
    destruct (cs !! i) as [c|] eqn:Hc; [|done]. intros Hm.
    specialize (IH c Hm). destruct ix; simpl in *.
    + done.
    + destruct (children c) as [cs'|]; [|done].
      by destruct (cs' !! n).
Qed.

Lemma zoom_from_target d root ix m :
  tree_all distinct_children d root → tree_all joined_paths d root →
  descend ix root = Some m →
  root :: zoom_from root (path m) = along ix root.
Proof.
  revert d root. induction ix as [|i ix IH]; intros d root Hd Hj.
  - simpl. intros [= <-]. rewrite zoom_from_eq.
    by rewrite bool_decide_true.
  - intros Hm. pose proof (descend_longer d root i ix m Hj Hm) as Hlen.
    simpl in Hm |- *.
    destruct (children root) as [cs|] eqn:Hcs; [|done].
    destruct (cs !! i) as [c|] eqn:Hc; [|done].
    pose proof (list_elem_of_lookup_2 _ _ _ Hc) as Hin.
    pose proof (tree_all_children _ _ _ _ Hd Hcs) as Hdall.
    pose proof (tree_all_children _ _ _ _ Hj Hcs) as Hjall.
    rewrite Forall_forall in Hdall, Hjall.
    destruct (child_not_root d root cs c (tree_all_here _ _ _ Hj) Hcs Hin)
      as [_ Hne].
    rewrite zoom_from_eq, Hcs.
    rewrite bool_decide_false by (intros Heq; rewrite Heq in Hlen; lia).
    rewrite (zoom_find_at _ (path m) cs i c Hc).
    + f_equal. case_bool_decide as Heq.
      * destruct ix as [|j ix]; [done|]. exfalso.
        pose proof (descend_longer (S d) c j ix m (Hjall c Hin) Hm).
        rewrite Heq in *. lia.
      * rewrite <- (IH (S d) c (Hdall c Hin) (Hjall c Hin) Hm).
        rewrite (zoom_from_eq c). by rewrite bool_decide_false.
    + by apply (child_leads (S d) c ix m (Hjall c Hin)).
    + intros j y Hy Hlt. destruct (leads_to (path m) y) eqn:Hlead; [|done].
      exfalso.
      pose proof (list_elem_of_lookup_2 _ _ _ Hy) as Hyin.
      pose proof (sibling_leads d root cs c y ix m (tree_all_here _ _ _ Hj)
                    Hcs Hin Hyin (Hjall c Hin) Hm Hlead) as Hsame.
      pose proof (tree_all_here _ _ _ Hd cs Hcs) as Hnd.
      assert (j = i); [|lia].
      eapply (NoDup_lookup _ j i (path c) Hnd);
        rewrite list_lookup_fmap; [by rewrite Hy; simpl; f_equal|].
      by rewrite Hc.
Qed.

Lemma zoom_from_chain root targetPath :
  ∃ ix n, root :: zoom_from root targetPath = along ix root ∧
    descend ix root = Some n ∧
    Forall (λ c, leads_to targetPath c = true) (zoom_from root targetPath) ∧
    (path n = targetPath ∨
     ∀ cs, children n = Some cs →
       Forall (λ c, leads_to targetPath c = false) cs).
Proof.
  induction root as [n p s ty e tr|n p s ty e cs tr IH]
    using TreeNode_forall_ind; rewrite zoom_from_eq; simpl.
  { exists [], (mkNode n p s ty e None tr). simpl.
    destruct (bool_decide (p = targetPath)); split_and!; try done;
      by right. }
  case_bool_decide as Hp.
  { exists [], (mkNode n p s ty e (Some cs) tr). simpl. auto. }
  destruct (zoom_find_cases (λ c, zoom_from c targetPath) targetPath cs)
    as [[-> Hall]|(i & c & Hc & Hlead & ->)].
  { exists [], (mkNode n p s ty e (Some cs) tr). simpl.
    split_and!; [done..|]. right. by intros ? [= <-]. }
  rewrite Forall_forall in IH.
  destruct (IH c (list_elem_of_lookup_2 _ _ _ Hc))
    as (ix & m & Hchain & Hm & Hleads & Hstop).
  case_bool_decide as Hcp.
  - exists [i], c. simpl. rewrite Hc.
    split_and!; [done..|by repeat constructor|by left].
  - exists (i :: ix), m. simpl. rewrite Hc, <- Hchain.
    split_and!; [done..|by constructor|done].
Qed.

(** ** The zoom path after a change of the tree *)

Lemma find_by_path (f : TreeNode → TreeNode) targetPath cs c :
  NoDup (path <$> cs) → c ∈ cs → (∀ x, path (f x) = path x) →
  List.find (λ x, bool_decide (path x = path c))
            (f <$> filter (λ x, path x ≠ targetPath) cs)
  = if bool_decide (path c = targetPath) then None else Some (f c).
Proof.
  intros Hnd Hc Hf. induction cs as [|x cs IH]; [by apply elem_of_nil in Hc|].
  rewrite fmap_cons in Hnd. apply NoDup_cons in Hnd as [Hx Hnd].
  assert (∀ l, (∀ y, y ∈ l → path y ≠ path c) →
            List.find (λ x, bool_decide (path x = path c)) l = None)
    as Hnone.
  { clear. induction l as [|y l IH]; intros Hl; [done|]. simpl.
    rewrite bool_decide_false by (apply Hl; by left).
    apply IH. intros z Hz. apply Hl. by right. }
  rewrite filter_cons.
  apply elem_of_cons in Hc as [->|Hc].
  - destruct (decide (path x ≠ targetPath)) as [Hne|Heq].
    + rewrite bool_decide_false by done. simpl.
      by rewrite bool_decide_true by apply Hf.
    + apply dec_stable in Heq. rewrite bool_decide_true by done.
      apply Hnone. intros y Hy Hpy.
      apply list_elem_of_fmap in Hy as (z & -> & Hz).
      apply list_elem_of_filter in Hz as [_ Hz].
      rewrite Hf in Hpy. apply Hx. rewrite <- Hpy.
      by apply list_elem_of_fmap_2.
  - assert (path x ≠ path c) as Hxc.
    { intros Heq. apply Hx. rewrite Heq. by apply list_elem_of_fmap_2. }
    destruct (decide (path x ≠ targetPath)) as [Hne|Heq]; [|by apply IH].
    simpl. rewrite bool_decide_false by (by rewrite Hf). by apply IH.
Qed.

Lemma rebuild_from_pruned targetPath d t ix :
  tree_all distinct_children d t → is_Some (descend ix t) →
  path <$> rebuild_from (pruneRecursive t targetPath) (tail (along ix t))
  = paths_before targetPath (tail (along ix t)).
Proof.
  revert d t. induction ix as [|i ix IH]; intros d t Hd [m Hm]; [done|].
  simpl in Hm |- *.
  destruct (children t) as [cs|] eqn:Hcs; [|done].
  destruct (cs !! i) as [c|] eqn:Hc; [|done].
  pose proof (list_elem_of_lookup_2 _ _ _ Hc) as Hin.
  pose proof (tree_all_children _ _ _ _ Hd Hcs) as Hdall.
  rewrite Forall_forall in Hdall.
  destruct t as [n p s ty e ch tr]. simpl in Hcs. subst ch.
  rewrite pruneRecursive_children.
  assert (along ix c = c :: tail (along ix c)) as Halong by (by destruct ix).
  rewrite Halong. cbn [rebuild_from paths_before children].
  rewrite (find_by_path (λ c, pruneRecursive c targetPath) targetPath cs c
             (tree_all_here _ _ _ Hd cs eq_refl) Hin
             (λ x, pruneRecursive_path x targetPath)).
  destruct (bool_decide (path c = targetPath)); [done|].
  rewrite fmap_cons, pruneRecursive_path. f_equal.
  apply (IH (S d) c (Hdall c Hin)). by exists m.
Qed.

Lemma rebuild_from_chain current prev :
  ∃ ix, current :: rebuild_from current prev = along ix current ∧
        is_Some (descend ix current).
Proof.
  revert current. induction prev as [|p prev IH]; intros current.
  { exists []. simpl. eauto. }
  simpl. destruct (children current) as [cs|] eqn:Hcs;
    [|exists []; simpl; eauto].
  destruct (List.find _ cs) as [found|] eqn:Hfind;
    [|exists []; simpl; eauto].
  apply find_some in Hfind as [Hin _].
  apply list_elem_of_In, list_elem_of_lookup in Hin as [i Hi].
  destruct (IH found) as (ix & Hchain & Hsome).
  exists (i :: ix). simpl. rewrite Hcs, Hi, <- Hchain. done.
Qed.

(** The tree of the fixture is such a tree. *)
Lemma tree_x_distinct : tree_all distinct_children 0 tree_x.
Proof.
  intros dm m Hm cs Hcs. apply list_elem_of_In in Hm. simpl in Hm.
  destruct_or!; simplify_eq/=; by apply (bool_decide_unpack _); vm_compute.
Qed.

Lemma tree_x_joined : tree_all joined_paths 0 tree_x.
Proof.
  intros dm m Hm cs c Hcs Hc. apply list_elem_of_In in Hm. simpl in Hm.
  destruct_or!; simplify_eq/=; apply list_elem_of_In in Hc; simpl in Hc;
    destruct_or!; try done; subst c;
    match goal with |- ∃ _, _ ∧ _ ∧ path ?c = _ => exists (name c) end;
    by vm_compute.
Qed.


(** X19. Drilling down reaches the clicked node.  In a tree whose paths
    are joined from the names of the entries and in which the children of
    a node have different names, [buildZoomPath] with the path of a node
    [m] of the tree gives the nodes from the root down to [m], each one a
    child of the one before, and ends at [m] itself. *)
Theorem buildZoomPath_reaches_target root ix m :
  tree_all distinct_children 0 root → tree_all joined_paths 0 root →
  descend ix root = Some m →
  buildZoomPath root (path m) = along ix root ∧
  last (buildZoomPath root (path m)) = Some m.
Proof.
  intros Hd Hj Hm. unfold buildZoomPath.
  rewrite (zoom_from_target 0 root ix m Hd Hj Hm).
  split; [done|]. by apply along_last.
Qed.

Lemma buildZoomPath_reaches_target_witness :
  descend [0; 1]%nat tree_x
  = Some (mkNode "d.txt" "/tmp/x/b/d.txt" 5 file (Some ".txt") None false) ∧
  buildZoomPath tree_x "/tmp/x/b/d.txt" = along [0; 1]%nat tree_x.
Proof.
  split; [reflexivity|].
  exact (proj1 (buildZoomPath_reaches_target tree_x [0; 1]%nat _
                  tree_x_distinct tree_x_joined eq_refl)).
Defined.

(** X20. Whatever the target, [buildZoomPath] gives a path of the tree:
    it starts at the root, every node of it is a child of the one before,
    and every node after the root is at the target or has a path of which
    the target is an extension; it stops at a node at the target, or at a
    node none of whose children leads to the target. *)
Theorem buildZoomPath_is_a_chain root targetPath :
  ∃ ix n,
    buildZoomPath root targetPath = along ix root ∧
    descend ix root = Some n ∧
    last (buildZoomPath root targetPath) = Some n ∧
    Forall (λ c, leads_to targetPath c = true)
           (tail (buildZoomPath root targetPath)) ∧
    (path n = targetPath ∨
     ∀ cs, children n = Some cs →
       Forall (λ c, leads_to targetPath c = false) cs).
Proof.
  destruct (zoom_from_chain root targetPath)
    as (ix & n & Hchain & Hn & Hleads & Hstop).
  exists ix, n. unfold buildZoomPath. split_and!; try done.
  rewrite Hchain. by apply along_last.
Qed.

(** A target that is not in the tree: the path stops above it. *)
Example buildZoomPath_example :
  path <$> buildZoomPath tree_x "/tmp/x/b/gone/deeper"
  = ["/tmp/x"; "/tmp/x/b"]%string ∧
  path <$> buildZoomPath tree_x "/tmp/x/bb" = ["/tmp/x"]%string ∧
  path <$> buildZoomPath tree_x "/tmp/x/b/c.txt"
  = ["/tmp/x"; "/tmp/x/b"; "/tmp/x/b/c.txt"]%string.
Proof. by vm_compute. Qed.

(** X21. The zoom path after a deletion.  When [removeNode] has taken the
    nodes at [targetPath] out of a tree whose siblings have different
    paths, and the tree is not being scanned, the zoom path is rebuilt
    as a path of the new tree through the same directories as before,
    down to the one above the first node of the old path that was at
    [targetPath]: the whole of the old path when the deleted node was not
    on it. *)
Theorem zoom_path_after_removeNode data targetPath ix data' :
  tree_all distinct_children 0 data → is_Some (descend ix data) →
  removeNode data targetPath = Some data' →
  path <$> rebuildZoomPath data' false (along ix data)
  = paths_before targetPath (along ix data) ∧
  ∃ ix', rebuildZoomPath data' false (along ix data) = along ix' data' ∧
         is_Some (descend ix' data').
Proof.
  intros Hd Hsome. unfold removeNode. case_bool_decide as Hroot; [done|].
  intros [= <-].
  assert (along ix data = data :: tail (along ix data)) as Halong
    by (by destruct ix).
  destruct ix as [|i ix].
  { simpl. rewrite bool_decide_false by done.
    rewrite pruneRecursive_path. split; [done|]. exists []. simpl. eauto. }
  assert ((length (along (i :: ix) data) <=? 1)%nat = false) as Hlen.
  { destruct Hsome as [m Hm]. simpl in Hm |- *.
    destruct (children data) as [cs|]; [|done].
    destruct (cs !! i) as [c|]; [|done]. by destruct ix. }
  unfold rebuildZoomPath. rewrite Hlen. split.
  - rewrite fmap_cons, pruneRecursive_path.
    rewrite (rebuild_from_pruned targetPath 0 data (i :: ix) Hd Hsome).
    rewrite Halong at 2. simpl. by rewrite bool_decide_false.
  - apply rebuild_from_chain.
Qed.

Lemma zoom_path_after_removeNode_witness :
  let data' := pruneRecursive tree_x "/tmp/x/b/c.txt" in
  path <$> rebuildZoomPath data' false (along [0]%nat tree_x)
  = paths_before "/tmp/x/b/c.txt" (along [0]%nat tree_x) ∧
  ∃ ix', rebuildZoomPath data' false (along [0]%nat tree_x)
         = along ix' data' ∧
         is_Some (descend ix' data').
Proof.
  exact (zoom_path_after_removeNode tree_x "/tmp/x/b/c.txt" [0]%nat _
           tree_x_distinct (mk_is_Some _ _ eq_refl) eq_refl).
Defined.

(** With the zoom on [/tmp/x/b]: deleting a file of it keeps the zoom,
    with the new size; deleting the directory itself leads back to the
    root; and nothing moves while a scan runs. *)
Example zoom_path_after_removeNode_example :
  let zoom := along [0]%nat tree_x in
  let shown data :=
    (λ n, (path n, size n)) <$> rebuildZoomPath data false zoom in
  shown (pruneRecursive tree_x "/tmp/x/b/c.txt")
  = [("/tmp/x", 15); ("/tmp/x/b", 5)]%string ∧
  shown (pruneRecursive tree_x "/tmp/x/b") = [("/tmp/x", 10)]%string ∧
  rebuildZoomPath (pruneRecursive tree_x "/tmp/x/b") true zoom = zoom.
Proof. by vm_compute. Qed.

End ZoomFacts.

Module ZoomViewFacts.
Import Zoom ZoomView ZoomFacts.

Lemma along_length ix r :
  is_Some (descend ix r) → length (along ix r) = S (length ix).
Proof.
  revert r. induction ix as [|i ix IH]; intros r [m Hm]; [done|].
  simpl in Hm |- *. destruct (children r) as [cs|]; [|done].
  destruct (cs !! i) as [c|]; [|done]. f_equal. apply IH. by exists m.
Qed.

Lemma along_take k ix r :
  is_Some (descend ix r) →
  take (S k) (along ix r) = along (take k ix) r ∧
  is_Some (descend (take k ix) r).
Proof.
  revert ix r. induction k as [|k IH]; intros ix r Hsome.
  - rewrite take_0. destruct ix; simpl; eauto.
  - destruct ix as [|i ix]; [simpl; eauto|].
    destruct Hsome as [m Hm]. simpl in Hm.
    change (take (S (S k)) (along (i :: ix) r))
      with (r :: take (S k) (match children r with
                             | Some cs => match cs !! i with
                                          | Some c => along ix c
                                          | None => []
                                          end
                             | None => []
                             end)).
    simpl. destruct (children r) as [cs|]; [|done].
    destruct (cs !! i) as [c|]; [|done].
    destruct (IH ix c) as [-> Hsome]; [by exists m|]. done.
Qed.

Lemma path_of_take r l k : path_of r l → path_of r (take (S k) l).
Proof.
  intros (ix & -> & Hsome). exists (take k ix). by apply along_take.
Qed.

Lemma path_of_removelast r l :
  (1 < length l)%nat → path_of r l → path_of r (removelast l).
Proof.
  intros Hlen Hl. rewrite removelast_firstn_len.
  destruct (length l) as [|[|n]] eqn:Hn; [lia..|]. simpl Init.Nat.pred.
  by apply (path_of_take r l n).
Qed.

Lemma path_of_root r : path_of r [r].
Proof. exists []. simpl. eauto. Qed.

Lemma path_of_last r l : path_of r l → ∃ ix n, descend ix r = Some n ∧
  l = along ix r ∧ last l = Some n.
Proof.
  intros (ix & -> & [n Hn]). exists ix, n. split_and!; [done..|].
  by apply along_last.
Qed.

Lemma rebuildZoomPath_inv d s prev :
  (∃ r, path_of r prev) →
  zoom_inv (mkView d s (rebuildZoomPath d s prev)).
Proof.
  intros Hprev. unfold rebuildZoomPath, zoom_inv. simpl.
  destruct (length prev <=? 1)%nat.
  { split; [exists d|intros _]; apply path_of_root. }
  destruct s.
  { split; [done|done]. }
  split; [exists d|intros _]; apply rebuild_from_chain.
Qed.

Lemma handle_inv v ev : zoom_inv v → zoom_inv (handle v ev).
Proof.
  intros [[r Hr] Hdata]. destruct ev as [targetPath|index| |d s]; simpl.
  - assert (path_of (data v) (buildZoomPath (data v) targetPath)) as H.
    { destruct (zoom_from_chain (data v) targetPath)
        as (ix & n & Hchain & Hn & _). exists ix. split; [done|by exists n]. }
    split; [by exists (data v)|done].
  - split; simpl.
    + exists r. by apply path_of_take.
    + intros Hs. by apply path_of_take, Hdata.
  - destruct (1 <? length (zoomPath v))%nat eqn:Hlen; [|by split; eauto].
    apply Nat.ltb_lt in Hlen. split; simpl.
    + exists r. by apply path_of_removelast.
    + intros Hs. by apply path_of_removelast, Hdata.
  - apply rebuildZoomPath_inv. by exists r.
Qed.

Lemma run_inv d s evs : zoom_inv (run d s evs).
Proof.
  unfold run.
  assert (zoom_inv (mount d s)) as Hmount.
  { apply rebuildZoomPath_inv. exists d. apply path_of_root. }
  revert Hmount. generalize (mount d s).
  induction evs as [|ev evs IH]; intros v Hv; [done|].
  simpl. by apply IH, handle_inv.
Qed.


(** X22. The treemap always has a node to show.  After the mount and any
    sequence of drill-downs, breadcrumb clicks, Escape keys and changes
    of the props, [zoomPath] is not empty and is a path of one tree, each
    node a child of the one before, so that [currentNode] is defined; and
    whenever no scan is running it is a path of the current [data], from
    its root down to [currentNode]. *)
Theorem zoomPath_is_a_path_of_the_tree d s evs :
  let v := run d s evs in
  (∃ r ix n, zoomPath v = along ix r ∧ descend ix r = Some n ∧
             currentNode v = Some n) ∧
  (scanning v = false →
   ∃ ix n, zoomPath v = along ix (data v) ∧
           descend ix (data v) = Some n ∧ currentNode v = Some n).
Proof.
  intros v. destruct (run_inv d s evs) as [[r Hr] Hdata]. fold v in Hr, Hdata.
  unfold currentNode. split.
  - destruct (path_of_last r _ Hr) as (ix & n & Hn & Hl & Hlast).
    by exists r, ix, n.
  - intros Hs. destruct (path_of_last _ _ (Hdata Hs))
      as (ix & n & Hn & Hl & Hlast).
    by exists ix, n.
Qed.

(** The fixture: into [b], a deletion in it, down to a file and back. *)
Example zoomPath_example :
  let shown v := (path <$> zoomPath v, size <$> currentNode v) in
  shown (run tree_x false [Drill "/tmp/x/b"])
  = (["/tmp/x"; "/tmp/x/b"]%string, Some 25) ∧
  shown (run tree_x false
           [Drill "/tmp/x/b";
            Props (pruneRecursive tree_x "/tmp/x/b/c.txt") false])
  = (["/tmp/x"; "/tmp/x/b"]%string, Some 5) ∧
  shown (run tree_x false [Drill "/tmp/x/b/d.txt"; Escape; Escape; Escape])
  = (["/tmp/x"]%string, Some 35) ∧
  shown (run tree_x false [Drill "/tmp/x/b/d.txt"; Crumb 1])
  = (["/tmp/x"; "/tmp/x/b"]%string, Some 25).
Proof. by vm_compute. Qed.

End ZoomViewFacts.
